(** * ZkPrimeCore: envelopes, commitments and the job lifecycle

    A shallow embedding of the TypeScript SDK, file by file:
    - [src/crypto/hashing.ts]: [sha256], [toHex], [hashCommitment];
    - [src/crypto/encryption.ts]: [ensureKey], [deriveKeyFromSeed],
      [normalizeKey], [encryptPayload], [decryptPayload];
    - [src/privateState/commitments.ts], [src/privateState/schema.ts],
      [src/solana/connection.ts], [src/solana/transactions.ts],
      [src/config.ts], [src/client.ts];
    - [src/privateState/privateStateClient.ts]: the [PrivateStateClient];
    - [src/confidentialCompute/confidentialComputeClient.ts]: the
      [ConfidentialComputeClient].

    Conventions.
    - An [async] function or a method is a function [M A] on the [State];
      it returns ([Ok]) or throws ([Err]) and keeps the effects made before a
      throw.  A call runs to completion: interleavings of pending promises
      are not modelled.
    - A thrown value is known by its class ([error]); messages are dropped.
    - A string is the sequence of its UTF-8 bytes, a [Uint8Array] a list of
      bytes, a [Map] a [gmap].
    - The SDK is glue around Node's [crypto], [Buffer], [JSON], [fetch] and
      [@solana/web3.js].  These are not code of the repository: they are
      the fields of the classes [NodeLib] (deterministic library functions)
      and [World] (randomness, clock, network, chain).  What a theorem needs
      from them is a named law among its hypotheses, and the module [Model]
      gives definitions that meet all the laws and let the SDK run. *)

From Stdlib Require Import ZArith NArith List String Ascii Strings.Byte Bool Lia
  ZifyNat DecimalString DecimalZ.
From stdpp Require Import base option gmap strings list.

Open Scope string_scope.
Open Scope list_scope.
Open Scope stdpp_scope.

Set Warnings "-register-all".

(* ===================================================================== *)
(** * JavaScript data *)
(* ===================================================================== *)

(** A [Uint8Array] / [Buffer]. *)
Abbreviation bytes := (list byte).

(** The values [JSON.parse] can return.  An object is the list of its
    properties in source order; a property read takes the last binding of a
    key, as [JSON.parse] does for a repeated key.  JavaScript's [undefined]
    is [None] at type [option json]. *)
Inductive json : Type :=
| JNull
| JBool (b : bool)
| JNum (n : Z)
| JStr (s : string)
| JArr (items : list json)
| JObj (props : list (string * json)).

(** src/errors.ts: the classes of thrown values.  [JSError] stands for the
    built-in [Error], [TypeError] and [SyntaxError], which the SDK never
    tells apart. *)
Inductive error : Type :=
| JSError
| ConfigError
| SchemaError
| CryptoError
| RPCError
| NotFoundError.

Inductive result (A : Type) : Type :=
| Ok (a : A)
| Err (e : error).
Arguments Ok {A} a.
Arguments Err {A} e.

Definition result_bind {A B} (r : result A) (k : A → result B) : result B :=
  match r with
  | Ok a => k a
  | Err e => Err e
  end.

(** [try { body } catch (e) { handler e }] around code without effects. *)
Definition result_catch {A} (body : result A) (handler : error → result A) : result A :=
  match body with
  | Ok a => Ok a
  | Err e => handler e
  end.

(** A library call that returns or throws. *)
Definition or_throw {A} (e : error) (o : option A) : result A :=
  match o with
  | Some a => Ok a
  | None => Err e
  end.

(** JavaScript truthiness, on the values that occur. *)
Definition truthy (v : json) : bool :=
  match v with
  | JNull => false
  | JBool b => b
  | JNum n => negb (n =? 0)%Z
  | JStr s => negb (String.eqb s "")
  | JArr _ | JObj _ => true
  end.

Fixpoint last_binding (k : string) (props : list (string * json)) : option json :=
  match props with
  | [] => None
  | (k', v) :: rest =>
      match last_binding k rest with
      | Some w => Some w
      | None => if String.eqb k k' then Some v else None
      end
  end.

(** [v.k] for a key [k] that names no built-in property ([status], [iv],
    [tag], [ciphertext], ...): reading a property of [null] throws a
    [TypeError]; a primitive or an array has no such property. *)
Definition get_prop (v : json) (k : string) : result (option json) :=
  match v with
  | JNull => Err JSError
  | JObj props => Ok (last_binding k props)
  | _ => Ok None
  end.

(** [Buffer.from(s, 'utf8')] and [buf.toString('utf8')]: a string is kept as
    the sequence of its UTF-8 bytes. *)
Definition Buffer_from_utf8 (s : string) : bytes := list_byte_of_string s.
Definition toString_utf8 (b : bytes) : string := string_of_list_byte b.

(* ===================================================================== *)
(** * The outside world *)
(* ===================================================================== *)

Inductive Method : Type := GET | POST.

Record Request : Type := {
  req_method : Method;
  req_url : string;
  req_body : option string
}.

(** What [await fetch(..)] gives: a rejected promise, or a response with its
    [ok] flag, status code and what [resp.json()] yields ([None]: it
    rejects). *)
Inductive FetchOutcome : Type :=
| NetworkError
| Response (ok : bool) (status : Z) (body : option json).

(** @solana/web3.js, as far as the SDK touches it. *)
Record Connection : Type := {
  conn_endpoint : string;
  conn_commitment : string
}.

Record AccountMeta : Type := {
  pubkey : option string;
  isSigner : bool;
  isWritable : bool
}.

Record TransactionInstruction : Type := {
  ix_programId : string;
  ix_keys : list AccountMeta;
  ix_data : bytes
}.

Record Transaction : Type := {
  tx_instructions : list TransactionInstruction;
  tx_feePayer : option string;
  tx_recentBlockhash : option string;
  tx_signers : list string
}.

(** Every call that leaves the process, in the order made. *)
Inductive Event : Type :=
| EvRandomBytes (n : nat)
| EvDateNow
| EvFetch (req : Request)
| EvGetLatestBlockhash (c : Connection)
| EvSendRawTransaction (c : Connection) (tx : Transaction).

(** Deterministic library functions. *)
Class NodeLib : Type := {
  (** [createHash('sha256').update(b).digest()] *)
  createHash_sha256 : bytes → bytes;
  (** [createCipheriv('aes-256-gcm', key, iv)], [update], [final],
      [getAuthTag]: ciphertext and tag, [None] when a call throws. *)
  aes_256_gcm_encrypt : bytes → bytes → bytes → option (bytes * bytes);
  (** [createDecipheriv('aes-256-gcm', key, iv)], [setAuthTag], [update],
      [final]: the plaintext, [None] when a call throws. *)
  aes_256_gcm_decrypt : bytes → bytes → bytes → bytes → option bytes;
  (** [buf.toString('base64')] and [Buffer.from(s, 'base64')] *)
  base64_encode : bytes → string;
  base64_decode : string → bytes;
  (** [Buffer.from(v, 'base64')] for a [v] that is not a string *)
  Buffer_from_other : option json → result bytes;
  JSON_stringify : json → string;
  JSON_parse : string → option json;
  (** [new PublicKey(s)]: throws on a malformed address *)
  PublicKey_valid : string → bool;
  (** [new Connection(endpoint, ..)]: throws a [TypeError] on an endpoint
      that is not an [http:] or [https:] URL *)
  Connection_valid : string → bool
}.

(** The environment: each answer may depend on everything that happened
    before. *)
Class World : Type := {
  randomBytes : list Event → nat → bytes;
  Date_now : list Event → Z;
  fetch : list Event → Request → FetchOutcome;
  getLatestBlockhash : list Event → Connection → result string;
  sendRawTransaction : list Event → Connection → Transaction → result string
}.

(* ===================================================================== *)
(** * Types of the SDK *)
(* ===================================================================== *)

(** src/types.ts *)
Record WalletAdapter : Type := {
  publicKey : option string;
  signTransaction : option (Transaction → result Transaction)
}.

Record ZkPrimeConfig : Type := {
  rpcEndpoint : string;
  programId : option string;
  computeProgramId : option string;
  provingServiceUrl : option string;
  walletAdapter : option WalletAdapter
}.

Record EncryptedPayload : Type := {
  alg : string;
  iv : bytes;
  ciphertext : bytes;
  tag : bytes
}.

Record StateHandle : Type := {
  sh_id : string;
  sh_commitment : string;
  sh_owner : string
}.

(** src/privateState/privateStateClient.ts *)
Inductive FieldType : Type := T_u64 | T_string | T_bytes | T_boolean.

Definition FieldType_string (t : FieldType) : string :=
  match t with
  | T_u64 => "u64"
  | T_string => "string"
  | T_bytes => "bytes"
  | T_boolean => "boolean"
  end.

Record SchemaField : Type := {
  sf_name : string;
  sf_type : FieldType
}.

Record PrivateSchema : Type := {
  ps_id : string;
  ps_name : string;
  ps_fields : list SchemaField
}.

Record CreateStateParams : Type := {
  schemaId : string;
  owner : string;
  data : json;
  symmetricKeySeed : bytes
}.

Record UpdateStateParams : Type := {
  up_base : CreateStateParams;
  stateId : option string;
  previousCommitment : string
}.

Record ProofObject : Type := {
  proof : option json;
  publicInputs : json
}.

Record PrivateStateClient : Type := {
  psc_config : ZkPrimeConfig;
  schemaRegistry : gmap string PrivateSchema
}.

(** src/confidentialCompute/confidentialComputeClient.ts *)
Inductive JobStatus : Type := PENDING | RUNNING | COMPLETED | FAILED.

Definition JobStatus_string (s : JobStatus) : string :=
  match s with
  | PENDING => "PENDING"
  | RUNNING => "RUNNING"
  | COMPLETED => "COMPLETED"
  | FAILED => "FAILED"
  end.

Record JobDefinition : Type := {
  jd_name : string;
  jd_version : option string;
  jd_description : option string;
  jd_inputSchema : option json;
  jd_outputSchema : option json
}.

Record JobRecord : Type := {
  jr_id : string;
  jr_owner : string;
  jr_jobType : string;
  jr_commitment : string;
  jr_status : JobStatus;
  jr_createdAt : Z;
  jr_resultRef : option string
}.

Record SubmitJobParams : Type := {
  sj_jobType : string;
  sj_owner : string;
  sj_input : json;
  sj_symmetricKeySeed : bytes
}.

Record ConfidentialComputeClient : Type := {
  ccc_config : ZkPrimeConfig;
  registry : gmap string JobDefinition;
  mockJobs : gmap string JobRecord
}.

(** Everything mutable: the two clients of a [ZkPrimeClient] (src/client.ts),
    the module-level [cache] of src/solana/connection.ts, and the calls made
    so far. *)
Record State : Type := {
  trace : list Event;
  cache : gmap string Connection;
  privateState : PrivateStateClient;
  confidentialCompute : ConfidentialComputeClient
}.

Definition set_trace (t : list Event) (st : State) : State :=
  {| trace := t; cache := cache st;
     privateState := privateState st;
     confidentialCompute := confidentialCompute st |}.

Definition set_cache (c : gmap string Connection) (st : State) : State :=
  {| trace := trace st; cache := c;
     privateState := privateState st;
     confidentialCompute := confidentialCompute st |}.

Definition set_schemaRegistry (r : gmap string PrivateSchema) (st : State) : State :=
  {| trace := trace st; cache := cache st;
     privateState := {| psc_config := psc_config (privateState st);
                        schemaRegistry := r |};
     confidentialCompute := confidentialCompute st |}.

Definition set_registry (r : gmap string JobDefinition) (st : State) : State :=
  {| trace := trace st; cache := cache st;
     privateState := privateState st;
     confidentialCompute :=
       {| ccc_config := ccc_config (confidentialCompute st);
          registry := r;
          mockJobs := mockJobs (confidentialCompute st) |} |}.

Definition set_mockJobs (m : gmap string JobRecord) (st : State) : State :=
  {| trace := trace st; cache := cache st;
     privateState := privateState st;
     confidentialCompute :=
       {| ccc_config := ccc_config (confidentialCompute st);
          registry := registry (confidentialCompute st);
          mockJobs := m |} |}.

(* ===================================================================== *)
(** * Exceptions and state *)
(* ===================================================================== *)

(** An [async] function or a method: it runs on the state and returns or
    throws.  A throw keeps the effects made before it. *)
Definition M (A : Type) : Type := State → result A * State.

#[export] Instance result_ret : MRet result := λ A a, Ok a.
#[export] Instance result_bind' : MBind result := λ A B k r, result_bind r k.

#[export] Instance M_ret : MRet M := λ A a st, (Ok a, st).
#[export] Instance M_bind : MBind M := λ A B k m st,
  match m st with
  | (Ok a, st') => k a st'
  | (Err e, st') => (Err e, st')
  end.

Definition throw {A} (e : error) : M A := λ st, (Err e, st).

Definition lift {A} (r : result A) : M A := λ st, (r, st).

(** [try { body } catch (e) { handler e }] *)
Definition try_catch {A} (body : M A) (handler : error → M A) : M A := λ st,
  match body st with
  | (Ok a, st') => (Ok a, st')
  | (Err e, st') => handler e st'
  end.

Definition get_state : M State := λ st, (Ok st, st).
Definition modify (f : State → State) : M unit := λ st, (Ok tt, f st).

(** A call to the world: answered from the trace so far, then recorded. *)
Definition call {A} (answer : list Event → A) (ev : Event) : M A := λ st,
  (Ok (answer (trace st)), set_trace (trace st ++ [ev]) st).

(* ===================================================================== *)
(** * src/crypto/hashing.ts *)
(* ===================================================================== *)

Definition hex_digit (n : N) : ascii :=
  match n with
  | 0%N => "0" | 1%N => "1" | 2%N => "2" | 3%N => "3"
  | 4%N => "4" | 5%N => "5" | 6%N => "6" | 7%N => "7"
  | 8%N => "8" | 9%N => "9" | 10%N => "a" | 11%N => "b"
  | 12%N => "c" | 13%N => "d" | 14%N => "e" | _ => "f"
  end%char.

(** [Buffer.from(bytes).toString('hex')] *)
Fixpoint toHex (b : bytes) : string :=
  match b with
  | [] => ""
  | x :: rest =>
      String (hex_digit (Byte.to_N x / 16))
        (String (hex_digit (Byte.to_N x mod 16)) (toHex rest))
  end.

(** [str.slice(0, n)] *)
Definition slice0 (n : nat) (s : string) : string := String.substring 0 n s.

Section Source.

Context {node : NodeLib} {world : World}.

Definition sha256 (data : bytes + string) : bytes :=
  let input :=
    match data with
    | inr s => Buffer_from_utf8 s
    | inl b => b
    end in
  createHash_sha256 input.

Definition hashCommitment (data : bytes + string) : string :=
  toHex (sha256 data).

(* ------------------------------------------------------------------- *)
(** ** src/privateState/commitments.ts *)

Definition createCommitment (payload : bytes) : string * bytes :=
  let hash := sha256 (inl payload) in
  (toHex hash, hash).

Definition verifyCommitment (payload : bytes) (commitmentHex : string) : bool :=
  let '(commitment, _) := createCommitment payload in
  String.eqb commitment commitmentHex.

(* ------------------------------------------------------------------- *)
(** ** src/privateState/schema.ts *)

(** The loop of [validateSchema] over [schema.fields]. *)
Fixpoint validateFields (fields : list SchemaField) : result unit :=
  match fields with
  | [] => Ok tt
  | f :: rest =>
      if String.eqb (sf_name f) "" || String.eqb (FieldType_string (sf_type f)) ""
      then Err JSError
      else validateFields rest
  end.

(** [schema.fields] is an array by its type. *)
Definition validateSchema (schema : PrivateSchema) : result bool :=
  if String.eqb (ps_name schema) "" then Err JSError
  else if (length (ps_fields schema) =? 0)%nat then Err JSError
  else validateFields (ps_fields schema);; Ok true.

(** [for (const k of Object.keys(record)) if (allowed.has(k)) filtered[k] =
    record[k]], on the own properties of [record] in the order
    [Object.keys] lists them.  The assignment [filtered['__proto__'] = v]
    reaches the setter of [Object.prototype] and creates no property. *)
Definition keep_field (allowed : list string) (entry : string * json) : bool :=
  bool_decide (entry.1 ∈ allowed) && negb (String.eqb entry.1 "__proto__").

Definition serializeRecord (schema : PrivateSchema) (record : list (string * json))
    : bytes :=
  let allowed := map sf_name (ps_fields schema) in
  let filtered := List.filter (keep_field allowed) record in
  let json := JSON_stringify (JObj filtered) in
  Buffer_from_utf8 json.

(* ------------------------------------------------------------------- *)
(** ** src/crypto/encryption.ts *)

(** The [instanceof Uint8Array] guards of [ensureKey] and [normalizeKey]
    hold by the type of their argument. *)
Definition ensureKey (key : bytes) : result unit :=
  if negb (length key =? 32)%nat then Err CryptoError else Ok tt.

Definition deriveKeyFromSeed (seed : bytes) : bytes :=
  sha256 (inl seed).

Definition normalizeKey (seedOrKey : bytes) : bytes :=
  if (length seedOrKey =? 32)%nat then seedOrKey
  else deriveKeyFromSeed seedOrKey.

Definition encryptPayload (data : json) (key : bytes) : M EncryptedPayload :=
  lift (ensureKey key);;
  try_catch
    (let json := JSON_stringify data in
     iv ← call (λ t, randomBytes t 12) (EvRandomBytes 12);
     '(ciphertext, tag) ← lift (or_throw JSError
        (aes_256_gcm_encrypt key iv (Buffer_from_utf8 json)));
     mret {| alg := "AES-GCM"; iv := iv;
             ciphertext := ciphertext; tag := tag |})
    (λ _, throw CryptoError).

Definition decryptPayload (payload : EncryptedPayload) (key : bytes) : result json :=
  ensureKey key;;
  if negb (String.eqb (alg payload) "AES-GCM") then Err CryptoError
  else
    result_catch
      (decrypted ← or_throw JSError
         (aes_256_gcm_decrypt key (iv payload) (ciphertext payload) (tag payload));
       let text := toString_utf8 decrypted in
       or_throw JSError (JSON_parse text))
      (λ _, Err CryptoError).

(* ------------------------------------------------------------------- *)
(** ** src/solana/connection.ts *)

(** [new Connection(endpoint, { commitment: 'confirmed' })] *)
Definition Connection_new (endpoint : string) : result Connection :=
  if Connection_valid endpoint
  then Ok {| conn_endpoint := endpoint; conn_commitment := "confirmed" |}
  else Err JSError.

(** The constructor runs before [cache.set]: when it throws, the cache is
    as it was. *)
Definition getConnection (endpoint : string) : M Connection := λ st,
  match cache st !! endpoint with
  | Some existing => (Ok existing, st)
  | None =>
      match Connection_new endpoint with
      | Ok conn => (Ok conn, set_cache (<[endpoint := conn]> (cache st)) st)
      | Err e => (Err e, st)
      end
  end.

(* ------------------------------------------------------------------- *)
(** ** src/solana/transactions.ts *)

Definition partialSign (signers : list string) (tx : Transaction) : Transaction :=
  {| tx_instructions := tx_instructions tx;
     tx_feePayer := tx_feePayer tx;
     tx_recentBlockhash := tx_recentBlockhash tx;
     tx_signers := tx_signers tx ++ signers |}.

Definition buildAndSendTransaction (connection : Connection)
    (wallet : option WalletAdapter) (instructions : list TransactionInstruction)
    (additionalSigners : list string) : M string :=
  match wallet with
  | None => throw RPCError
  | Some wa =>
      match publicKey wa with
      | None => throw RPCError
      | Some pk =>
          r ← call (λ t, getLatestBlockhash t connection)
                   (EvGetLatestBlockhash connection);
          blockhash ← lift r;
          let tx := {| tx_instructions := instructions;
                       tx_feePayer := Some pk;
                       tx_recentBlockhash := Some blockhash;
                       tx_signers := [] |} in
          match signTransaction wa with
          | Some sign =>
              signed ← lift (sign tx);
              let signed :=
                if (0 <? length additionalSigners)%nat
                then partialSign additionalSigners signed else signed in
              r ← call (λ t, sendRawTransaction t connection signed)
                       (EvSendRawTransaction connection signed);
              lift r
          | None => throw RPCError
          end
      end
  end.

Definition createInstruction (program : string) (data : bytes)
    (keys : list AccountMeta) : result TransactionInstruction :=
  if PublicKey_valid program
  then Ok {| ix_programId := program; ix_keys := keys; ix_data := data |}
  else Err JSError.

(** [await fetch(..)] *)
Definition do_fetch (req : Request) : M (bool * Z * option json) :=
  r ← call (λ t, fetch t req) (EvFetch req);
  match r with
  | NetworkError => throw JSError
  | Response ok status body => mret (ok, status, body)
  end.

(** [await resp.json()] *)
Definition resp_json (body : option json) : M json :=
  match body with
  | Some j => mret j
  | None => throw JSError
  end.

(** [Buffer.from(v, 'base64')] *)
Definition Buffer_from_base64 (v : option json) : result bytes :=
  match v with
  | Some (JStr s) => Ok (base64_decode s)
  | _ => Buffer_from_other v
  end.

End Source.

(** [o && ...] for an optional string option of the configuration:
    [undefined] and the empty string are both falsy. *)
Definition configured (o : option string) : option string :=
  match o with
  | Some s => if String.eqb s "" then None else Some s
  | None => None
  end.

(** A configuration object as it is at run time, before a constructor has
    looked at it (a [Partial<ZkPrimeConfig>]).  Its [rpcEndpoint] is not
    there ([None]), or there with a value, which may be [undefined]
    ([Some None]).  For the other options, which have no default, a
    property that is not there and one that is [undefined] read alike:
    both are [None]. *)
Record PartialConfig : Type := {
  opt_rpcEndpoint : option (option string);
  opt_programId : option string;
  opt_computeProgramId : option string;
  opt_provingServiceUrl : option string;
  opt_walletAdapter : option WalletAdapter
}.

(** [cfg.rpcEndpoint] *)
Definition get_rpcEndpoint (cfg : PartialConfig) : option string :=
  match opt_rpcEndpoint cfg with
  | Some v => v
  | None => None
  end.

Section Clients.

Context {node : NodeLib} {world : World}.

(* ------------------------------------------------------------------- *)
(** ** src/privateState/privateStateClient.ts *)

(** The argument of the constructor is a configuration, or an object that
    holds one under [config]. *)
Inductive ConfigOrOpts : Type :=
| ConfigArg (cfg : PartialConfig)
| OptsArg (cfg : PartialConfig).

(** [if (!cfg || !cfg.rpcEndpoint) throw ...; this.config = cfg]: the
    configuration is kept when its endpoint is a non-empty string. *)
Definition PrivateStateClient_new (configOrOpts : ConfigOrOpts) : result PrivateStateClient :=
  let cfg :=
    match configOrOpts with
    | OptsArg c => c
    | ConfigArg c => c
    end in
  match configured (get_rpcEndpoint cfg) with
  | None => Err ConfigError
  | Some endpoint =>
      Ok {| psc_config := {| rpcEndpoint := endpoint;
                             programId := opt_programId cfg;
                             computeProgramId := opt_computeProgramId cfg;
                             provingServiceUrl := opt_provingServiceUrl cfg;
                             walletAdapter := opt_walletAdapter cfg |};
            schemaRegistry := ∅ |}
  end.

Definition defineSchema (schema : PrivateSchema) : M PrivateSchema :=
  if String.eqb (ps_id schema) "" || String.eqb (ps_name schema) ""
     || (length (ps_fields schema) =? 0)%nat
  then throw SchemaError
  else
    modify (λ st, set_schemaRegistry
                    (<[ps_id schema := schema]> (schemaRegistry (privateState st))) st);;
    mret schema.

Definition getSchema (id : string) : M PrivateSchema :=
  st ← get_state;
  match schemaRegistry (privateState st) !! id with
  | Some s => mret s
  | None => throw NotFoundError
  end.

(** The account list of every instruction the clients create:
    [[{ pubkey: walletAdapter.publicKey!, isSigner: true, isWritable: false }]] *)
Definition signer_key (wa : WalletAdapter) : list AccountMeta :=
  [{| pubkey := publicKey wa; isSigner := true; isWritable := false |}].

Definition createState (params : CreateStateParams) (wallet : option WalletAdapter)
    : M (StateHandle * EncryptedPayload) :=
  schema ← getSchema (schemaId params);
  let key := normalizeKey (symmetricKeySeed params) in
  encrypted ← encryptPayload (data params) key;
  let commitment := hashCommitment (inl (ciphertext encrypted)) in
  st ← get_state;
  let config := psc_config (privateState st) in
  match configured (programId config), wallet with
  | Some program, Some wa =>
      conn ← getConnection (rpcEndpoint config);
      let data := Buffer_from_utf8 (JSON_stringify
        (JObj [("op", JStr "create"); ("commitment", JStr commitment)])) in
      ix ← lift (createInstruction program data (signer_key wa));
      buildAndSendTransaction conn (Some wa) [ix] [];;
      mret tt
  | _, _ => mret tt
  end;;
  let stateId := slice0 32 (hashCommitment (inr (commitment +:+ owner params))) in
  let handle := {| sh_id := stateId; sh_commitment := commitment;
                   sh_owner := owner params |} in
  mret (handle, encrypted).

Definition updateState (params : UpdateStateParams) (wallet : option WalletAdapter)
    : M (StateHandle * EncryptedPayload) :=
  getSchema (schemaId (up_base params));;
  let key := normalizeKey (symmetricKeySeed (up_base params)) in
  encrypted ← encryptPayload (data (up_base params)) key;
  let newCommitment := hashCommitment (inl (ciphertext encrypted)) in
  st ← get_state;
  let config := psc_config (privateState st) in
  match configured (programId config), wallet with
  | Some program, Some wa =>
      conn ← getConnection (rpcEndpoint config);
      let data := Buffer_from_utf8 (JSON_stringify
        (JObj [("op", JStr "update"); ("prev", JStr (previousCommitment params));
               ("next", JStr newCommitment)])) in
      ix ← lift (createInstruction program data (signer_key wa));
      buildAndSendTransaction conn (Some wa) [ix] [];;
      mret tt
  | _, _ => mret tt
  end;;
  let handle :=
    {| sh_id := match stateId params with
                | Some id => id
                | None => slice0 32 (hashCommitment
                            (inr (newCommitment +:+ owner (up_base params))))
                end;
       sh_commitment := newCommitment;
       sh_owner := owner (up_base params) |} in
  mret (handle, encrypted).

Definition generateProof (id : string) (encryptedPayload : EncryptedPayload)
    (circuit : string) : M ProofObject :=
  st ← get_state;
  match configured (provingServiceUrl (psc_config (privateState st))) with
  | Some base =>
      let url := base +:+ "/generate-proof" in
      let body := JObj [("stateId", JStr id); ("circuit", JStr circuit);
                        ("ciphertext", JStr (base64_encode (ciphertext encryptedPayload)));
                        ("iv", JStr (base64_encode (iv encryptedPayload)));
                        ("tag", JStr (base64_encode (tag encryptedPayload)))] in
      '(ok, _, rbody) ← do_fetch {| req_method := POST; req_url := url;
                                    req_body := Some (JSON_stringify body) |};
      if negb ok then throw JSError
      else
        json ← resp_json rbody;
        p ← lift (get_prop json "proof");
        inputs ← lift (get_prop json "publicInputs");
        mret {| proof := p;
                publicInputs := match inputs with
                                | Some v => if truthy v then v else JObj []
                                | None => JObj []
                                end |}
  | None =>
      mret {| proof := Some (JStr ("mock-proof-for-" +:+ id));
              publicInputs := JObj [("mock", JBool true)] |}
  end.

Definition submitProof (id : string) (p : ProofObject) (wallet : option WalletAdapter)
    : M string :=
  st ← get_state;
  let config := psc_config (privateState st) in
  match configured (programId config) with
  | None => throw ConfigError
  | Some program =>
      match wallet with
      | None => throw ConfigError
      | Some wa =>
          conn ← getConnection (rpcEndpoint config);
          let data := Buffer_from_utf8 (JSON_stringify
            (JObj ([("op", JStr "submit_proof"); ("stateId", JStr id)]
                   ++ match proof p with
                      | Some v => [("proof", v)]
                      | None => []
                      end))) in
          ix ← lift (createInstruction program data (signer_key wa));
          buildAndSendTransaction conn (Some wa) [ix] []
      end
  end.

(** The commitment stored for a state id; [None] is [null]. *)
Definition getStateCommitment (id : string) : M (option string) :=
  st ← get_state;
  let config := psc_config (privateState st) in
  match configured (programId config) with
  | None => mret None
  | Some _ =>
      conn ← getConnection (rpcEndpoint config);
      mret None
  end.

Definition decryptWithSeed (encrypted : EncryptedPayload) (seedOrKey : bytes)
    : result json :=
  let key := normalizeKey seedOrKey in
  decryptPayload encrypted key.

(* ------------------------------------------------------------------- *)
(** ** src/confidentialCompute/confidentialComputeClient.ts *)

Definition ConfidentialComputeClient_new (config : ZkPrimeConfig)
    : ConfidentialComputeClient :=
  {| ccc_config := config; registry := ∅; mockJobs := ∅ |}.

Definition registerJobType (def : JobDefinition) : M JobDefinition :=
  if String.eqb (jd_name def) "" then throw JSError
  else
    modify (λ st, set_registry
                    (<[jd_name def := def]> (registry (confidentialCompute st))) st);;
    mret def.

(** Lines 65-74 of [submitJob]: the job commitment goes on chain when a
    compute program and a wallet are both there. *)
Definition submitJob_onchain (config : ZkPrimeConfig) (wallet : option WalletAdapter)
    (jobId commitment jobType : string) : M (option string) :=
  match configured (computeProgramId config), wallet with
  | Some program, Some wa =>
      conn ← getConnection (rpcEndpoint config);
      let data := Buffer_from_utf8 (JSON_stringify
        (JObj [("op", JStr "submit_job"); ("jobId", JStr jobId);
               ("commitment", JStr commitment); ("type", JStr jobType)])) in
      ix ← lift (createInstruction program data (signer_key wa));
      sig ← buildAndSendTransaction conn (Some wa) [ix] [];
      mret (Some sig)
  | _, _ => mret None
  end.

Definition submitJob (params : SubmitJobParams) (wallet : option WalletAdapter)
    : M (string * option string) :=
  st ← get_state;
  match registry (confidentialCompute st) !! sj_jobType params with
  | None => throw NotFoundError
  | Some def =>
      let config := ccc_config (confidentialCompute st) in
      let key := normalizeKey (sj_symmetricKeySeed params) in
      encrypted ← encryptPayload (sj_input params) key;
      let commitment := hashCommitment (inl (ciphertext encrypted)) in
      let jobId := slice0 32 (hashCommitment (inr (commitment +:+ sj_owner params))) in
      txSig ← submitJob_onchain config wallet jobId commitment (sj_jobType params);
      match configured (provingServiceUrl config) with
      | Some base =>
          let url := base +:+ "/submit-job" in
          let body := JObj [("jobId", JStr jobId);
                            ("jobType", JStr (sj_jobType params));
                            ("owner", JStr (sj_owner params));
                            ("iv", JStr (base64_encode (iv encrypted)));
                            ("tag", JStr (base64_encode (tag encrypted)));
                            ("ciphertext", JStr (base64_encode (ciphertext encrypted)))] in
          try_catch
            (do_fetch {| req_method := POST; req_url := url;
                         req_body := Some (JSON_stringify body) |};;
             mret tt)
            (λ _, mret tt)
      | None =>
          now ← call Date_now EvDateNow;
          modify (λ st, set_mockJobs
            (<[jobId := {| jr_id := jobId; jr_owner := sj_owner params;
                           jr_jobType := sj_jobType params;
                           jr_commitment := commitment;
                           jr_status := PENDING; jr_createdAt := now;
                           jr_resultRef := None |}]>
               (mockJobs (confidentialCompute st))) st)
      end;;
      mret (jobId, txSig)
  end.

(** Lines 125-127 of [getJobStatus]: the answer of the mock store. *)
Definition mock_status (jobId : string) : M json :=
  st ← get_state;
  match mockJobs (confidentialCompute st) !! jobId with
  | None => throw NotFoundError
  | Some job => mret (JStr (JobStatus_string (jr_status job)))
  end.

Definition getJobStatus (jobId : string) : M json :=
  st ← get_state;
  match configured (provingServiceUrl (ccc_config (confidentialCompute st))) with
  | Some base =>
      let url := base +:+ "/job-status/" +:+ jobId in
      try_catch
        ('(ok, _, body) ← do_fetch {| req_method := GET; req_url := url;
                                      req_body := None |};
         if negb ok then throw JSError
         else
           json ← resp_json body;
           status ← lift (get_prop json "status");
           match status with
           | Some v => if truthy v then mret v else mret (JStr "PENDING")
           | None => mret (JStr "PENDING")
           end)
        (λ _, mock_status jobId)
  | None => mock_status jobId
  end.

(** [v || ''] *)
Definition or_empty (v : option json) : option json :=
  match v with
  | Some w => if truthy w then Some w else Some (JStr "")
  | None => Some (JStr "")
  end.

Definition fetchResult (jobId : string) (seed : bytes) : M json :=
  st ← get_state;
  match configured (provingServiceUrl (ccc_config (confidentialCompute st))) with
  | Some base =>
      let url := base +:+ "/job-result/" +:+ jobId in
      '(ok, _, body) ← do_fetch {| req_method := GET; req_url := url;
                                    req_body := None |};
      if negb ok then throw NotFoundError
      else
        json ← resp_json body;
        jiv ← lift (get_prop json "iv");
        biv ← lift (Buffer_from_base64 jiv);
        jct ← lift (get_prop json "ciphertext");
        bct ← lift (Buffer_from_base64 jct);
        jtag ← lift (get_prop json "tag");
        btag ← lift (Buffer_from_base64 jtag);
        let payload := {| alg := "AES-GCM"; iv := biv;
                          ciphertext := bct; tag := btag |} in
        let key := normalizeKey seed in
        lift (decryptPayload payload key)
  | None =>
      match mockJobs (confidentialCompute st) !! jobId with
      | None => throw NotFoundError
      | Some job =>
          match configured (jr_resultRef job) with
          | None => throw NotFoundError
          | Some ref =>
              let decoded := base64_decode ref in
              match JSON_parse (toString_utf8 decoded) with
              | None => throw JSError
              | Some payload =>
                  jiv ← lift (get_prop payload "iv");
                  biv ← lift (Buffer_from_base64 (or_empty (or_empty jiv)));
                  jct ← lift (get_prop payload "ciphertext");
                  bct ← lift (Buffer_from_base64 jct);
                  jtag ← lift (get_prop payload "tag");
                  btag ← lift (Buffer_from_base64 jtag);
                  let ep := {| alg := "AES-GCM"; iv := biv;
                               ciphertext := bct; tag := btag |} in
                  let key := deriveKeyFromSeed seed in
                  lift (decryptPayload ep key)
              end
          end
      end
  end.

Definition _setMockResult (jobId : string) (encryptedPayload : EncryptedPayload)
    : M unit :=
  st ← get_state;
  match mockJobs (confidentialCompute st) !! jobId with
  | None => throw NotFoundError
  | Some record =>
      let payload := JObj [("iv", JStr (base64_encode (iv encryptedPayload)));
                           ("tag", JStr (base64_encode (tag encryptedPayload)));
                           ("ciphertext", JStr (base64_encode (ciphertext encryptedPayload)))] in
      let ref := base64_encode (Buffer_from_utf8 (JSON_stringify payload)) in
      let record := {| jr_id := jr_id record; jr_owner := jr_owner record;
                       jr_jobType := jr_jobType record;
                       jr_commitment := jr_commitment record;
                       jr_status := COMPLETED;
                       jr_createdAt := jr_createdAt record;
                       jr_resultRef := Some ref |} in
      modify (set_mockJobs (<[jobId := record]> (mockJobs (confidentialCompute st))))
  end.

End Clients.

(** src/config.ts *)
Definition DEFAULTS_rpcEndpoint : string := "https://api.mainnet-beta.solana.com".

(** [Object.assign({}, DEFAULTS, cfg)]: every property that [cfg] has
    overrides the default, one whose value is [undefined] too. *)
Definition mergeConfig (cfg : PartialConfig) : PartialConfig :=
  {| opt_rpcEndpoint :=
       match opt_rpcEndpoint cfg with
       | Some v => Some v
       | None => Some (Some DEFAULTS_rpcEndpoint)
       end;
     opt_programId := opt_programId cfg;
     opt_computeProgramId := opt_computeProgramId cfg;
     opt_provingServiceUrl := opt_provingServiceUrl cfg;
     opt_walletAdapter := opt_walletAdapter cfg |}.

(** src/client.ts: [new ZkPrimeClient(opts)], in a process whose calls so
    far are [t] and whose connection cache is [c].  Both clients are given
    the one merged object, which the first constructor has checked. *)
Definition ZkPrimeClient_new (opts : PartialConfig) (t : list Event)
    (c : gmap string Connection) : result State :=
  let config := mergeConfig opts in
  ps ← PrivateStateClient_new (ConfigArg config);
  mret {| trace := t; cache := c; privateState := ps;
          confidentialCompute := ConfidentialComputeClient_new (psc_config ps) |}.

(* ===================================================================== *)
(** * Vocabulary of the statements *)
(* ===================================================================== *)

(** The values that [JSON.stringify] and [JSON.parse] carry unchanged:
    integers that a double holds exactly, and objects whose keys are
    pairwise distinct and do not start with a digit (an index-like key
    would be moved to the front). *)
Definition key_ok (k : string) : bool :=
  match k with
  | String c _ => negb ((48 <=? nat_of_ascii c)%nat && (nat_of_ascii c <=? 57)%nat)
  | EmptyString => true
  end.

Fixpoint key_fresh (k : string) (props : list (string * json)) : bool :=
  match props with
  | [] => true
  | (k', _) :: rest => negb (String.eqb k k') && key_fresh k rest
  end.

Fixpoint JSON_serializable (v : json) : bool :=
  match v with
  | JNull | JBool _ | JStr _ => true
  | JNum n => (Z.abs n <=? 9007199254740991)%Z
  | JArr items =>
      (fix all (l : list json) : bool :=
         match l with
         | [] => true
         | x :: r => JSON_serializable x && all r
         end) items
  | JObj props =>
      (fix all (l : list (string * json)) : bool :=
         match l with
         | [] => true
         | (k, x) :: r =>
             key_ok k && key_fresh k r && JSON_serializable x && all r
         end) props
  end.

(** Bit [i] of a byte array inverted (bit 0 is the lowest bit of byte 0). *)
Definition flip_bit_byte (j : nat) (b : byte) : byte :=
  default b (Byte.of_N (N.lxor (Byte.to_N b) (2 ^ N.of_nat (j mod 8)))).

Fixpoint flip_bit (i : nat) (bs : bytes) : bytes :=
  match bs with
  | [] => []
  | b :: rest =>
      if (i <? 8)%nat then flip_bit_byte i b :: rest
      else b :: flip_bit (i - 8) rest
  end.

Inductive EnvelopeField : Type := Field_iv | Field_ciphertext | Field_tag.

Definition field_bytes (f : EnvelopeField) (p : EncryptedPayload) : bytes :=
  match f with
  | Field_iv => iv p
  | Field_ciphertext => ciphertext p
  | Field_tag => tag p
  end.

Definition tamper (f : EnvelopeField) (i : nat) (p : EncryptedPayload) : EncryptedPayload :=
  match f with
  | Field_iv =>
      {| alg := alg p; iv := flip_bit i (iv p);
         ciphertext := ciphertext p; tag := tag p |}
  | Field_ciphertext =>
      {| alg := alg p; iv := iv p;
         ciphertext := flip_bit i (ciphertext p); tag := tag p |}
  | Field_tag =>
      {| alg := alg p; iv := iv p;
         ciphertext := ciphertext p; tag := flip_bit i (tag p) |}
  end.

(* ===================================================================== *)
(** * What the statements ask of the libraries *)
(* ===================================================================== *)

Section Laws.

Context (node : NodeLib) (world : World).

(** SHA-256 digests have 32 bytes. *)
Definition sha256_length : Prop :=
  ∀ b, length (createHash_sha256 b) = 32.

(** AES-256-GCM accepts a 32-byte key with a 12-byte nonce. *)
Definition gcm_encrypts : Prop :=
  ∀ k n pt, length k = 32 → length n = 12 →
    is_Some (aes_256_gcm_encrypt k n pt).

(** Decryption undoes encryption under the same key and nonce. *)
Definition gcm_decrypts : Prop :=
  ∀ k n pt ct t,
    aes_256_gcm_encrypt k n pt = Some (ct, t) →
    aes_256_gcm_decrypt k n ct t = Some pt.

(** Authentication: after a single bit of the nonce, of the ciphertext or
    of the tag is inverted, verification fails.  (For AES-GCM this holds
    for the nonce and the tag outright and for the ciphertext unless the
    hash subkey is zero; it is taken here for every key.) *)
Definition gcm_authenticates : Prop :=
  ∀ k n pt ct t,
    aes_256_gcm_encrypt k n pt = Some (ct, t) →
    ∀ i,
      (i < 8 * length n → aes_256_gcm_decrypt k (flip_bit i n) ct t = None) ∧
      (i < 8 * length ct → aes_256_gcm_decrypt k n (flip_bit i ct) t = None) ∧
      (i < 8 * length t → aes_256_gcm_decrypt k n ct (flip_bit i t) = None).

Definition JSON_round_trip : Prop :=
  ∀ v, JSON_serializable v = true → JSON_parse (JSON_stringify v) = Some v.

(** [JSON.parse('')] throws. *)
Definition JSON_rejects_empty : Prop :=
  JSON_parse "" = None.

Definition base64_round_trip : Prop :=
  ∀ b, base64_decode (base64_encode b) = b.

(** [Buffer.from('', 'base64')] is empty. *)
Definition base64_decodes_empty : Prop :=
  base64_decode "" = [].

Definition randomBytes_length : Prop :=
  ∀ t n, length (randomBytes t n) = n.

End Laws.

Arguments sha256_length {node}.
Arguments gcm_encrypts {node}.
Arguments gcm_decrypts {node}.
Arguments gcm_authenticates {node}.
Arguments JSON_round_trip {node}.
Arguments JSON_rejects_empty {node}.
Arguments base64_round_trip {node}.
Arguments base64_decodes_empty {node}.
Arguments randomBytes_length {world}.

(* ===================================================================== *)
(** * Scenarios and invariants *)
(* ===================================================================== *)

Section Scenarios.

Context {node : NodeLib} {world : World}.

(** The JSON value under which [_setMockResult] files an envelope, and the
    string it stores in [resultRef]. *)
Definition mock_payload (env : EncryptedPayload) : json :=
  JObj [("iv", JStr (base64_encode (iv env)));
        ("tag", JStr (base64_encode (tag env)));
        ("ciphertext", JStr (base64_encode (ciphertext env)))].

Definition mock_ref (env : EncryptedPayload) : string :=
  base64_encode (Buffer_from_utf8 (JSON_stringify (mock_payload env))).

(** The body the coordinator serves for a job result: the three parts of
    the envelope, base64-encoded. *)
Definition job_result_body (env : EncryptedPayload) : json :=
  JObj [("iv", JStr (base64_encode (iv env)));
        ("ciphertext", JStr (base64_encode (ciphertext env)));
        ("tag", JStr (base64_encode (tag env)))].

(** The envelope both paths of [fetchResult] rebuild from the parts. *)
Definition rebuilt (env : EncryptedPayload) : EncryptedPayload :=
  {| alg := "AES-GCM"; iv := iv env;
     ciphertext := ciphertext env; tag := tag env |}.

Definition job_result_request (base jobId : string) : Request :=
  {| req_method := GET; req_url := base +:+ "/job-result/" +:+ jobId;
     req_body := None |}.

Definition job_status_request (base jobId : string) : Request :=
  {| req_method := GET; req_url := base +:+ "/job-status/" +:+ jobId;
     req_body := None |}.

(** The body has a [status] property whose value is truthy. *)
Definition has_truthy_status (body : json) : bool :=
  match body with
  | JObj props =>
      match last_binding "status" props with
      | Some v => truthy v
      | None => false
      end
  | _ => false
  end.

(** [store_blind m]: replacing the mock store before [m] runs changes
    neither what [m] returns or throws nor any part of the state it leaves
    other than the mock store. *)
Definition store_blind {A} (m : M A) : Prop :=
  ∀ st mj,
    (m (set_mockJobs mj st)).1 = (m st).1 ∧
    ∃ mj', (m (set_mockJobs mj st)).2 = set_mockJobs mj' (m st).2.

(** A call of a public method of either client, run to completion. *)
Inductive Call : Type :=
| Call_defineSchema (schema : PrivateSchema)
| Call_getSchema (id : string)
| Call_createState (params : CreateStateParams) (wallet : option WalletAdapter)
| Call_updateState (params : UpdateStateParams) (wallet : option WalletAdapter)
| Call_generateProof (id : string) (env : EncryptedPayload) (circuit : string)
| Call_submitProof (id : string) (p : ProofObject) (wallet : option WalletAdapter)
| Call_getStateCommitment (id : string)
| Call_registerJobType (def : JobDefinition)
| Call_submitJob (params : SubmitJobParams) (wallet : option WalletAdapter)
| Call_getJobStatus (jobId : string)
| Call_fetchResult (jobId : string) (seed : bytes)
| Call_setMockResult (jobId : string) (env : EncryptedPayload).

(** The state a call leaves, whether it returns or throws. *)
Definition after (c : Call) (st : State) : State :=
  match c with
  | Call_defineSchema schema => (defineSchema schema st).2
  | Call_getSchema id => (getSchema id st).2
  | Call_createState params wallet => (createState params wallet st).2
  | Call_updateState params wallet => (updateState params wallet st).2
  | Call_generateProof id env circuit => (generateProof id env circuit st).2
  | Call_submitProof id p wallet => (submitProof id p wallet st).2
  | Call_getStateCommitment id => (getStateCommitment id st).2
  | Call_registerJobType def => (registerJobType def st).2
  | Call_submitJob params wallet => (submitJob params wallet st).2
  | Call_getJobStatus jobId => (getJobStatus jobId st).2
  | Call_fetchResult jobId seed => (fetchResult jobId seed st).2
  | Call_setMockResult jobId env => (_setMockResult jobId env st).2
  end.

Definition after_all (calls : list Call) (st : State) : State :=
  foldl (λ s c, after c s) st calls.

(** A freshly constructed compute client, in any surroundings. *)
Definition fresh (config : ZkPrimeConfig) (ps : PrivateStateClient)
    (t : list Event) (c : gmap string Connection) : State :=
  {| trace := t; cache := c; privateState := ps;
     confidentialCompute := ConfidentialComputeClient_new config |}.

Definition store (st : State) : gmap string JobRecord :=
  mockJobs (confidentialCompute st).

(** A record as [submitJob] files it, and as [_setMockResult] leaves it. *)
Definition pending (r : JobRecord) : Prop :=
  jr_status r = PENDING ∧ jr_resultRef r = None.

Definition completed (r : JobRecord) : Prop :=
  jr_status r = COMPLETED ∧ is_Some (jr_resultRef r).


(** What one call can do to the mock store. *)
Definition store_step (c : Call) (st : State) : Prop :=
  store (after c st) = store st ∨
  (∃ params wallet id r,
     c = Call_submitJob params wallet ∧ pending r ∧
     store (after c st) = <[id := r]> (store st)) ∨
  (∃ id env old r,
     c = Call_setMockResult id env ∧ store st !! id = Some old ∧ completed r ∧
     store (after c st) = <[id := r]> (store st)).

End Scenarios.


(* ===================================================================== *)
(** * Requests, transactions and invariants of the clients *)
(* ===================================================================== *)

Section Requests.

Context {node : NodeLib} {world : World}.

(** The request [generateProof] posts to the proving service. *)
Definition generate_proof_request (base id circuit : string)
    (env : EncryptedPayload) : Request :=
  {| req_method := POST; req_url := base +:+ "/generate-proof";
     req_body := Some (JSON_stringify
       (JObj [("stateId", JStr id); ("circuit", JStr circuit);
              ("ciphertext", JStr (base64_encode (ciphertext env)));
              ("iv", JStr (base64_encode (iv env)));
              ("tag", JStr (base64_encode (tag env)))])) |}.

(** The request [submitJob] posts to the coordinator. *)
Definition submit_job_request (base jobId jobType owner : string)
    (env : EncryptedPayload) : Request :=
  {| req_method := POST; req_url := base +:+ "/submit-job";
     req_body := Some (JSON_stringify
       (JObj [("jobId", JStr jobId); ("jobType", JStr jobType);
              ("owner", JStr owner);
              ("iv", JStr (base64_encode (iv env)));
              ("tag", JStr (base64_encode (tag env)));
              ("ciphertext", JStr (base64_encode (ciphertext env)))])) |}.

(** [json.publicInputs || {}] *)
Definition inputs_or_empty (v : option json) : json :=
  match v with
  | Some w => if truthy w then w else JObj []
  | None => JObj []
  end.

(** The proof [generateProof] makes up without a proving service. *)
Definition mock_proof (id : string) : ProofObject :=
  {| proof := Some (JStr ("mock-proof-for-" +:+ id));
     publicInputs := JObj [("mock", JBool true)] |}.

(** The transaction [buildAndSendTransaction] hands to the wallet. *)
Definition unsigned_tx (instructions : list TransactionInstruction)
    (payer blockhash : string) : Transaction :=
  {| tx_instructions := instructions; tx_feePayer := Some payer;
     tx_recentBlockhash := Some blockhash; tx_signers := [] |}.

(** The instruction data of [submitProof]. *)
Definition submit_proof_data (id : string) (p : ProofObject) : bytes :=
  Buffer_from_utf8 (JSON_stringify
    (JObj ([("op", JStr "submit_proof"); ("stateId", JStr id)]
           ++ match proof p with
              | Some v => [("proof", v)]
              | None => []
              end))).

(** The instruction data of [createState], [updateState] and [submitJob]. *)
Definition create_data (commitment : string) : bytes :=
  Buffer_from_utf8 (JSON_stringify
    (JObj [("op", JStr "create"); ("commitment", JStr commitment)])).

Definition update_data (prev next : string) : bytes :=
  Buffer_from_utf8 (JSON_stringify
    (JObj [("op", JStr "update"); ("prev", JStr prev); ("next", JStr next)])).

Definition submit_job_data (jobId commitment jobType : string) : bytes :=
  Buffer_from_utf8 (JSON_stringify
    (JObj [("op", JStr "submit_job"); ("jobId", JStr jobId);
           ("commitment", JStr commitment); ("type", JStr jobType)])).

(** The instruction every client method builds: for [program], with the
    wallet as its only account, a signer that is not writable. *)
Definition wallet_instruction (program : string) (pk : string) (data : bytes)
    : TransactionInstruction :=
  {| ix_programId := program;
     ix_keys := [{| pubkey := Some pk; isSigner := true; isWritable := false |}];
     ix_data := data |}.

(** The three lines each of these methods repeats: get the connection,
    build the instruction, send it. *)
Definition send_instruction (endpoint program : string) (data : bytes)
    (wa : WalletAdapter) : M string :=
  conn ← getConnection endpoint;
  ix ← lift (createInstruction program data (signer_key wa));
  buildAndSendTransaction conn (Some wa) [ix] [].

(** A transaction with the one instruction [ix] went out, signed by the
    wallet, as the last thing recorded in [st']: the record of [st] grew
    by [before], the fetch of a block hash and the send. *)
Definition sent_signed (wa : WalletAdapter) (ix : string → TransactionInstruction)
    (before : list Event) (st st' : State) (sig : string) : Prop :=
  ∃ pk sign blockhash signed conn,
    publicKey wa = Some pk ∧ signTransaction wa = Some sign ∧
    getLatestBlockhash (trace st ++ before) conn = Ok blockhash ∧
    sign (unsigned_tx [ix pk] pk blockhash) = Ok signed ∧
    sendRawTransaction (trace st ++ before ++ [EvGetLatestBlockhash conn])
      conn signed = Ok sig ∧
    trace st' = trace st ++ before ++ [EvGetLatestBlockhash conn;
                                       EvSendRawTransaction conn signed].

(** The same world, but for the answers to [fetch]. *)
Definition with_fetch (answers : list Event → Request → FetchOutcome) : World :=
  {| randomBytes := randomBytes; Date_now := Date_now; fetch := answers;
     getLatestBlockhash := getLatestBlockhash;
     sendRawTransaction := sendRawTransaction |}.

End Requests.

(** The connection [getConnection] constructs for an endpoint. *)
Definition connection_to (endpoint : string) : Connection :=
  {| conn_endpoint := endpoint; conn_commitment := "confirmed" |}.

(** Every cached connection is the one constructed for its key. *)
Definition cache_ok (c : gmap string Connection) : Prop :=
  ∀ e conn, c !! e = Some conn → conn = connection_to e.

(** A call that stays inside the process: a draw of random bytes or a look
    at the clock. *)
Definition local_event (ev : Event) : bool :=
  match ev with
  | EvRandomBytes _ | EvDateNow => true
  | _ => false
  end.

(** Nothing names a program or a service. *)
Definition unconfigured (config : ZkPrimeConfig) : Prop :=
  configured (programId config) = None ∧
  configured (computeProgramId config) = None ∧
  configured (provingServiceUrl config) = None.

(** A record of the mock store filed under [k]: it carries [k] as its id,
    and the id is the one derived from its commitment and owner. *)
Definition record_ok {node : NodeLib} (k : string) (r : JobRecord) : Prop :=
  jr_id r = k ∧
  k = slice0 32 (hashCommitment (inr (jr_commitment r +:+ jr_owner r))).

(* ===================================================================== *)
(** * A model of the libraries and of the world

    Concrete definitions for every field of [NodeLib] and [World]: they
    meet the laws above together, and with them the SDK runs. *)
(* ===================================================================== *)

Module Model.

(** ** SHA-256 (FIPS 180-4), on 32-bit words held in [N] *)

Definition byte_of_N (n : N) : byte := default x00 (Byte.of_N (n mod 256)).

Definition w32 (n : N) : N := (n mod 4294967296)%N.
Definition rotr (k x : N) : N :=
  w32 (N.lor (N.shiftr x k) (N.shiftl x (32 - k))).
Definition Ch (x y z : N) : N :=
  N.lxor (N.land x y) (N.land (N.lxor x 4294967295) z).
Definition Maj (x y z : N) : N :=
  N.lxor (N.lxor (N.land x y) (N.land x z)) (N.land y z).
Definition Sigma0 (x : N) : N := N.lxor (N.lxor (rotr 2 x) (rotr 13 x)) (rotr 22 x).
Definition Sigma1 (x : N) : N := N.lxor (N.lxor (rotr 6 x) (rotr 11 x)) (rotr 25 x).
Definition sigma0 (x : N) : N := N.lxor (N.lxor (rotr 7 x) (rotr 18 x)) (N.shiftr x 3).
Definition sigma1 (x : N) : N := N.lxor (N.lxor (rotr 17 x) (rotr 19 x)) (N.shiftr x 10).

(** The constants are not tabulated but derived, as the standard defines
    them, from the first 64 primes: the first 32 bits of the fractional
    part of their cube roots (round constants) and of the square roots of
    the first eight (initial hash value). *)
Definition is_prime (p : nat) : bool :=
  forallb (λ d, negb (p mod d =? 0)%nat) (seq 2 (p - 2)).

Definition primes : list N :=
  Eval vm_compute in map N.of_nat (filter is_prime (seq 2 310)).

(** The largest [r] below [2 ^ bits] with [r ^ 3 <= n]. *)
Fixpoint cube_root (bits : nat) (n r : N) : N :=
  match bits with
  | 0 => r
  | S bits' =>
      let r' := (r + 2 ^ N.of_nat bits')%N in
      cube_root bits' n (if (r' * r' * r' <=? n)%N then r' else r)
  end.

Definition K256 : list N :=
  Eval vm_compute in
    map (λ p, w32 (cube_root 36 (p * 2 ^ 96) 0)) primes.

Record hash_state : Type := {
  ha : N; hb : N; hc : N; hd : N; he : N; hf : N; hg : N; hh : N
}.

Definition H0 : hash_state :=
  Eval vm_compute in
    let h (i : nat) := w32 (N.sqrt (nth i primes 0%N * 2 ^ 64)) in
    {| ha := h 0; hb := h 1; hc := h 2; hd := h 3;
       he := h 4; hf := h 5; hg := h 6; hh := h 7 |}.

Definition round (s : hash_state) (k w : N) : hash_state :=
  let t1 := (hh s + Sigma1 (he s) + Ch (he s) (hf s) (hg s) + k + w)%N in
  let t2 := (Sigma0 (ha s) + Maj (ha s) (hb s) (hc s))%N in
  {| ha := w32 (t1 + t2); hb := ha s; hc := hb s; hd := hc s;
     he := w32 (hd s + t1); hf := he s; hg := hf s; hh := hg s |}.

(** [w] is the window [W t .. W (t+15)] of the message schedule. *)
Fixpoint rounds (ks : list N) (w : list N) (s : hash_state) : hash_state :=
  match ks, w with
  | k :: ks', w0 :: w' =>
      let next := w32 (sigma1 (nth 13 w' 0) + nth 8 w' 0 + sigma0 (nth 0 w' 0) + w0)%N in
      rounds ks' (w' ++ [next]) (round s k w0)
  | _, _ => s
  end.

Fixpoint words (b : bytes) : list N :=
  match b with
  | b0 :: b1 :: b2 :: b3 :: rest =>
      (Byte.to_N b0 * 16777216 + Byte.to_N b1 * 65536
       + Byte.to_N b2 * 256 + Byte.to_N b3)%N :: words rest
  | _ => []
  end.

Definition compress (block : bytes) (s : hash_state) : hash_state :=
  let r := rounds K256 (words block) s in
  {| ha := w32 (ha s + ha r); hb := w32 (hb s + hb r);
     hc := w32 (hc s + hc r); hd := w32 (hd s + hd r);
     he := w32 (he s + he r); hf := w32 (hf s + hf r);
     hg := w32 (hg s + hg r); hh := w32 (hh s + hh r) |}.

Fixpoint blocks (fuel : nat) (msg : bytes) (s : hash_state) : hash_state :=
  match fuel, msg with
  | S fuel', _ :: _ => blocks fuel' (skipn 64 msg) (compress (firstn 64 msg) s)
  | _, _ => s
  end.

Definition be_bytes (width : nat) (n : N) : bytes :=
  map (λ i, byte_of_N (N.shiftr n (8 * N.of_nat (width - 1 - i)))) (seq 0 width).

Definition pad (msg : bytes) : bytes :=
  let len := length msg in
  let zeros := (64 - (len + 9) mod 64) mod 64 in
  msg ++ [x80] ++ repeat x00 zeros ++ be_bytes 8 (8 * N.of_nat len).

Definition word_bytes (w : N) : bytes :=
  [byte_of_N (N.shiftr w 24); byte_of_N (N.shiftr w 16);
   byte_of_N (N.shiftr w 8); byte_of_N w].

Definition sha256_digest (msg : bytes) : bytes :=
  let p := pad msg in
  let s := blocks (length p) p H0 in
  word_bytes (ha s) ++ word_bytes (hb s) ++ word_bytes (hc s) ++ word_bytes (hd s)
  ++ word_bytes (he s) ++ word_bytes (hf s) ++ word_bytes (hg s) ++ word_bytes (hh s).

(** ** Base64 (RFC 4648), padded *)

Definition nat_of_byte (b : byte) : nat := N.to_nat (Byte.to_N b).
Definition byte_of_nat (n : nat) : byte := default x00 (Byte.of_N (N.of_nat n)).

Definition b64_char (n : nat) : ascii :=
  if (n <? 26)%nat then ascii_of_nat (65 + n)
  else if (n <? 52)%nat then ascii_of_nat (97 + (n - 26))
  else if (n <? 62)%nat then ascii_of_nat (48 + (n - 52))
  else if (n =? 62)%nat then "+"%char
  else "/"%char.

Definition b64_index (c : ascii) : nat :=
  let n := nat_of_ascii c in
  if ((65 <=? n) && (n <=? 90))%nat then n - 65
  else if ((97 <=? n) && (n <=? 122))%nat then n - 97 + 26
  else if ((48 <=? n) && (n <=? 57))%nat then n - 48 + 52
  else if (n =? 43)%nat then 62
  else if (n =? 47)%nat then 63
  else 0.

Definition is_pad (c : ascii) : bool := (nat_of_ascii c =? 61)%nat.

Fixpoint encode64 (b : bytes) : string :=
  match b with
  | [] => ""
  | [x] =>
      let a := nat_of_byte x in
      String (b64_char (a / 4)) (String (b64_char (a mod 4 * 16)) "==")
  | [x; y] =>
      let a := nat_of_byte x in
      let b := nat_of_byte y in
      String (b64_char (a / 4)) (String (b64_char (a mod 4 * 16 + b / 16))
        (String (b64_char (b mod 16 * 4)) "="))
  | x :: y :: z :: rest =>
      let a := nat_of_byte x in
      let b := nat_of_byte y in
      let c := nat_of_byte z in
      String (b64_char (a / 4)) (String (b64_char (a mod 4 * 16 + b / 16))
        (String (b64_char (b mod 16 * 4 + c / 64)) (String (b64_char (c mod 64))
          (encode64 rest))))
  end.

Fixpoint decode64 (s : string) : bytes :=
  match s with
  | String c1 (String c2 (String c3 (String c4 rest))) =>
      let s1 := b64_index c1 in
      let s2 := b64_index c2 in
      let s3 := b64_index c3 in
      let s4 := b64_index c4 in
      let x := byte_of_nat (s1 * 4 + s2 / 16) in
      let y := byte_of_nat (s2 mod 16 * 16 + s3 / 4) in
      let z := byte_of_nat (s3 mod 4 * 64 + s4) in
      if is_pad c3 then [x]
      else if is_pad c4 then [x; y]
      else x :: y :: z :: decode64 rest
  | _ => []
  end.

(** ** JSON text

    [JSON.stringify] without indentation, and [JSON.parse] on the texts it
    writes.  Inside a string only the quote and the backslash are
    escaped. *)

Definition quote : ascii := ascii_of_nat 34.
Definition backslash : ascii := ascii_of_nat 92.

Fixpoint print_chars (s : string) (k : list ascii) : list ascii :=
  match s with
  | EmptyString => k
  | String c r =>
      if Ascii.eqb c quote || Ascii.eqb c backslash
      then backslash :: c :: print_chars r k
      else c :: print_chars r k
  end.

Fixpoint print_uint (u : Decimal.uint) (k : list ascii) : list ascii :=
  match u with
  | Decimal.Nil => k
  | Decimal.D0 u => "0"%char :: print_uint u k
  | Decimal.D1 u => "1"%char :: print_uint u k
  | Decimal.D2 u => "2"%char :: print_uint u k
  | Decimal.D3 u => "3"%char :: print_uint u k
  | Decimal.D4 u => "4"%char :: print_uint u k
  | Decimal.D5 u => "5"%char :: print_uint u k
  | Decimal.D6 u => "6"%char :: print_uint u k
  | Decimal.D7 u => "7"%char :: print_uint u k
  | Decimal.D8 u => "8"%char :: print_uint u k
  | Decimal.D9 u => "9"%char :: print_uint u k
  end.

Definition print_int (n : Z) (k : list ascii) : list ascii :=
  match Z.to_int n with
  | Decimal.Pos u => print_uint u k
  | Decimal.Neg u => "-"%char :: print_uint u k
  end.

Definition print_string (s : string) (k : list ascii) : list ascii :=
  quote :: print_chars s (quote :: k).

(** [print v k]: the text of [v], followed by [k]. *)
Fixpoint print (v : json) (k : list ascii) : list ascii :=
  match v with
  | JNull => "n"%char :: "u"%char :: "l"%char :: "l"%char :: k
  | JBool true => "t"%char :: "r"%char :: "u"%char :: "e"%char :: k
  | JBool false => "f"%char :: "a"%char :: "l"%char :: "s"%char :: "e"%char :: k
  | JNum n => print_int n k
  | JStr s => print_string s k
  | JArr [] => "["%char :: "]"%char :: k
  | JArr (x :: rest) =>
      "["%char :: print x
        ((fix tail (l : list json) : list ascii :=
            match l with
            | [] => "]"%char :: k
            | y :: r => ","%char :: print y (tail r)
            end) rest)
  | JObj [] => "{"%char :: "}"%char :: k
  | JObj ((key, x) :: rest) =>
      "{"%char :: print_string key (":"%char :: print x
        ((fix tail (l : list (string * json)) : list ascii :=
            match l with
            | [] => "}"%char :: k
            | (key', y) :: r =>
                ","%char :: print_string key' (":"%char :: print y (tail r))
            end) rest))
  end.

Fixpoint parse_chars (s : list ascii) : option (string * list ascii) :=
  match s with
  | [] => None
  | c :: r =>
      if Ascii.eqb c quote then Some (EmptyString, r)
      else if Ascii.eqb c backslash then
        match r with
        | d :: r' =>
            match parse_chars r' with
            | Some (t, k) => Some (String d t, k)
            | None => None
            end
        | [] => None
        end
      else
        match parse_chars r with
        | Some (t, k) => Some (String c t, k)
        | None => None
        end
  end.

Definition digit (c : ascii) : option (Decimal.uint → Decimal.uint) :=
  match c with
  | "0" => Some Decimal.D0 | "1" => Some Decimal.D1 | "2" => Some Decimal.D2
  | "3" => Some Decimal.D3 | "4" => Some Decimal.D4 | "5" => Some Decimal.D5
  | "6" => Some Decimal.D6 | "7" => Some Decimal.D7 | "8" => Some Decimal.D8
  | "9" => Some Decimal.D9 | _ => None
  end%char.

Fixpoint read_uint (s : list ascii) : Decimal.uint * list ascii :=
  match s with
  | [] => (Decimal.Nil, [])
  | c :: r =>
      match digit c with
      | Some d => let '(u, k) := read_uint r in (d u, k)
      | None => (Decimal.Nil, s)
      end
  end.

Definition parse_int (s : list ascii) : option (json * list ascii) :=
  match s with
  | c :: r =>
      if Ascii.eqb c "-" then
        match read_uint r with
        | (Decimal.Nil, _) => None
        | (u, k) => Some (JNum (Z.of_int (Decimal.Neg u)), k)
        end
      else
        match read_uint s with
        | (Decimal.Nil, _) => None
        | (u, k) => Some (JNum (Z.of_int (Decimal.Pos u)), k)
        end
  | [] => None
  end.

(** [expect w s]: what follows the word [w] at the start of [s]. *)
Fixpoint expect (w s : list ascii) : option (list ascii) :=
  match w, s with
  | [], _ => Some s
  | a :: w', c :: s' => if Ascii.eqb a c then expect w' s' else None
  | _ :: _, [] => None
  end.

Definition keyword (w : list ascii) (v : json) (s : list ascii)
    : option (json * list ascii) :=
  match expect w s with
  | Some k => Some (v, k)
  | None => None
  end.

Fixpoint parse_value (fuel : nat) (s : list ascii) : option (json * list ascii) :=
  match fuel, s with
  | S fuel, c :: r =>
      if Ascii.eqb c "n" then keyword ["u"; "l"; "l"]%char JNull r
      else if Ascii.eqb c "t" then keyword ["r"; "u"; "e"]%char (JBool true) r
      else if Ascii.eqb c "f" then keyword ["a"; "l"; "s"; "e"]%char (JBool false) r
      else if Ascii.eqb c quote then
        match parse_chars r with
        | Some (t, k) => Some (JStr t, k)
        | None => None
        end
      else if Ascii.eqb c "[" then
        match r with
        | c' :: k =>
            if Ascii.eqb c' "]" then Some (JArr [], k)
            else
              match parse_value fuel r with
              | Some (x, r1) =>
                  match parse_elements fuel r1 with
                  | Some (xs, k) => Some (JArr (x :: xs), k)
                  | None => None
                  end
              | None => None
              end
        | [] => None
        end
      else if Ascii.eqb c "{" then
        match r with
        | c' :: k =>
            if Ascii.eqb c' "}" then Some (JObj [], k)
            else
              match parse_member fuel r with
              | Some (m, r1) =>
                  match parse_members fuel r1 with
                  | Some (ms, k) => Some (JObj (m :: ms), k)
                  | None => None
                  end
              | None => None
              end
        | [] => None
        end
      else parse_int s
  | _, _ => None
  end
with parse_elements (fuel : nat) (s : list ascii) : option (list json * list ascii) :=
  match fuel, s with
  | S fuel, c :: r =>
      if Ascii.eqb c "]" then Some ([], r)
      else if Ascii.eqb c "," then
        match parse_value fuel r with
        | Some (x, r1) =>
            match parse_elements fuel r1 with
            | Some (xs, k) => Some (x :: xs, k)
            | None => None
            end
        | None => None
        end
      else None
  | _, _ => None
  end
with parse_member (fuel : nat) (s : list ascii) : option ((string * json) * list ascii) :=
  match fuel, s with
  | S fuel, c :: r =>
      if Ascii.eqb c quote then
        match parse_chars r with
        | Some (key, c' :: r1) =>
            if Ascii.eqb c' ":" then
              match parse_value fuel r1 with
              | Some (x, k) => Some ((key, x), k)
              | None => None
              end
            else None
        | _ => None
        end
      else None
  | _, _ => None
  end
with parse_members (fuel : nat) (s : list ascii)
    : option (list (string * json) * list ascii) :=
  match fuel, s with
  | S fuel, c :: r =>
      if Ascii.eqb c "}" then Some ([], r)
      else if Ascii.eqb c "," then
        match parse_member fuel r with
        | Some (m, r1) =>
            match parse_members fuel r1 with
            | Some (ms, k) => Some (m :: ms, k)
            | None => None
            end
        | None => None
        end
      else None
  | _, _ => None
  end.

Definition stringify (v : json) : string :=
  string_of_list_ascii (print v []).

Definition parse_text (s : string) : option json :=
  let text := list_ascii_of_string s in
  match parse_value (S (length text)) text with
  | Some (v, []) => Some v
  | _ => None
  end.


(** The tails that [print] writes after the first element or member. *)
Definition print_elements (l : list json) (k : list ascii) : list ascii :=
  (fix tail (l : list json) : list ascii :=
     match l with
     | [] => "]"%char :: k
     | y :: r => ","%char :: print y (tail r)
     end) l.

Definition print_members (l : list (string * json)) (k : list ascii) : list ascii :=
  (fix tail (l : list (string * json)) : list ascii :=
     match l with
     | [] => "}"%char :: k
     | (key', y) :: r =>
         ","%char :: print_string key' (":"%char :: print y (tail r))
     end) l.

(** The fuel a value needs: its nesting depth, counting list positions. *)
Fixpoint need (v : json) : nat :=
  match v with
  | JArr l =>
      S ((fix go (l : list json) : nat :=
            match l with
            | [] => 1
            | x :: r => S (Nat.max (need x) (go r))
            end) l)
  | JObj ps =>
      S ((fix go (l : list (string * json)) : nat :=
            match l with
            | [] => 1
            | (_, x) :: r => S (Nat.max (S (need x)) (go r))
            end) ps)
  | _ => 1
  end.

Definition need_elements (l : list json) : nat :=
  (fix go (l : list json) : nat :=
     match l with
     | [] => 1
     | x :: r => S (Nat.max (need x) (go r))
     end) l.

Definition need_members (l : list (string * json)) : nat :=
  (fix go (l : list (string * json)) : nat :=
     match l with
     | [] => 1
     | (_, x) :: r => S (Nat.max (S (need x)) (go r))
     end) l.

(** No digit follows: a number printed before [k] can be read back. *)
Definition closes (k : list ascii) : Prop :=
  match k with
  | [] => True
  | c :: _ => digit c = None
  end.

(** ** A stand-in for AES-256-GCM

    A stream cipher with an integrity tag.  The key stream repeats the
    SHA-256 digest of key and nonce; the tag is a masked copy of nonce and
    ciphertext, so that every alteration of either shows.  It has the
    interface and the laws asked of the real cipher, not its strength. *)

Definition xor_byte (a b : byte) : byte :=
  let '(a0, (a1, (a2, (a3, (a4, (a5, (a6, a7))))))) := Byte.to_bits a in
  let '(b0, (b1, (b2, (b3, (b4, (b5, (b6, b7))))))) := Byte.to_bits b in
  Byte.of_bits (xorb a0 b0, (xorb a1 b1, (xorb a2 b2, (xorb a3 b3,
    (xorb a4 b4, (xorb a5 b5, (xorb a6 b6, xorb a7 b7))))))).

Fixpoint xor_stream (mask : bytes) (i : nat) (data : bytes) : bytes :=
  match data with
  | [] => []
  | b :: rest =>
      xor_byte (nth (i mod 32) mask x00) b :: xor_stream mask (S i) rest
  end.

Definition usable (key nonce : bytes) : bool :=
  (length key =? 32)%nat && (0 <? length nonce)%nat.

Definition tag_of (key nonce ct : bytes) : bytes :=
  xor_stream (sha256_digest key) 0 (nonce ++ ct).

Definition seal (key nonce pt : bytes) : option (bytes * bytes) :=
  if usable key nonce then
    let ct := xor_stream (sha256_digest (key ++ nonce)) 0 pt in
    Some (ct, tag_of key nonce ct)
  else None.

#[local] Instance byte_eq_decision : EqDecision byte := byte_eq_dec.

Definition open (key nonce ct t : bytes) : option bytes :=
  if usable key nonce && bool_decide (t = tag_of key nonce ct)
  then Some (xor_stream (sha256_digest (key ++ nonce)) 0 ct)
  else None.

(** ** The two classes *)

(** [Buffer.from(v)] for an array of numbers; anything else throws. *)
Definition Buffer_from_array (v : option json) : result bytes :=
  match v with
  | Some (JArr items) =>
      Ok (map (λ x, match x with
                    | JNum n => byte_of_N (Z.to_N (n mod 256))
                    | _ => x00
                    end) items)
  | _ => Err JSError
  end.

(** The endpoints [new Connection] takes: [http:] or [https:], then [//]
    and a host, which is a run of characters other than [:] and [[], or a
    bracketed address. *)
Definition host_start (s : string) : bool :=
  match s with
  | String "[" (String c rest) =>
      negb (Ascii.eqb c "]") && existsb (Ascii.eqb "]") (list_ascii_of_string rest)
  | String c _ => negb (Ascii.eqb c ":") && negb (Ascii.eqb c "[")
  | EmptyString => false
  end.

Definition endpoint_url (s : string) : bool :=
  (String.prefix "http://" s
   && host_start (String.substring 7 (String.length s - 7) s))
  || (String.prefix "https://" s
      && host_start (String.substring 8 (String.length s - 8) s)).

Definition node : NodeLib :=
  {| createHash_sha256 := sha256_digest;
     aes_256_gcm_encrypt := seal;
     aes_256_gcm_decrypt := open;
     base64_encode := encode64;
     base64_decode := decode64;
     Buffer_from_other := Buffer_from_array;
     JSON_stringify := stringify;
     JSON_parse := parse_text;
     PublicKey_valid := λ s, (32 <=? String.length s)%nat
                             && (String.length s <=? 44)%nat;
     Connection_valid := endpoint_url |}.

(** A world whose coordinator answers each request by [coordinator], whose
    random bytes come from hashing the number of calls made so far, whose
    clock ticks once per call, and whose chain accepts everything. *)
Definition world (coordinator : Request → FetchOutcome) : World :=
  {| randomBytes := λ t n,
       map (λ i, nth (i mod 32) (sha256_digest [byte_of_nat (length t)]) x00)
           (seq 0 n);
     Date_now := λ t, (1762041600000 + Z.of_nat (length t))%Z;
     fetch := λ _ req, coordinator req;
     getLatestBlockhash := λ _ _, Ok "EkSnNWid2cvwEVnVx9aBqawnmiCNiDgp3gUdkDPTKN1N";
     sendRawTransaction := λ _ _ _, Ok "5VERv8NMvzbJMEkV8xnrLkEaWRtSz9CosKDYjCJjBRnb" |}.

(** No coordinator reachable. *)
Definition offline : World := world (λ _, NetworkError).

End Model.

(** ** Concrete clients and inputs *)

Module Sample.

Definition endpoint : string := "http://localhost:8899".
Definition coordinator_url : string := "https://coordinator.example".

Definition config (coordinator : option string) : ZkPrimeConfig :=
  {| rpcEndpoint := endpoint; programId := None; computeProgramId := None;
     provingServiceUrl := coordinator; walletAdapter := None |}.

(** [new ZkPrimeClient({ rpcEndpoint, provingServiceUrl })] in a fresh
    process. *)
Definition client (coordinator : option string) : State :=
  {| trace := []; cache := ∅;
     privateState := {| psc_config := config coordinator; schemaRegistry := ∅ |};
     confidentialCompute := ConfidentialComputeClient_new (config coordinator) |}.

Definition score : JobDefinition :=
  {| jd_name := "score"; jd_version := Some "v1"; jd_description := None;
     jd_inputSchema := None; jd_outputSchema := None |}.

(** The offline client after [registerJobType({ name: 'score', .. })]. *)
Definition registered : State := (registerJobType score (client None)).2.

Definition job : SubmitJobParams :=
  {| sj_jobType := "score"; sj_owner := "owner1";
     sj_input := JObj [("user", JStr "alice")];
     sj_symmetricKeySeed := list_byte_of_string "job-seed" |}.

Definition balance_schema : PrivateSchema :=
  {| ps_id := "s1"; ps_name := "Balance";
     ps_fields := [{| sf_name := "balance"; sf_type := T_u64 |}] |}.

Definition balance : json := JObj [("balance", JNum 42)].

(** Thirty-two zero bytes: a seed that [normalizeKey] takes for a key. *)
Definition zero_key : bytes := repeat x00 32.

Definition balance_state : CreateStateParams :=
  {| schemaId := "s1"; owner := "ownerA"; data := balance;
     symmetricKeySeed := zero_key |}.

(** A coordinator that answers every request with status 200 and the given
    JSON body. *)
Definition answering (body : json) : World :=
  Model.world (λ _, Response true 200 (Some body)).

End Sample.

(** ** Further clients and inputs *)

Module Sample2.

Import Sample.

(** A record with a property the schema does not name. *)
Definition balance_record : list (string * json) :=
  [("balance", JNum 42); ("memo", JStr "rent")].

Definition balance_update : UpdateStateParams :=
  {| up_base := balance_state; stateId := Some "state-7";
     previousCommitment := "00" |}.

(** The offline client after [defineSchema(balance_schema)]. *)
Definition defined : State := (defineSchema balance_schema (client None)).2.

(** A wallet that signs by adding its key to the signers. *)
Definition wallet_key : string := "9xQeWvG816bUx9EPjHmaT23yvVM2ZWbrrpZb9PusVFin".

Definition wallet : WalletAdapter :=
  {| publicKey := Some wallet_key;
     signTransaction := Some (λ tx, Ok
       {| tx_instructions := tx_instructions tx;
          tx_feePayer := tx_feePayer tx;
          tx_recentBlockhash := tx_recentBlockhash tx;
          tx_signers := tx_signers tx ++ [wallet_key] |}) |}.

Definition program : string := "Prog111111111111111111111111111111111111111".

Definition chain_config : ZkPrimeConfig :=
  {| rpcEndpoint := endpoint; programId := Some program;
     computeProgramId := Some program; provingServiceUrl := None;
     walletAdapter := None |}.

(** A client with a program id, after [defineSchema(balance_schema)]. *)
Definition chain_client : State :=
  (defineSchema balance_schema
     {| trace := []; cache := ∅;
        privateState := {| psc_config := chain_config; schemaRegistry := ∅ |};
        confidentialCompute := ConfidentialComputeClient_new chain_config |}).2.

(** A client with a program id whose endpoint names a host and a port but
    no scheme. *)
Definition bare_endpoint : string := "localhost:8899".

Definition bare_config : ZkPrimeConfig :=
  {| rpcEndpoint := bare_endpoint; programId := Some program;
     computeProgramId := Some program; provingServiceUrl := None;
     walletAdapter := None |}.

Definition bare_client : State :=
  {| trace := []; cache := ∅;
     privateState := {| psc_config := bare_config; schemaRegistry := ∅ |};
     confidentialCompute := ConfidentialComputeClient_new bare_config |}.

(** The client with a coordinator after [registerJobType(score)]. *)
Definition registered_with_coordinator : State :=
  (registerJobType score (client (Some coordinator_url))).2.

(** The envelope [submitJob] makes for [job] on that client. *)
Definition job_envelope : EncryptedPayload :=
  Eval vm_compute in
    match (encryptPayload (node := Model.node) (world := Model.offline)
             (sj_input job) (normalizeKey (node := Model.node)
                               (sj_symmetricKeySeed job))
             registered_with_coordinator).1 with
    | Ok env => env
    | Err _ => {| alg := ""; iv := []; ciphertext := []; tag := [] |}
    end.

(** A coordinator that serves that envelope as the result of every job. *)
Definition echoing : World :=
  answering (job_result_body (node := Model.node) job_envelope).

End Sample2.

(* ===================================================================== *)
(** * Envelopes *)
(* ===================================================================== *)

(** Unfolds the monad so that a run can be followed step by step. *)
Ltac run_M :=
  unfold mbind, M_bind, mret, M_ret, lift, throw, try_catch, get_state,
    modify, call in *; simpl in *.

(** Closes a goal about a state that a run leaves, by cases on the run. *)
Ltac untouched :=
  run_M; repeat (case_match; simpl in *; simplify_eq; try done).

Lemma flip_bit_byte_neq (j : nat) (b : byte) : flip_bit_byte j b ≠ b.
Proof.
  unfold flip_bit_byte.
  assert (Hj : (j mod 8 < 8)%nat) by (apply Nat.mod_upper_bound; lia).
  destruct (j mod 8) as [|[|[|[|[|[|[|[|k]]]]]]]]; try lia;
    destruct b; vm_compute; discriminate.
Qed.

Lemma flip_bit_length (bs : bytes) : ∀ i, length (flip_bit i bs) = length bs.
Proof.
  induction bs as [|b rest IH]; intros i; simpl; [done|].
  destruct (i <? 8)%nat; simpl; [done|]. by rewrite IH.
Qed.

Lemma flip_bit_neq (bs : bytes) : ∀ i, i < 8 * length bs → flip_bit i bs ≠ bs.
Proof.
  induction bs as [|b rest IH]; intros i Hi; simpl in *; [lia|].
  destruct (i <? 8)%nat eqn:E.
  - intros [= Hb]. by apply flip_bit_byte_neq in Hb.
  - apply Nat.ltb_ge in E. intros [= Hr]. apply (IH (i - 8)); [lia|done].
Qed.

Lemma utf8_round_trip (s : string) : toString_utf8 (Buffer_from_utf8 s) = s.
Proof. apply string_of_list_byte_of_string. Qed.

Section Encryption.

Context {node : NodeLib} {world : World}.

Lemma ensureKey_ok (key : bytes) : length key = 32 → ensureKey key = Ok tt.
Proof. intros H. unfold ensureKey. by rewrite H. Qed.

Lemma ensureKey_err (key : bytes) : length key ≠ 32 → ensureKey key = Err CryptoError.
Proof.
  intros H. unfold ensureKey.
  destruct (length key =? 32)%nat eqn:E; [|done].
  by apply Nat.eqb_eq in E.
Qed.

(** What a run of [encryptPayload] is, case by case. *)
Lemma encryptPayload_run (V : json) (K : bytes) (st : State) :
  encryptPayload V K st =
    if negb (length K =? 32)%nat then (Err CryptoError, st)
    else
      let n := randomBytes (trace st) 12 in
      let st' := set_trace (trace st ++ [EvRandomBytes 12]) st in
      match aes_256_gcm_encrypt K n (Buffer_from_utf8 (JSON_stringify V)) with
      | Some (ct, t) =>
          (Ok {| alg := "AES-GCM"; iv := n; ciphertext := ct; tag := t |}, st')
      | None => (Err CryptoError, st')
      end.
Proof.
  unfold encryptPayload, ensureKey, mbind, M_bind, lift, try_catch, call.
  destruct (negb (length K =? 32)%nat); [done|]. simpl.
  by destruct (aes_256_gcm_encrypt _ _ _) as [[ct t]|].
Qed.

Lemma encryptPayload_inv (V : json) (K : bytes) (st st' : State) (env : EncryptedPayload) :
  encryptPayload V K st = (Ok env, st') →
  length K = 32 ∧
  alg env = "AES-GCM" ∧
  iv env = randomBytes (trace st) 12 ∧
  aes_256_gcm_encrypt K (iv env) (Buffer_from_utf8 (JSON_stringify V))
    = Some (ciphertext env, tag env) ∧
  st' = set_trace (trace st ++ [EvRandomBytes 12]) st.
Proof.
  rewrite encryptPayload_run.
  destruct (length K =? 32)%nat eqn:E; simpl; [|done].
  apply Nat.eqb_eq in E.
  destruct (aes_256_gcm_encrypt _ _ _) as [[ct t]|] eqn:G; [|done].
  intros [= <- <-]. simpl. by rewrite G.
Qed.

Lemma encryptPayload_succeeds (V : json) (K : bytes) (st : State) :
  gcm_encrypts → randomBytes_length → length K = 32 →
  ∃ env, encryptPayload V K st
         = (Ok env, set_trace (trace st ++ [EvRandomBytes 12]) st).
Proof.
  intros Henc Hrand HK. rewrite encryptPayload_run, HK. simpl.
  destruct (Henc K (randomBytes (trace st) 12)
              (Buffer_from_utf8 (JSON_stringify V)) HK (Hrand _ _))
    as [[ct t] ->].
  eauto.
Qed.

(** Decrypting what was sealed from [V], under the sealing key. *)
Lemma decryptPayload_sealed (V : json) (K : bytes) (env : EncryptedPayload) :
  gcm_decrypts → JSON_round_trip →
  JSON_serializable V = true →
  length K = 32 → alg env = "AES-GCM" →
  aes_256_gcm_encrypt K (iv env) (Buffer_from_utf8 (JSON_stringify V))
    = Some (ciphertext env, tag env) →
  decryptPayload env K = Ok V.
Proof.
  intros Hdec Hjson HV HK Halg Hseal.
  unfold decryptPayload. rewrite (ensureKey_ok _ HK), Halg. simpl.
  rewrite (Hdec _ _ _ _ _ Hseal). simpl.
  by rewrite utf8_round_trip, (Hjson _ HV).
Qed.

Lemma decryptPayload_bad_key (env : EncryptedPayload) (K : bytes) :
  length K ≠ 32 → decryptPayload env K = Err CryptoError.
Proof. intros HK. unfold decryptPayload. by rewrite (ensureKey_err _ HK). Qed.

Lemma decryptPayload_bad_alg (env : EncryptedPayload) (K : bytes) :
  alg env ≠ "AES-GCM" → decryptPayload env K = Err CryptoError.
Proof.
  intros Halg. unfold decryptPayload.
  destruct (ensureKey K) as [[]|e] eqn:E; simpl.
  - destruct (String.eqb_spec (alg env) "AES-GCM"); [done|]. done.
  - unfold ensureKey in E. by destruct (negb _); inversion E.
Qed.

Lemma decryptPayload_unauthentic (env : EncryptedPayload) (K : bytes) :
  aes_256_gcm_decrypt K (iv env) (ciphertext env) (tag env) = None →
  decryptPayload env K = Err CryptoError.
Proof.
  intros H. unfold decryptPayload.
  destruct (ensureKey K) as [[]|e] eqn:E; simpl.
  - destruct (negb _); [done|]. by rewrite H.
  - unfold ensureKey in E. by destruct (negb _); inversion E.
Qed.

(** C5. [normalizeKey] returns a 32-byte input unchanged and hashes any
    other input once, with [deriveKeyFromSeed]. *)
Theorem normalizeKey_spec (b : bytes) :
  normalizeKey b = (if decide (length b = 32) then b else deriveKeyFromSeed b)
  ∧ deriveKeyFromSeed b = createHash_sha256 b.
Proof.
  split; [|done]. unfold normalizeKey.
  destruct (decide (length b = 32)) as [->|Hne]; [done|].
  destruct (length b =? 32)%nat eqn:E; [|done].
  by apply Nat.eqb_eq in E.
Qed.

(** C1. Round trip: for a 32-byte key [K] and a JSON-serializable value
    [V], [encryptPayload V K] returns an envelope, and [decryptPayload] of
    that envelope under [K] returns [V]. *)
Theorem encrypt_decrypt_round_trip (K : bytes) (V : json) (st : State) :
  gcm_encrypts → gcm_decrypts → JSON_round_trip → randomBytes_length →
  length K = 32 →
  JSON_serializable V = true →
  ∃ env st',
    encryptPayload V K st = (Ok env, st') ∧
    decryptPayload env K = Ok V.
Proof.
  intros Henc Hdec Hjson Hrand HK HV.
  destruct (encryptPayload_succeeds V K st Henc Hrand HK) as [env Hrun].
  exists env, (set_trace (trace st ++ [EvRandomBytes 12]) st).
  split; [done|].
  destruct (encryptPayload_inv _ _ _ _ _ Hrun) as (_ & Halg & _ & Hseal & _).
  by apply (decryptPayload_sealed V).
Qed.

(** C4. Failures of the envelope operations: a key that is not 32 bytes
    long makes [encryptPayload] and [decryptPayload] throw [CryptoError];
    so does an algorithm tag other than ['AES-GCM'], and so does inverting
    any single bit of the nonce, the ciphertext or the tag of an envelope
    made by [encryptPayload]; the untouched envelope decrypts, under the
    key it was made with, without an error. *)
Theorem envelope_errors :
  gcm_encrypts → gcm_decrypts → gcm_authenticates →
  JSON_round_trip → randomBytes_length →
  (∀ V K st, length K ≠ 32 → encryptPayload V K st = (Err CryptoError, st)) ∧
  (∀ env K, length K ≠ 32 → decryptPayload env K = Err CryptoError) ∧
  (∀ env K, alg env ≠ "AES-GCM" → decryptPayload env K = Err CryptoError) ∧
  (∀ V K st, length K = 32 → JSON_serializable V = true →
     ∃ env st',
       encryptPayload V K st = (Ok env, st') ∧
       decryptPayload env K = Ok V ∧
       ∀ f i, i < 8 * length (field_bytes f env) →
         decryptPayload (tamper f i env) K = Err CryptoError).
Proof.
  intros Henc Hdec Hauth Hjson Hrand. repeat split.
  - intros V K st HK. rewrite encryptPayload_run.
    destruct (length K =? 32)%nat eqn:E; [|done].
    by apply Nat.eqb_eq in E.
  - intros env K. apply decryptPayload_bad_key.
  - intros env K. apply decryptPayload_bad_alg.
  - intros V K st HK HV.
    destruct (encryptPayload_succeeds V K st Henc Hrand HK) as [env Hrun].
    exists env, (set_trace (trace st ++ [EvRandomBytes 12]) st).
    destruct (encryptPayload_inv _ _ _ _ _ Hrun) as (_ & Halg & _ & Hseal & _).
    split; [done|]. split; [by apply (decryptPayload_sealed V)|].
    intros f i Hi.
    destruct (Hauth _ _ _ _ _ Hseal i) as (Hn & Hc & Ht).
    apply decryptPayload_unauthentic.
    destruct f; simpl in *; auto.
Qed.

End Encryption.

(* ===================================================================== *)
(** * Jobs and states *)
(* ===================================================================== *)

Section Jobs.

Context {node : NodeLib} {world : World}.

Lemma normalizeKey_length (seed : bytes) :
  sha256_length → length (normalizeKey seed) = 32.
Proof.
  intros Hsha. unfold normalizeKey, deriveKeyFromSeed, sha256.
  destruct (length seed =? 32)%nat eqn:E; [by apply Nat.eqb_eq in E | apply Hsha].
Qed.

Lemma deriveKeyFromSeed_length (seed : bytes) :
  sha256_length → length (deriveKeyFromSeed seed) = 32.
Proof. intros Hsha. apply Hsha. Qed.

Lemma getJobStatus_mock (jobId : string) (st : State) :
  configured (provingServiceUrl (ccc_config (confidentialCompute st))) = None →
  getJobStatus jobId st = mock_status jobId st.
Proof. intros H. unfold getJobStatus. run_M. by rewrite H. Qed.

Lemma mock_status_found (jobId : string) (st : State) (job : JobRecord) :
  mockJobs (confidentialCompute st) !! jobId = Some job →
  mock_status jobId st = (Ok (JStr (JobStatus_string (jr_status job))), st).
Proof. intros H. unfold mock_status. run_M. by rewrite H. Qed.

Lemma mock_status_missing (jobId : string) (st : State) :
  mockJobs (confidentialCompute st) !! jobId = None →
  mock_status jobId st = (Err NotFoundError, st).
Proof. intros H. unfold mock_status. run_M. by rewrite H. Qed.

(** The effects of the building blocks stay off both clients. *)
Lemma encryptPayload_clients (V : json) (K : bytes) (st : State) :
  confidentialCompute (encryptPayload V K st).2 = confidentialCompute st ∧
  privateState (encryptPayload V K st).2 = privateState st.
Proof.
  rewrite encryptPayload_run.
  destruct (negb _); [done|]. simpl.
  by destruct (aes_256_gcm_encrypt _ _ _) as [[??]|].
Qed.

Lemma submitJob_onchain_clients config wallet jobId c jt (st : State) :
  confidentialCompute (submitJob_onchain config wallet jobId c jt st).2
    = confidentialCompute st ∧
  privateState (submitJob_onchain config wallet jobId c jt st).2 = privateState st.
Proof.
  unfold submitJob_onchain, buildAndSendTransaction, getConnection. run_M.
  repeat (case_match; simpl in *; simplify_eq; try done).
Qed.

Lemma mock_ref_nonempty (env : EncryptedPayload) :
  JSON_round_trip → JSON_rejects_empty → base64_round_trip →
  base64_decodes_empty →
  configured (Some (mock_ref env)) = Some (mock_ref env).
Proof.
  intros Hjson Hempty Hb64 Hb0. unfold configured.
  destruct (String.eqb_spec (mock_ref env) ""); [|done].
  exfalso. unfold mock_ref in e.
  assert (Hbytes : Buffer_from_utf8 (JSON_stringify (mock_payload env)) = []).
  { rewrite <- (Hb64 (Buffer_from_utf8 _)), e. apply Hb0. }
  assert (Htext : JSON_stringify (mock_payload env) = "").
  { rewrite <- (utf8_round_trip (JSON_stringify _)), Hbytes. done. }
  specialize (Hjson (mock_payload env) eq_refl).
  rewrite Htext in Hjson. unfold JSON_rejects_empty in Hempty. congruence.
Qed.

#[local] Arguments or_empty : simpl never.

Lemma or_empty_str (s : string) :
  Buffer_from_base64 (or_empty (or_empty (Some (JStr s)))) = Ok (base64_decode s).
Proof.
  unfold or_empty. simpl.
  destruct (String.eqb_spec s "") as [->|]; simpl; [done|].
  by destruct (String.eqb_spec s "").
Qed.

(** Reading back, on the mock path, an envelope filed for [jobId]. *)
Lemma fetchResult_mock_run (jobId : string) (seed : bytes) (st : State)
    (job : JobRecord) (env : EncryptedPayload) :
  JSON_round_trip → JSON_rejects_empty → base64_round_trip →
  base64_decodes_empty →
  configured (provingServiceUrl (ccc_config (confidentialCompute st))) = None →
  mockJobs (confidentialCompute st) !! jobId = Some job →
  jr_resultRef job = Some (mock_ref env) →
  fetchResult jobId seed st =
    (decryptPayload (rebuilt env) (deriveKeyFromSeed seed), st).
Proof.
  intros Hjson Hempty Hb64 Hb0 Hcfg Hjob Href.
  unfold fetchResult. run_M. rewrite Hcfg, Hjob, Href.
  rewrite (mock_ref_nonempty env Hjson Hempty Hb64 Hb0).
  unfold mock_ref at 1. rewrite Hb64, utf8_round_trip.
  rewrite (Hjson (mock_payload env) eq_refl). simpl.
  rewrite or_empty_str. simpl. rewrite !Hb64. done.
Qed.


Lemma submitJob_mock_run (params : SubmitJobParams) (wallet : option WalletAdapter)
    (st st1 st2 : State) (def : JobDefinition) (enc : EncryptedPayload)
    (sig : option string) :
  let config := ccc_config (confidentialCompute st) in
  let commitment := hashCommitment (inl (ciphertext enc)) in
  let jobId := slice0 32 (hashCommitment (inr (commitment +:+ sj_owner params))) in
  registry (confidentialCompute st) !! sj_jobType params = Some def →
  configured (provingServiceUrl config) = None →
  encryptPayload (sj_input params) (normalizeKey (sj_symmetricKeySeed params)) st
    = (Ok enc, st1) →
  submitJob_onchain config wallet jobId commitment (sj_jobType params) st1
    = (Ok sig, st2) →
  submitJob params wallet st =
    (Ok (jobId, sig),
     set_mockJobs
       (<[jobId := {| jr_id := jobId; jr_owner := sj_owner params;
                      jr_jobType := sj_jobType params;
                      jr_commitment := commitment; jr_status := PENDING;
                      jr_createdAt := Date_now (trace st2);
                      jr_resultRef := None |}]>
          (mockJobs (confidentialCompute st2)))
       (set_trace (trace st2 ++ [EvDateNow]) st2)).
Proof.
  intros config commitment jobId Hreg Hcfg Henc Hchain.
  unfold submitJob. run_M. rewrite Hreg, Henc.
  fold config commitment jobId. rewrite Hchain, Hcfg. done.
Qed.

Lemma setMockResult_run (jobId : string) (env : EncryptedPayload) (st : State)
    (record : JobRecord) :
  mockJobs (confidentialCompute st) !! jobId = Some record →
  _setMockResult jobId env st =
    (Ok tt,
     set_mockJobs
       (<[jobId := {| jr_id := jr_id record; jr_owner := jr_owner record;
                      jr_jobType := jr_jobType record;
                      jr_commitment := jr_commitment record;
                      jr_status := COMPLETED;
                      jr_createdAt := jr_createdAt record;
                      jr_resultRef := Some (mock_ref env) |}]>
          (mockJobs (confidentialCompute st))) st).
Proof. intros H. unfold _setMockResult. run_M. by rewrite H. Qed.

(** C6. For a job type that was not registered, [submitJob] throws
    [NotFoundError] at once: the state it leaves is the state it found,
    with both registries, the mock store and the record of outside calls
    (no random nonce drawn, no request, no transaction) untouched. *)
Theorem submitJob_unregistered (params : SubmitJobParams)
    (wallet : option WalletAdapter) (st : State) :
  registry (confidentialCompute st) !! sj_jobType params = None →
  submitJob params wallet st = (Err NotFoundError, st).
Proof. intros H. unfold submitJob. run_M. by rewrite H. Qed.

(** C2. The mock lifecycle: with no coordinator, [submitJob] for a
    registered type returns a job id whose status is ["PENDING"]; once
    [_setMockResult] has filed an envelope that encrypts [result] under
    the key of [seed], the status is ["COMPLETED"] and [fetchResult] with
    [seed] returns [result]. *)
Theorem mock_job_lifecycle (params : SubmitJobParams)
    (wallet : option WalletAdapter) (st : State) (def : JobDefinition)
    (result : json) (seed : bytes) :
  let config := ccc_config (confidentialCompute st) in
  sha256_length → gcm_encrypts → gcm_decrypts → randomBytes_length →
  JSON_round_trip → JSON_rejects_empty →
  base64_round_trip → base64_decodes_empty →
  configured (provingServiceUrl config) = None →
  registry (confidentialCompute st) !! sj_jobType params = Some def →
  (∀ id c s, ∃ sig s',
     submitJob_onchain config wallet id c (sj_jobType params) s = (Ok sig, s')) →
  JSON_serializable result = true →
  ∃ jobId txSig st1 env st2 st3,
    submitJob params wallet st = (Ok (jobId, txSig), st1) ∧
    getJobStatus jobId st1 = (Ok (JStr "PENDING"), st1) ∧
    encryptPayload result (deriveKeyFromSeed seed) st1 = (Ok env, st2) ∧
    _setMockResult jobId env st2 = (Ok tt, st3) ∧
    getJobStatus jobId st3 = (Ok (JStr "COMPLETED"), st3) ∧
    fetchResult jobId seed st3 = (Ok result, st3).
Proof.
  intros config Hsha Henc Hdec Hrand Hjson Hempty Hb64 Hb0 Hcfg Hreg Hchain Hres.
  destruct (encryptPayload_succeeds (sj_input params)
              (normalizeKey (sj_symmetricKeySeed params)) st Henc Hrand
              (normalizeKey_length _ Hsha)) as [enc Hrun].
  set (sa := set_trace (trace st ++ [EvRandomBytes 12]) st) in *.
  set (commitment := hashCommitment (inl (ciphertext enc))).
  set (jobId := slice0 32 (hashCommitment (inr (commitment +:+ sj_owner params)))).
  destruct (Hchain jobId commitment sa) as (sig & sb & Hsb).
  pose proof (submitJob_mock_run params wallet st sa sb def enc sig
                Hreg Hcfg Hrun Hsb) as Hsubmit.
  fold commitment jobId in Hsubmit.
  destruct (submitJob_onchain_clients config wallet jobId commitment
              (sj_jobType params) sa) as [Hcc _].
  rewrite Hsb in Hcc. simpl in Hcc.
  match type of Hsubmit with _ = (_, ?s) => set (st1 := s) in * end.
  assert (Hcfg1 : configured (provingServiceUrl
                    (ccc_config (confidentialCompute st1))) = None).
  { subst st1. simpl. by rewrite Hcc. }
  destruct (encryptPayload_succeeds result (deriveKeyFromSeed seed) st1
              Henc Hrand (deriveKeyFromSeed_length _ Hsha)) as [env Hrun2].
  set (st2 := set_trace (trace st1 ++ [EvRandomBytes 12]) st1) in *.
  destruct (encryptPayload_inv _ _ _ _ _ Hrun2) as (_ & Halg & _ & Hseal & _).
  assert (Hjob2 : mockJobs (confidentialCompute st2) !! jobId
            = Some {| jr_id := jobId; jr_owner := sj_owner params;
                      jr_jobType := sj_jobType params;
                      jr_commitment := commitment; jr_status := PENDING;
                      jr_createdAt := Date_now (trace sb);
                      jr_resultRef := None |}).
  { subst st2 st1. simpl. apply lookup_insert_eq. }
  pose proof (setMockResult_run jobId env st2 _ Hjob2) as Hset.
  match type of Hset with _ = (_, ?s) => set (st3 := s) in * end.
  assert (Hjob3 : mockJobs (confidentialCompute st3) !! jobId
            = Some {| jr_id := jobId; jr_owner := sj_owner params;
                      jr_jobType := sj_jobType params;
                      jr_commitment := commitment; jr_status := COMPLETED;
                      jr_createdAt := Date_now (trace sb);
                      jr_resultRef := Some (mock_ref env) |}).
  { subst st3. simpl. apply lookup_insert_eq. }
  exists jobId, sig, st1, env, st2, st3.
  split; [exact Hsubmit|].
  split.
  { rewrite (getJobStatus_mock _ _ Hcfg1).
    by rewrite (mock_status_found jobId st1 _ Hjob2). }
  split; [exact Hrun2|].
  split; [exact Hset|].
  split.
  { rewrite getJobStatus_mock by exact Hcfg1.
    by rewrite (mock_status_found _ _ _ Hjob3). }
  rewrite (fetchResult_mock_run jobId seed st3 _ env
             Hjson Hempty Hb64 Hb0 Hcfg1 Hjob3 eq_refl).
  f_equal. apply (decryptPayload_sealed result); try done.
Qed.


Lemma fetchResult_coordinator_run (jobId : string) (seed : bytes) (st : State)
    (base : string) (status : Z) (env : EncryptedPayload) :
  base64_round_trip →
  configured (provingServiceUrl (ccc_config (confidentialCompute st))) = Some base →
  fetch (trace st) (job_result_request base jobId)
    = Response true status (Some (job_result_body env)) →
  fetchResult jobId seed st =
    (decryptPayload (rebuilt env) (normalizeKey seed),
     set_trace (trace st ++ [EvFetch (job_result_request base jobId)]) st).
Proof.
  intros Hb64 Hcfg Hfetch. unfold fetchResult, do_fetch. run_M.
  rewrite Hcfg. fold (job_result_request base jobId). rewrite Hfetch. simpl.
  rewrite !Hb64. done.
Qed.

Lemma createState_key (params : CreateStateParams) (wallet : option WalletAdapter)
    (st st' : State) (h : StateHandle) (enc : EncryptedPayload) :
  createState params wallet st = (Ok (h, enc), st') →
  encryptPayload (data params) (normalizeKey (symmetricKeySeed params)) st
    = (Ok enc, set_trace (trace st ++ [EvRandomBytes 12]) st).
Proof.
  unfold createState, getSchema. run_M.
  destruct (schemaRegistry _ !! _); [|done].
  destruct (encryptPayload _ _ st) as [[enc0|e] st0] eqn:E; [|done].
  destruct (encryptPayload_inv _ _ _ _ _ E) as (_ & _ & _ & _ & ->).
  intros H. f_equal. f_equal.
  repeat (case_match; simpl in *; simplify_eq; try done).
Qed.

Lemma updateState_key (params : UpdateStateParams) (wallet : option WalletAdapter)
    (st st' : State) (h : StateHandle) (enc : EncryptedPayload) :
  updateState params wallet st = (Ok (h, enc), st') →
  encryptPayload (data (up_base params))
      (normalizeKey (symmetricKeySeed (up_base params))) st
    = (Ok enc, set_trace (trace st ++ [EvRandomBytes 12]) st).
Proof.
  unfold updateState, getSchema. run_M.
  destruct (schemaRegistry _ !! _); [|done].
  destruct (encryptPayload _ _ st) as [[enc0|e] st0] eqn:E; [|done].
  destruct (encryptPayload_inv _ _ _ _ _ E) as (_ & _ & _ & _ & ->).
  intros H. f_equal. f_equal.
  repeat (case_match; simpl in *; simplify_eq; try done).
Qed.

(** C3. Which key each path uses.  On the mock path [fetchResult] opens
    the filed envelope with [deriveKeyFromSeed seed]; on the coordinator
    path it opens the served envelope with [normalizeKey seed], the key
    under which [createState] and [updateState] encrypt and
    [decryptWithSeed] decrypts.  For a 32-byte seed that is not its own
    hash the two keys differ. *)
Theorem fetchResult_key_divergence :
  JSON_round_trip → JSON_rejects_empty →
  base64_round_trip → base64_decodes_empty →
  (∀ jobId seed st job env,
     configured (provingServiceUrl (ccc_config (confidentialCompute st))) = None →
     mockJobs (confidentialCompute st) !! jobId = Some job →
     jr_resultRef job = Some (mock_ref env) →
     fetchResult jobId seed st
       = (decryptPayload (rebuilt env) (deriveKeyFromSeed seed), st)) ∧
  (∀ jobId seed st base status env,
     configured (provingServiceUrl (ccc_config (confidentialCompute st))) = Some base →
     fetch (trace st) (job_result_request base jobId)
       = Response true status (Some (job_result_body env)) →
     fetchResult jobId seed st
       = (decryptPayload (rebuilt env) (normalizeKey seed),
          set_trace (trace st ++ [EvFetch (job_result_request base jobId)]) st)) ∧
  (∀ params wallet st st' h enc,
     createState params wallet st = (Ok (h, enc), st') →
     (encryptPayload (data params) (normalizeKey (symmetricKeySeed params)) st).1
       = Ok enc) ∧
  (∀ params wallet st st' h enc,
     updateState params wallet st = (Ok (h, enc), st') →
     (encryptPayload (data (up_base params))
        (normalizeKey (symmetricKeySeed (up_base params))) st).1 = Ok enc) ∧
  (∀ enc seed, decryptWithSeed enc seed = decryptPayload enc (normalizeKey seed)) ∧
  (∀ s, length s = 32 → deriveKeyFromSeed s ≠ s →
     normalizeKey s = s ∧ normalizeKey s ≠ deriveKeyFromSeed s).
Proof.
  intros Hjson Hempty Hb64 Hb0. repeat split.
  - intros. by eapply fetchResult_mock_run.
  - intros. by eapply fetchResult_coordinator_run.
  - intros * H. by rewrite (createState_key _ _ _ _ _ _ H).
  - intros * H. by rewrite (updateState_key _ _ _ _ _ _ H).
  - unfold normalizeKey. by rewrite H.
  - unfold normalizeKey. rewrite H. simpl. congruence.
Qed.


(** ** Programs that do not look at the mock store *)

Lemma blind_ret {A} (a : A) : store_blind (mret a).
Proof. intros st mj. split; [done|]. by exists mj. Qed.

Lemma blind_throw {A} (e : error) : store_blind (@throw A e).
Proof. intros st mj. split; [done|]. by exists mj. Qed.

Lemma blind_lift {A} (r : result A) : store_blind (lift r).
Proof. intros st mj. split; [done|]. by exists mj. Qed.

Lemma blind_call {A} (answer : list Event → A) (ev : Event) :
  store_blind (call answer ev).
Proof. intros st mj. split; [done|]. by exists mj. Qed.

Lemma blind_bind {A B} (m : M A) (k : A → M B) :
  store_blind m → (∀ a, store_blind (k a)) → store_blind (m ≫= k).
Proof.
  intros Hm Hk st mj. destruct (Hm st mj) as [Hr [mj' Hs]].
  unfold mbind, M_bind.
  destruct (m (set_mockJobs mj st)) as [r1 s1], (m st) as [r2 s2].
  simpl in *. subst r1 s1.
  destruct r2 as [a|e]; [apply Hk|]. split; [done|]. by exists mj'.
Qed.

Lemma blind_try_catch {A} (m : M A) (h : error → M A) :
  store_blind m → (∀ e, store_blind (h e)) → store_blind (try_catch m h).
Proof.
  intros Hm Hh st mj. destruct (Hm st mj) as [Hr [mj' Hs]].
  unfold try_catch.
  destruct (m (set_mockJobs mj st)) as [r1 s1], (m st) as [r2 s2].
  simpl in *. subst r1 s1.
  destruct r2 as [a|e]; [|apply Hh]. split; [done|]. by exists mj'.
Qed.

(** Reading the state is harmless when the rest only uses what
    [set_mockJobs] keeps. *)
Lemma blind_get_state {A} (k : State → M A) :
  (∀ st mj, k (set_mockJobs mj st) = k st) →
  (∀ st, store_blind (k st)) →
  store_blind (get_state ≫= k).
Proof.
  intros Hsame Hk st mj. unfold mbind, M_bind, get_state.
  rewrite Hsame. apply Hk.
Qed.

Lemma blind_getConnection (endpoint : string) : store_blind (getConnection endpoint).
Proof.
  intros st mj. unfold getConnection. simpl.
  destruct (cache st !! endpoint); [|destruct (Connection_new endpoint)];
    (split; [done|]); by exists mj.
Qed.

Lemma blind_store_insert (f : gmap string JobRecord → gmap string JobRecord) :
  store_blind (modify (λ st, set_mockJobs (f (mockJobs (confidentialCompute st))) st)).
Proof. intros st mj. split; [done|]. by exists (f mj). Qed.

Create HintDb blind.

#[local] Hint Resolve blind_ret blind_throw blind_lift blind_call
  blind_getConnection blind_store_insert : blind.

Ltac blind :=
  repeat first
    [ progress eauto with blind
    | apply blind_bind; [|intros ?]
    | apply blind_try_catch; [|intros ?]
    | match goal with |- store_blind (match ?x with _ => _ end) => destruct x end
    | match goal with |- store_blind (if ?x then _ else _) => destruct x end
    | match goal with |- store_blind (let '(_, _) := ?x in _) => destruct x end ].

Lemma blind_encryptPayload (V : json) (K : bytes) : store_blind (encryptPayload V K).
Proof. unfold encryptPayload. blind. Qed.

Lemma blind_buildAndSendTransaction conn wallet ixs signers :
  store_blind (buildAndSendTransaction conn wallet ixs signers).
Proof. unfold buildAndSendTransaction. blind. Qed.

#[local] Hint Resolve blind_encryptPayload blind_buildAndSendTransaction : blind.

Lemma blind_submitJob_onchain config wallet jobId c jt :
  store_blind (submitJob_onchain config wallet jobId c jt).
Proof. unfold submitJob_onchain. blind. Qed.

Lemma blind_do_fetch (req : Request) : store_blind (do_fetch req).
Proof. unfold do_fetch. blind. Qed.

#[local] Hint Resolve blind_submitJob_onchain blind_do_fetch : blind.

Lemma blind_submitJob (params : SubmitJobParams) (wallet : option WalletAdapter) :
  store_blind (submitJob params wallet).
Proof.
  unfold submitJob. apply blind_get_state; [done|]. intros st. blind.
Qed.


Lemma submitJob_inv (params : SubmitJobParams) (wallet : option WalletAdapter)
    (st st' : State) (jobId : string) (sig : option string) :
  submitJob params wallet st = (Ok (jobId, sig), st') →
  ∃ enc,
    encryptPayload (sj_input params) (normalizeKey (sj_symmetricKeySeed params)) st
      = (Ok enc, set_trace (trace st ++ [EvRandomBytes 12]) st) ∧
    jobId = slice0 32 (hashCommitment
              (inr (hashCommitment (inl (ciphertext enc)) +:+ sj_owner params))) ∧
    (configured (provingServiceUrl (ccc_config (confidentialCompute st))) = None →
     ∃ now,
       mockJobs (confidentialCompute st') !! jobId =
         Some {| jr_id := jobId; jr_owner := sj_owner params;
                 jr_jobType := sj_jobType params;
                 jr_commitment := hashCommitment (inl (ciphertext enc));
                 jr_status := PENDING; jr_createdAt := now;
                 jr_resultRef := None |}).
Proof.
  unfold submitJob. run_M.
  destruct (registry _ !! _); [|done].
  destruct (encryptPayload _ _ st) as [[enc|e] st0] eqn:E; [|done].
  destruct (encryptPayload_inv _ _ _ _ _ E) as (_ & _ & _ & _ & ->).
  destruct (submitJob_onchain _ _ _ _ _ _) as [[sig0|e] st1]; [|done].
  intros H. exists enc. split; [done|].
  destruct (configured (provingServiceUrl _)) as [base|] eqn:Hcfg.
  - split; [|done].
    by repeat (case_match; simpl in *; simplify_eq).
  - simpl in H. injection H as <- <- <-. split; [done|].
    intros _. eexists. simpl. apply lookup_insert_eq.
Qed.

Lemma createState_inv (params : CreateStateParams) (wallet : option WalletAdapter)
    (st st' : State) (h : StateHandle) (enc : EncryptedPayload) :
  createState params wallet st = (Ok (h, enc), st') →
  h = {| sh_id := slice0 32 (hashCommitment
                    (inr (hashCommitment (inl (ciphertext enc)) +:+ owner params)));
         sh_commitment := hashCommitment (inl (ciphertext enc));
         sh_owner := owner params |}.
Proof.
  unfold createState, getSchema. run_M.
  destruct (schemaRegistry _ !! _); [|done].
  destruct (encryptPayload _ _ st) as [[enc0|e] st0]; [|done].
  intros H.
  by repeat (case_match; simpl in *; simplify_eq).
Qed.

Lemma toHex_length (b : bytes) : String.length (toHex b) = 2 * length b.
Proof. induction b as [|x rest IH]; simpl; [done|]. rewrite IH. lia. Qed.

Lemma slice0_length (n : nat) (s : string) :
  (n ≤ String.length s)%nat → String.length (slice0 n s) = n.
Proof.
  unfold slice0. revert s. induction n as [|n IH]; intros s Hn.
  - by destruct s.
  - destruct s as [|c s]; simpl in *; [lia|]. rewrite IH; [done|lia].
Qed.

Lemma hashCommitment_length (data : bytes + string) :
  sha256_length → String.length (hashCommitment data) = 64.
Proof.
  intros Hsha. unfold hashCommitment, sha256. by rewrite toHex_length, Hsha.
Qed.

(** C9. [getStateCommitment] never returns a commitment: whenever it
    returns, it returns [null].  Without a program id it returns [null]
    and does nothing.  With a program id it first asks for the connection
    of the configured endpoint: it returns [null] when that connection is
    in the cache (no effect) or when the [Connection] constructor takes
    the endpoint (the new connection is cached and nothing else changes);
    when the constructor refuses the endpoint, its [TypeError] is thrown
    on and the state stays as it was. *)
Theorem getStateCommitment_null (id : string) (st : State) :
  let config := psc_config (privateState st) in
  let e := rpcEndpoint config in
  (∀ v st', getStateCommitment id st = (Ok v, st') → v = None) ∧
  (configured (programId config) = None →
     getStateCommitment id st = (Ok None, st)) ∧
  (∀ program, configured (programId config) = Some program →
     getStateCommitment id st =
       match cache st !! e with
       | Some _ => (Ok None, st)
       | None =>
           if Connection_valid e
           then (Ok None, set_cache (<[e := connection_to e]> (cache st)) st)
           else (Err JSError, st)
       end).
Proof.
  intros config e. subst config e.
  unfold getStateCommitment, getConnection, Connection_new, connection_to. run_M.
  destruct (configured _) as [program|]; simpl.
  - split; [|split; [done|]].
    + intros v st'. destruct (cache st !! _); simpl; [by intros [= <- _]|].
      destruct (Connection_valid _); simpl; [by intros [= <- _]|done].
    + intros _ _. destruct (cache st !! _); simpl; [done|].
      by destruct (Connection_valid _).
  - split; [by intros v st' [= <- _]|]. split; done.
Qed.

End Jobs.

(* ===================================================================== *)
(** * The mock store and the coordinator *)
(* ===================================================================== *)

Section LifecycleProofs.

Context {node : NodeLib} {world : World}.

Lemma store_step_holds (c : Call) (st : State) : store_step c st.
Proof.
  destruct c as [schema|id|params wallet|params wallet|id env circuit|id p wallet|id
                |def|params wallet|jobId|jobId seed|jobId env];
    unfold store_step, store, after.
  - left. unfold defineSchema. untouched.
  - left. unfold getSchema. untouched.
  - left. unfold createState, getSchema, encryptPayload, buildAndSendTransaction,
      getConnection. untouched.
  - left. unfold updateState, getSchema, encryptPayload, buildAndSendTransaction,
      getConnection. untouched.
  - left. unfold generateProof, do_fetch, resp_json. untouched.
  - left. unfold submitProof, buildAndSendTransaction, getConnection. untouched.
  - left. unfold getStateCommitment, getConnection. untouched.
  - left. unfold registerJobType. untouched.
  - unfold submitJob, submitJob_onchain, encryptPayload, buildAndSendTransaction,
      getConnection, do_fetch. run_M.
    repeat (case_match; simpl in *; simplify_eq; try (left; done));
      right; left; eexists _, _, _, _; (split; [done|]);
      (split; [|done]); done.
  - left. unfold getJobStatus, mock_status, do_fetch, resp_json. untouched.
  - left. unfold fetchResult, do_fetch, resp_json. untouched.
  - unfold _setMockResult. run_M.
    destruct (mockJobs _ !! jobId) as [old|] eqn:E; simpl; [|by left].
    right; right. eexists jobId, env, old, _. split; [done|]. split; [done|].
    split; [|done]. split; [done|]. by eexists.
Qed.





(** C10, amended.  With a coordinator configured, a successful response
    whose JSON body is not [null] and has no truthy [status] makes
    [getJobStatus] return ["PENDING"] without a look at the mock store;
    a [null] body is treated like a coordinator failure, and the answer
    comes from the mock store. *)
Theorem getJobStatus_default_pending (jobId : string) (st : State)
    (base : string) (status : Z) (body : json) :
  let st' := set_trace (trace st ++ [EvFetch (job_status_request base jobId)]) st in
  configured (provingServiceUrl (ccc_config (confidentialCompute st))) = Some base →
  fetch (trace st) (job_status_request base jobId)
    = Response true status (Some body) →
  has_truthy_status body = false →
  (body ≠ JNull → getJobStatus jobId st = (Ok (JStr "PENDING"), st')) ∧
  (body = JNull → getJobStatus jobId st = mock_status jobId st').
Proof.
  intros st' Hcfg Hfetch Hstatus.
  unfold getJobStatus, do_fetch, resp_json. run_M.
  rewrite Hcfg. fold (job_status_request base jobId). rewrite Hfetch. simpl.
  destruct body as [|b|n|s|items|props]; simpl in *;
    (split; [intros Hnull|intros [=]]); try done.
  destruct (last_binding "status" props) as [v|]; [|done].
  by rewrite Hstatus.
Qed.

End LifecycleProofs.

(* ===================================================================== *)
(** * Digests and commitments *)
(* ===================================================================== *)

Lemma hex_digit_inj (n m : N) :
  (n < 16)%N → (m < 16)%N → hex_digit n = hex_digit m → n = m.
Proof.
  intros Hn Hm.
  rewrite <- (N2Nat.id n), <- (N2Nat.id m).
  assert (Ha : N.to_nat n < 16) by lia.
  assert (Hb : N.to_nat m < 16) by lia.
  revert Ha Hb. generalize (N.to_nat n) (N.to_nat m). clear.
  intros a b Ha Hb.
  do 16 (destruct a as [|a];
         [do 16 (destruct b as [|b];
                 [first [reflexivity | vm_compute; discriminate]|]); lia|]).
  lia.
Qed.

Lemma hex_digit_lower (n : N) :
  In (hex_digit n) (list_ascii_of_string "0123456789abcdef").
Proof.
  destruct n as [|p]; simpl; [tauto|].
  do 4 (destruct p as [p|p|]; simpl; try tauto).
Qed.

Lemma byte_hex_inj (x y : byte) :
  hex_digit (Byte.to_N x / 16) = hex_digit (Byte.to_N y / 16) →
  hex_digit (Byte.to_N x mod 16) = hex_digit (Byte.to_N y mod 16) →
  x = y.
Proof.
  intros Hq Hr.
  pose proof (Byte.to_N_bounded x) as Hx.
  pose proof (Byte.to_N_bounded y) as Hy.
  apply hex_digit_inj in Hq; [|lia..].
  apply hex_digit_inj in Hr; [|lia..].
  assert (E : Byte.to_N x = Byte.to_N y) by lia.
  pose proof (Byte.of_to_N x) as Ex. rewrite E, Byte.of_to_N in Ex.
  congruence.
Qed.

Lemma toHex_inj (a : bytes) : ∀ b, toHex a = toHex b → a = b.
Proof.
  induction a as [|x a IH]; intros [|y b]; simpl; try done.
  intros [= Hq Hr Hrest]. f_equal; [by apply byte_hex_inj | by apply IH].
Qed.

Lemma toHex_lower (b : bytes) :
  Forall (λ c, In c (list_ascii_of_string "0123456789abcdef"))
         (list_ascii_of_string (toHex b)).
Proof.
  induction b as [|x b IH]; [constructor|].
  cbn [toHex list_ascii_of_string].
  repeat (apply List.Forall_cons; [apply hex_digit_lower|]). exact IH.
Qed.

(** X1. [toHex] writes two lower-case hexadecimal digits per byte, and
    different byte arrays never get the same string. *)
Theorem toHex_faithful :
  (∀ a b, toHex a = toHex b → a = b) ∧
  (∀ b, String.length (toHex b) = 2 * length b) ∧
  (∀ b, Forall (λ c, In c (list_ascii_of_string "0123456789abcdef"))
               (list_ascii_of_string (toHex b))).
Proof.
  split; [exact toHex_inj|]. split; [exact toHex_length | exact toHex_lower].
Qed.

Section Commitments.

Context {node : NodeLib} {world : World}.

Lemma verifyCommitment_iff (p : bytes) (hex : string) :
  verifyCommitment p hex = true ↔ hex = hashCommitment (inl p).
Proof.
  unfold verifyCommitment, createCommitment, hashCommitment.
  rewrite String.eqb_eq. split; congruence.
Qed.

(** X2. The commitment of a payload is the hex form of its SHA-256 digest,
    the value [hashCommitment] gives; [verifyCommitment] accepts exactly
    that string, and it accepts the commitment of [p] for another payload
    [q] exactly when [q] has the digest of [p]. *)
Theorem commitment_binding (p : bytes) :
  let c := (createCommitment p).1 in
  c = hashCommitment (inl p) ∧
  (createCommitment p).2 = sha256 (inl p) ∧
  c = toHex (createCommitment p).2 ∧
  verifyCommitment p c = true ∧
  (∀ hex, verifyCommitment p hex = true ↔ hex = c) ∧
  (∀ q, verifyCommitment q c = true ↔ sha256 (inl q) = sha256 (inl p)).
Proof.
  simpl. split; [done|]. split; [done|]. split; [done|].
  split; [by apply verifyCommitment_iff|].
  split; [intros hex; apply verifyCommitment_iff|].
  intros q. rewrite verifyCommitment_iff. unfold hashCommitment.
  split; [intros H; symmetry; by apply toHex_inj | congruence].
Qed.

End Commitments.

(* ===================================================================== *)
(** * Keys, envelopes and schemas *)
(* ===================================================================== *)

Section Keys.

Context {node : NodeLib} {world : World}.

(** X3. [normalizeKey] always gives a 32-byte key and normalising twice
    changes nothing; hence a seed that is not 32 bytes long and its
    SHA-256 hash, used as seeds, stand for the same key, and
    [decryptWithSeed] takes either. *)
Theorem normalizeKey_idempotent (s : bytes) :
  sha256_length →
  length (normalizeKey s) = 32 ∧
  normalizeKey (normalizeKey s) = normalizeKey s ∧
  (length s ≠ 32 → normalizeKey (deriveKeyFromSeed s) = normalizeKey s) ∧
  (∀ enc, decryptWithSeed enc (normalizeKey s) = decryptWithSeed enc s).
Proof.
  intros Hsha.
  pose proof (normalizeKey_length s Hsha) as Hlen.
  assert (Hidem : normalizeKey (normalizeKey s) = normalizeKey s).
  { unfold normalizeKey at 1. by rewrite Hlen. }
  split; [done|]. split; [done|]. split.
  - intros Hs. unfold normalizeKey.
    rewrite (deriveKeyFromSeed_length s Hsha). simpl.
    destruct (length s =? 32)%nat eqn:E; [|done]. by apply Nat.eqb_eq in E.
  - intros enc. unfold decryptWithSeed. by rewrite Hidem.
Qed.

Lemma decryptPayload_ok_iff (env : EncryptedPayload) (K : bytes) (v : json) :
  decryptPayload env K = Ok v ↔
    length K = 32 ∧ alg env = "AES-GCM" ∧
    ∃ pt, aes_256_gcm_decrypt K (iv env) (ciphertext env) (tag env) = Some pt ∧
          JSON_parse (toString_utf8 pt) = Some v.
Proof.
  unfold decryptPayload, ensureKey.
  destruct (length K =? 32)%nat eqn:EK; simpl.
  - apply Nat.eqb_eq in EK.
    destruct (String.eqb_spec (alg env) "AES-GCM") as [Ea|Ea]; simpl.
    + destruct (aes_256_gcm_decrypt _ _ _ _) as [pt|]; simpl.
      * destruct (JSON_parse _) as [w|] eqn:Ew; simpl.
        -- split; [intros [= <-]; eauto|].
           intros (_ & _ & pt' & [= <-] & Hp). congruence.
        -- split; [done|]. intros (_ & _ & pt' & [= <-] & Hp). congruence.
      * split; [done|]. by intros (_ & _ & pt' & ? & _).
    + split; [done|]. by intros (_ & ? & _).
  - apply Nat.eqb_neq in EK. split; [done|]. by intros (? & _).
Qed.

Lemma decryptPayload_err (env : EncryptedPayload) (K : bytes) (e : error) :
  decryptPayload env K = Err e → e = CryptoError.
Proof.
  unfold decryptPayload, ensureKey.
  destruct (length K =? 32)%nat; simpl; [|congruence].
  destruct (String.eqb (alg env) "AES-GCM"); simpl; [|congruence].
  destruct (aes_256_gcm_decrypt _ _ _ _) as [pt|]; simpl; [|congruence].
  destruct (JSON_parse _); simpl; congruence.
Qed.

(** X4. Every failure of the envelope functions is a [CryptoError]: a bad
    key, which [encryptPayload] notices before it draws a nonce, a cipher
    that throws, and, in [decryptPayload], a plaintext that is not JSON.
    The one effect of [encryptPayload] is the draw of 12 random bytes,
    which become the nonce of the envelope it returns under the tag
    ['AES-GCM'].  [decryptPayload] returns a value exactly when the key has
    32 bytes, the algorithm tag is ['AES-GCM'], the cipher accepts the
    envelope and the plaintext parses. *)
Theorem envelope_error_class :
  (∀ V K st e st', encryptPayload V K st = (Err e, st') →
     e = CryptoError ∧
     (length K ≠ 32 ∧ st' = st ∨
      length K = 32 ∧ st' = set_trace (trace st ++ [EvRandomBytes 12]) st)) ∧
  (∀ V K st env st', encryptPayload V K st = (Ok env, st') →
     length K = 32 ∧ alg env = "AES-GCM" ∧
     iv env = randomBytes (trace st) 12 ∧
     st' = set_trace (trace st ++ [EvRandomBytes 12]) st) ∧
  (∀ env K e, decryptPayload env K = Err e → e = CryptoError) ∧
  (∀ env s e, decryptWithSeed env s = Err e → e = CryptoError) ∧
  (∀ env K v, decryptPayload env K = Ok v ↔
     length K = 32 ∧ alg env = "AES-GCM" ∧
     ∃ pt, aes_256_gcm_decrypt K (iv env) (ciphertext env) (tag env) = Some pt ∧
           JSON_parse (toString_utf8 pt) = Some v).
Proof.
  split; [|split; [|split; [|split]]].
  - intros V K st e st'. rewrite encryptPayload_run.
    destruct (length K =? 32)%nat eqn:EK; simpl.
    + apply Nat.eqb_eq in EK.
      destruct (aes_256_gcm_encrypt _ _ _) as [[ct t]|]; [done|].
      intros [= <- <-]. auto.
    + apply Nat.eqb_neq in EK. intros [= <- <-]. auto.
  - intros V K st env st' H.
    destruct (encryptPayload_inv _ _ _ _ _ H) as (? & ? & ? & _ & ?). done.
  - apply decryptPayload_err.
  - intros env s e. apply decryptPayload_err.
  - apply decryptPayload_ok_iff.
Qed.

End Keys.

Section Schemas.

Context {node : NodeLib} {world : World}.

Lemma validateFields_ok (fields : list SchemaField) :
  validateFields fields = Ok tt ↔ Forall (λ f, sf_name f ≠ "") fields.
Proof.
  induction fields as [|f rest IH]; simpl.
  - split; [constructor|done].
  - assert (Ht : String.eqb (FieldType_string (sf_type f)) "" = false)
      by by destruct (sf_type f).
    rewrite Ht, orb_false_r.
    destruct (String.eqb_spec (sf_name f) "") as [E|E].
    + split; [done|]. intros H. by inversion H.
    + rewrite IH. split; [by constructor|]. intros H. by inversion H.
Qed.

Lemma validateFields_cases (fields : list SchemaField) :
  validateFields fields = Ok tt ∨ validateFields fields = Err JSError.
Proof.
  induction fields as [|f rest IH]; simpl; [by left|].
  destruct (_ || _); [by right|done].
Qed.

Lemma validateSchema_ok_iff (schema : PrivateSchema) :
  validateSchema schema = Ok true ↔
    ps_name schema ≠ "" ∧ ps_fields schema ≠ [] ∧
    Forall (λ f, sf_name f ≠ "") (ps_fields schema).
Proof.
  unfold validateSchema.
  destruct (String.eqb_spec (ps_name schema) "") as [En|En].
  { split; [done|]. by intros (? & _). }
  destruct (length (ps_fields schema) =? 0)%nat eqn:El.
  { apply Nat.eqb_eq in El. split; [done|]. intros (_ & H & _).
    by destruct (ps_fields schema). }
  apply Nat.eqb_neq in El.
  destruct (validateFields (ps_fields schema)) as [[]|e] eqn:Ev; simpl.
  - apply validateFields_ok in Ev. split; [|done]. intros _.
    split; [done|]. split; [|done]. intros E. by rewrite E in El.
  - split; [done|]. intros (_ & _ & H). apply validateFields_ok in H.
    congruence.
Qed.

Lemma validateSchema_cases (schema : PrivateSchema) :
  validateSchema schema = Ok true ∨ validateSchema schema = Err JSError.
Proof.
  unfold validateSchema.
  destruct (String.eqb (ps_name schema) ""); [by right|].
  destruct (length (ps_fields schema) =? 0)%nat; [by right|].
  destruct (validateFields_cases (ps_fields schema)) as [-> | ->];
    [by left | by right].
Qed.

(** X5. [validateSchema] returns [true] exactly for a schema with a name,
    at least one field and a name on every field (the type of a field, one
    of four literals, is never empty); for any other schema it throws a
    plain [Error]; it never returns [false], and it does not look at the
    schema's [id]. *)
Theorem validateSchema_spec (schema : PrivateSchema) :
  (validateSchema schema = Ok true ↔
     ps_name schema ≠ "" ∧ ps_fields schema ≠ [] ∧
     Forall (λ f, sf_name f ≠ "") (ps_fields schema)) ∧
  (validateSchema schema = Ok true ∨ validateSchema schema = Err JSError) ∧
  (∀ id, validateSchema {| ps_id := id; ps_name := ps_name schema;
                           ps_fields := ps_fields schema |}
         = validateSchema schema).
Proof.
  split; [apply validateSchema_ok_iff|]. split; [apply validateSchema_cases|done].
Qed.

Lemma defineSchema_run (schema : PrivateSchema) (st : State) :
  defineSchema schema st =
    if String.eqb (ps_id schema) "" || String.eqb (ps_name schema) ""
       || (length (ps_fields schema) =? 0)%nat
    then (Err SchemaError, st)
    else (Ok schema,
          set_schemaRegistry
            (<[ps_id schema := schema]> (schemaRegistry (privateState st))) st).
Proof. unfold defineSchema. by destruct (_ || _). Qed.

End Schemas.

Section Schemas2.

Context {node : NodeLib} {world : World}.

Lemma defineSchema_guard (schema : PrivateSchema) :
  String.eqb (ps_id schema) "" || String.eqb (ps_name schema) ""
    || (length (ps_fields schema) =? 0)%nat = false ↔
  ps_id schema ≠ "" ∧ ps_name schema ≠ "" ∧ ps_fields schema ≠ [].
Proof.
  rewrite !orb_false_iff, !String.eqb_neq, Nat.eqb_neq.
  split.
  - intros [[Hi Hn] Hl]. repeat split; [done..|].
    intros E. by rewrite E in Hl.
  - intros (Hi & Hn & Hf). repeat split; [done..|].
    by destruct (ps_fields schema).
Qed.

Lemma getSchema_run (id : string) (st : State) :
  getSchema id st =
    match schemaRegistry (privateState st) !! id with
    | Some s => (Ok s, st)
    | None => (Err NotFoundError, st)
    end.
Proof. unfold getSchema. run_M. by destruct (_ !! _). Qed.

(** X6. The schema registry.  [defineSchema] files a schema that has an
    id, a name and a field under its id, where [getSchema] finds it (the
    latest definition under an id wins) while every other id reads as
    before; nothing else changes.  Any other schema is refused with
    [SchemaError] and leaves the registry as it was.  [getSchema] throws
    [NotFoundError] for an id that was never defined and never changes the
    state. *)
Theorem schema_registry (schema : PrivateSchema) (st : State) :
  let valid := ps_id schema ≠ "" ∧ ps_name schema ≠ "" ∧ ps_fields schema ≠ [] in
  let st' := (defineSchema schema st).2 in
  (valid →
     (defineSchema schema st).1 = Ok schema ∧
     getSchema (ps_id schema) st' = (Ok schema, st') ∧
     (∀ id, id ≠ ps_id schema → (getSchema id st').1 = (getSchema id st).1) ∧
     trace st' = trace st ∧ cache st' = cache st ∧
     psc_config (privateState st') = psc_config (privateState st) ∧
     confidentialCompute st' = confidentialCompute st) ∧
  (¬ valid → defineSchema schema st = (Err SchemaError, st)) ∧
  (∀ id, (getSchema id st).2 = st ∧
         (schemaRegistry (privateState st) !! id = None →
          (getSchema id st).1 = Err NotFoundError)).
Proof.
  intros valid st'. subst st'. rewrite defineSchema_run.
  split; [|split].
  - intros Hv. apply defineSchema_guard in Hv. rewrite Hv. simpl.
    split; [done|]. split.
    { rewrite getSchema_run. simpl. by rewrite lookup_insert_eq. }
    split; [|done].
    intros id Hid. rewrite !getSchema_run. simpl.
    rewrite lookup_insert_ne by done. by destruct (_ !! _).
  - intros Hv. destruct (_ || _) eqn:E; [done|].
    by apply defineSchema_guard in E.
  - intros id. rewrite getSchema_run.
    destruct (_ !! id); [done|]. done.
Qed.


Lemma serializable_cons (k : string) (x : json) (r : list (string * json)) :
  JSON_serializable (JObj ((k, x) :: r))
  = key_ok k && key_fresh k r && JSON_serializable x && JSON_serializable (JObj r).
Proof. reflexivity. Qed.

Lemma key_fresh_filter (f : string * json → bool) (k : string)
    (record : list (string * json)) :
  key_fresh k record = true → key_fresh k (List.filter f record) = true.
Proof.
  induction record as [|[k' v] r IH]; simpl; [done|].
  intros [Hk Hr]%andb_true_iff.
  destruct (f (k', v)); simpl; [|by apply IH].
  by rewrite Hk, IH.
Qed.

Lemma serializable_filter (f : string * json → bool) (record : list (string * json)) :
  JSON_serializable (JObj record) = true →
  JSON_serializable (JObj (List.filter f record)) = true.
Proof.
  induction record as [|[k v] r IH]; [done|].
  rewrite serializable_cons.
  intros [[[Hk Hf]%andb_true_iff Hv]%andb_true_iff Hr]%andb_true_iff.
  cbn [List.filter]. destruct (f (k, v)); [|by apply IH].
  rewrite serializable_cons, Hk, Hv, (key_fresh_filter _ _ _ Hf), IH; done.
Qed.

Lemma filter_sublist {A} (f : A → bool) (l : list A) : List.filter f l `sublist_of` l.
Proof.
  induction l as [|x l IH]; simpl; [constructor|].
  destruct (f x); by constructor.
Qed.

Lemma filter_twice {A} (f : A → bool) (l : list A) :
  List.filter f (List.filter f l) = List.filter f l.
Proof.
  induction l as [|x l IH]; simpl; [done|].
  destruct (f x) eqn:E; simpl; [|done]. by rewrite E, IH.
Qed.

Lemma filter_all {A} (f : A → bool) (l : list A) :
  Forall (λ x, f x = true) l → List.filter f l = l.
Proof.
  induction 1 as [|x l Hx _ IH]; simpl; [done|]. by rewrite Hx, IH.
Qed.

Lemma keep_field_iff (allowed : list string) (k : string) (v : json) :
  keep_field allowed (k, v) = true ↔ k ∈ allowed ∧ k ≠ "__proto__".
Proof.
  unfold keep_field. simpl.
  rewrite andb_true_iff, bool_decide_eq_true, negb_true_iff, String.eqb_neq.
  done.
Qed.

(** X8. [serializeRecord] writes the JSON text of the record cut down to
    the schema: read back, the text is an object holding, in the record's
    order, exactly the properties of the record that the schema names as a
    field; no other property of the record reaches the output.
    Serializing the cut-down record again gives the same bytes, and a
    record that has only fields of the schema is written whole.  Nothing is
    checked: a record that lacks fields is serialized all the same. *)
Theorem serializeRecord_filters (schema : PrivateSchema)
    (record : list (string * json)) :
  JSON_round_trip → JSON_serializable (JObj record) = true →
  ∃ kept,
    JSON_parse (toString_utf8 (serializeRecord schema record)) = Some (JObj kept) ∧
    kept `sublist_of` record ∧
    (∀ k v, (k, v) ∈ kept ↔
       (k, v) ∈ record ∧ k ∈ map sf_name (ps_fields schema) ∧ k ≠ "__proto__") ∧
    serializeRecord schema kept = serializeRecord schema record ∧
    (Forall (λ e, e.1 ∈ map sf_name (ps_fields schema) ∧ e.1 ≠ "__proto__") record →
     kept = record).
Proof.
  intros Hjson Hrec. unfold serializeRecord.
  set (allowed := map sf_name (ps_fields schema)).
  exists (List.filter (keep_field allowed) record).
  split; [|split; [|split; [|split]]].
  - rewrite utf8_round_trip. apply Hjson. by apply serializable_filter.
  - apply filter_sublist.
  - intros k v. rewrite !list_elem_of_In, filter_In, keep_field_iff, <- !list_elem_of_In. done.
  - by rewrite filter_twice.
  - intros Hall. apply filter_all.
    eapply Forall_impl; [exact Hall|]. intros [k v] H. by apply keep_field_iff.
Qed.

End Schemas2.

(* ===================================================================== *)
(** * The private-state client *)
(* ===================================================================== *)

Section PrivateState.

Context {node : NodeLib} {world : World}.

(** [createState] when nothing goes on chain. *)
Lemma createState_local (params : CreateStateParams) (wallet : option WalletAdapter)
    (st : State) (schema : PrivateSchema) :
  schemaRegistry (privateState st) !! schemaId params = Some schema →
  configured (programId (psc_config (privateState st))) = None ∨ wallet = None →
  createState params wallet st =
    match encryptPayload (data params) (normalizeKey (symmetricKeySeed params)) st with
    | (Ok enc, st') =>
        let commitment := hashCommitment (inl (ciphertext enc)) in
        (Ok ({| sh_id := slice0 32 (hashCommitment (inr (commitment +:+ owner params)));
                sh_commitment := commitment; sh_owner := owner params |}, enc), st')
    | (Err e, st') => (Err e, st')
    end.
Proof.
  intros Hs Hloc. unfold createState, getSchema. run_M. rewrite Hs.
  pose proof (encryptPayload_clients (data params)
                (normalizeKey (symmetricKeySeed params)) st) as [_ Hps].
  destruct (encryptPayload _ _ st) as [[enc|e] st0]; [|done].
  simpl in Hps. rewrite Hps.
  destruct Hloc as [-> | ->]; [done|].
  by destruct (configured _).
Qed.

Lemma updateState_local (params : UpdateStateParams) (wallet : option WalletAdapter)
    (st : State) (schema : PrivateSchema) :
  schemaRegistry (privateState st) !! schemaId (up_base params) = Some schema →
  configured (programId (psc_config (privateState st))) = None ∨ wallet = None →
  updateState params wallet st =
    match encryptPayload (data (up_base params))
            (normalizeKey (symmetricKeySeed (up_base params))) st with
    | (Ok enc, st') =>
        let commitment := hashCommitment (inl (ciphertext enc)) in
        (Ok ({| sh_id := match stateId params with
                         | Some id => id
                         | None => slice0 32 (hashCommitment
                                     (inr (commitment +:+ owner (up_base params))))
                         end;
                sh_commitment := commitment;
                sh_owner := owner (up_base params) |}, enc), st')
    | (Err e, st') => (Err e, st')
    end.
Proof.
  intros Hs Hloc. unfold updateState, getSchema. run_M. rewrite Hs.
  pose proof (encryptPayload_clients (data (up_base params))
                (normalizeKey (symmetricKeySeed (up_base params))) st) as [_ Hps].
  destruct (encryptPayload _ _ st) as [[enc|e] st0]; [|done].
  simpl in Hps. rewrite Hps.
  destruct Hloc as [-> | ->]; [done|].
  by destruct (configured _).
Qed.

Lemma updateState_inv (params : UpdateStateParams) (wallet : option WalletAdapter)
    (st st' : State) (h : StateHandle) (enc : EncryptedPayload) :
  updateState params wallet st = (Ok (h, enc), st') →
  h = {| sh_id := match stateId params with
                  | Some id => id
                  | None => slice0 32 (hashCommitment
                              (inr (hashCommitment (inl (ciphertext enc))
                                    +:+ owner (up_base params))))
                  end;
         sh_commitment := hashCommitment (inl (ciphertext enc));
         sh_owner := owner (up_base params) |}.
Proof.
  unfold updateState, getSchema. run_M.
  destruct (schemaRegistry _ !! _); [|done].
  destruct (encryptPayload _ _ st) as [[enc0|e] st0]; [|done].
  intros H.
  by repeat (case_match; simpl in *; simplify_eq).
Qed.

(** X9. [createState] and [updateState] look the schema up before
    anything else: for a schema id that was never defined both throw
    [NotFoundError] and leave the state as it was, with no nonce drawn and
    nothing sent. *)
Theorem unknown_schema (params : CreateStateParams) (wallet : option WalletAdapter)
    (st : State) :
  schemaRegistry (privateState st) !! schemaId params = None →
  createState params wallet st = (Err NotFoundError, st) ∧
  ∀ id prev,
    updateState {| up_base := params; stateId := id; previousCommitment := prev |}
      wallet st = (Err NotFoundError, st).
Proof.
  intros H. split.
  - unfold createState, getSchema. run_M. by rewrite H.
  - intros id prev. unfold updateState, getSchema. run_M. by rewrite H.
Qed.

Lemma sealed_decryptWithSeed (V : json) (seed : bytes) (st st' : State)
    (enc : EncryptedPayload) :
  gcm_decrypts → JSON_round_trip → JSON_serializable V = true →
  encryptPayload V (normalizeKey seed) st = (Ok enc, st') →
  decryptWithSeed enc seed = Ok V.
Proof.
  intros Hdec Hjson HV Hrun.
  destruct (encryptPayload_inv _ _ _ _ _ Hrun) as (HK & Halg & _ & Hseal & _).
  unfold decryptWithSeed. by apply (decryptPayload_sealed V).
Qed.

(** X10. What [createState] and [updateState] return can be read back:
    [decryptWithSeed], given the envelope and the seed of the call, returns
    the data of the call, whatever the length of the seed.  With no
    program id or no wallet both calls succeed for a defined schema, and
    their only effect is the draw of the nonce. *)
Theorem state_round_trip (params : UpdateStateParams)
    (wallet : option WalletAdapter) (st : State) (schema : PrivateSchema) :
  let base := up_base params in
  sha256_length → gcm_encrypts → gcm_decrypts → JSON_round_trip →
  randomBytes_length →
  schemaRegistry (privateState st) !! schemaId base = Some schema →
  JSON_serializable (data base) = true →
  (∀ h enc st',
     createState base wallet st = (Ok (h, enc), st') ∨
     updateState params wallet st = (Ok (h, enc), st') →
     decryptWithSeed enc (symmetricKeySeed base) = Ok (data base)) ∧
  (configured (programId (psc_config (privateState st))) = None ∨ wallet = None →
   let st' := set_trace (trace st ++ [EvRandomBytes 12]) st in
   ∃ h enc,
     createState base wallet st = (Ok (h, enc), st') ∧
     updateState params wallet st
       = (Ok ({| sh_id := default (sh_id h) (stateId params);
                 sh_commitment := sh_commitment h;
                 sh_owner := sh_owner h |}, enc), st')).
Proof.
  intros base Hsha Henc Hdec Hjson Hrand Hs HV. split.
  - intros h enc st' [H|H].
    + apply createState_key in H. by eapply sealed_decryptWithSeed.
    + apply updateState_key in H. by eapply sealed_decryptWithSeed.
  - intros Hloc st'.
    destruct (encryptPayload_succeeds (data base)
                (normalizeKey (symmetricKeySeed base)) st Henc Hrand
                (normalizeKey_length _ Hsha)) as [enc Hrun].
    eexists _, enc.
    rewrite (createState_local _ _ _ _ Hs Hloc),
            (updateState_local _ _ _ _ Hs Hloc).
    fold base. rewrite Hrun. simpl. split; [done|].
    by destruct (stateId params).
Qed.

(** X11. The handle of [updateState]: its commitment is the hash of the
    new ciphertext, its owner the owner of the call, and its id the
    [stateId] of the call when there is one, else the id [createState]
    derives.  The previous commitment is compared with nothing: with no
    program id or no wallet the call runs alike for every value of it. *)
Theorem updateState_handle (params : UpdateStateParams)
    (wallet : option WalletAdapter) (st : State) :
  (∀ st' h enc,
     updateState params wallet st = (Ok (h, enc), st') →
     sh_commitment h = hashCommitment (inl (ciphertext enc)) ∧
     sh_owner h = owner (up_base params) ∧
     sh_id h = match stateId params with
               | Some id => id
               | None => slice0 32 (hashCommitment
                           (inr (sh_commitment h +:+ sh_owner h)))
               end) ∧
  (configured (programId (psc_config (privateState st))) = None ∨ wallet = None →
   ∀ prev,
     updateState {| up_base := up_base params; stateId := stateId params;
                    previousCommitment := prev |} wallet st
     = updateState params wallet st).
Proof.
  split.
  - intros st' h enc H. by rewrite (updateState_inv _ _ _ _ _ _ H).
  - intros Hloc prev.
    destruct (schemaRegistry (privateState st) !! schemaId (up_base params))
      as [schema|] eqn:Hs.
    + by rewrite !(updateState_local _ _ _ schema).
    + unfold updateState, getSchema. run_M. by rewrite Hs.
Qed.

(** X12. The commitment that [createState] and [updateState] put in the
    handle is the one [verifyCommitment] accepts for the ciphertext of the
    envelope they return; it covers the ciphertext alone, so it still
    verifies after the nonce or the tag of the envelope was changed. *)
Theorem handle_commitment_verifies (wallet : option WalletAdapter) (st st' : State)
    (h : StateHandle) (enc : EncryptedPayload) :
  (∃ params, createState params wallet st = (Ok (h, enc), st')) ∨
  (∃ params, updateState params wallet st = (Ok (h, enc), st')) →
  verifyCommitment (ciphertext enc) (sh_commitment h) = true ∧
  (∀ i, verifyCommitment (ciphertext (tamper Field_iv i enc)) (sh_commitment h) = true ∧
        verifyCommitment (ciphertext (tamper Field_tag i enc)) (sh_commitment h) = true).
Proof.
  intros H.
  assert (Hc : sh_commitment h = hashCommitment (inl (ciphertext enc))).
  { destruct H as [[params H]|[params H]].
    - by rewrite (createState_inv _ _ _ _ _ _ H).
    - by rewrite (updateState_inv _ _ _ _ _ _ H). }
  rewrite Hc. split; [|intros i; split]; by apply verifyCommitment_iff.
Qed.

End PrivateState.

(* ===================================================================== *)
(** * Proofs, transactions and connections *)
(* ===================================================================== *)

Section Chain.

Context {node : NodeLib} {world : World}.

Lemma do_fetch_run (req : Request) (st : State) :
  do_fetch req st =
    let st' := set_trace (trace st ++ [EvFetch req]) st in
    match fetch (trace st) req with
    | NetworkError => (Err JSError, st')
    | Response ok status body => (Ok (ok, status, body), st')
    end.
Proof. unfold do_fetch. run_M. by destruct (fetch _ _). Qed.

Lemma generateProof_service_run (id circuit : string) (env : EncryptedPayload)
    (st : State) (base : string) :
  configured (provingServiceUrl (psc_config (privateState st))) = Some base →
  generateProof id env circuit st =
    let req := generate_proof_request base id circuit env in
    (match fetch (trace st) req with
     | Response true _ (Some body) =>
         p ← get_prop body "proof";
         inputs ← get_prop body "publicInputs";
         Ok {| proof := p; publicInputs := inputs_or_empty inputs |}
     | _ => Err JSError
     end,
     set_trace (trace st ++ [EvFetch req]) st).
Proof.
  intros Hcfg. unfold generateProof. run_M. rewrite Hcfg.
  fold (generate_proof_request base id circuit env).
  rewrite do_fetch_run. simpl.
  destruct (fetch _ _) as [|[] status [body|]]; simpl; try done.
  destruct body; simpl; try done.
Qed.

Lemma read_proof_ok (body : json) (p : ProofObject) :
  (pr ← get_prop body "proof";
   inputs ← get_prop body "publicInputs";
   Ok {| proof := pr; publicInputs := inputs_or_empty inputs |}) = Ok p ↔
  body ≠ JNull ∧
  get_prop body "proof" = Ok (proof p) ∧
  ∃ inputs, get_prop body "publicInputs" = Ok inputs ∧
            publicInputs p = inputs_or_empty inputs.
Proof.
  destruct p as [pp pi].
  destruct body; simpl;
    try (split; [by intros [= <- <-]; eauto 6
                |by intros (_ & [= <-] & i & [= <-] & ->)]).
Qed.

Lemma read_proof_err (body : json) (e : error) :
  (pr ← get_prop body "proof";
   inputs ← get_prop body "publicInputs";
   Ok {| proof := pr; publicInputs := inputs_or_empty inputs |}) = Err e →
  e = JSError.
Proof. destruct body; simpl; congruence. Qed.

(** X13. [generateProof].  Without a proving service it returns the mock
    proof for the state id and does nothing else, whatever the envelope and
    the circuit.  With one it posts a single request and never falls back
    to the mock proof: it returns exactly when the service answers with
    success and a JSON body other than [null], taking [proof] from the body
    as it is (absent included) and [publicInputs] when truthy, else the
    empty object; in every other case it throws. *)
Theorem generateProof_spec (id circuit : string) (env : EncryptedPayload)
    (st : State) :
  let service := configured (provingServiceUrl (psc_config (privateState st))) in
  (service = None → generateProof id env circuit st = (Ok (mock_proof id), st)) ∧
  (∀ base, service = Some base →
     let req := generate_proof_request base id circuit env in
     (generateProof id env circuit st).2 = set_trace (trace st ++ [EvFetch req]) st ∧
     (∀ p, (generateProof id env circuit st).1 = Ok p ↔
        ∃ status body,
          fetch (trace st) req = Response true status (Some body) ∧
          body ≠ JNull ∧
          get_prop body "proof" = Ok (proof p) ∧
          ∃ inputs, get_prop body "publicInputs" = Ok inputs ∧
                    publicInputs p = inputs_or_empty inputs) ∧
     (∀ e, (generateProof id env circuit st).1 = Err e → e = JSError)).
Proof.
  intros service. subst service. split.
  - intros Hcfg. unfold generateProof. run_M. by rewrite Hcfg.
  - intros base Hcfg req. rewrite (generateProof_service_run _ _ _ _ _ Hcfg).
    fold req. cbn [fst snd]. split; [done|].
    destruct (fetch (trace st) req) as [|[] status [body|]].
    2:{ split.
        - intros p. rewrite read_proof_ok. split.
          + intros H. by exists status, body.
          + by intros (s & b & [= <- <-] & H).
        - apply read_proof_err. }
    all: split; [|congruence]; intros p; split; [done|];
      by intros (? & ? & ? & _).
Qed.

Lemma buildAndSendTransaction_run (conn : Connection) (wa : WalletAdapter)
    (pk : string) (ixs : list TransactionInstruction) (signers : list string)
    (st : State) :
  publicKey wa = Some pk →
  buildAndSendTransaction conn (Some wa) ixs signers st =
    let st1 := set_trace (trace st ++ [EvGetLatestBlockhash conn]) st in
    match getLatestBlockhash (trace st) conn with
    | Err e => (Err e, st1)
    | Ok blockhash =>
        match signTransaction wa with
        | None => (Err RPCError, st1)
        | Some sign =>
            match sign (unsigned_tx ixs pk blockhash) with
            | Err e => (Err e, st1)
            | Ok signed =>
                let sent := if (0 <? length signers)%nat
                            then partialSign signers signed else signed in
                (sendRawTransaction (trace st1) conn sent,
                 set_trace (trace st1 ++ [EvSendRawTransaction conn sent]) st1)
            end
        end
    end.
Proof.
  intros Hpk. unfold buildAndSendTransaction. run_M. rewrite Hpk.
  destruct (getLatestBlockhash _ _) as [blockhash|e]; [|done].
  destruct (signTransaction wa) as [sign|]; [|done].
  unfold unsigned_tx. by destruct (sign _).
Qed.

Lemma buildAndSendTransaction_ok (conn : Connection)
    (wallet : option WalletAdapter) (ixs : list TransactionInstruction)
    (signers : list string) (st st' : State) (sig : string) :
  let st1 := set_trace (trace st ++ [EvGetLatestBlockhash conn]) st in
  buildAndSendTransaction conn wallet ixs signers st = (Ok sig, st') →
  ∃ wa pk sign blockhash signed,
    wallet = Some wa ∧ publicKey wa = Some pk ∧
    signTransaction wa = Some sign ∧
    getLatestBlockhash (trace st) conn = Ok blockhash ∧
    sign (unsigned_tx ixs pk blockhash) = Ok signed ∧
    let sent := if (0 <? length signers)%nat
                then partialSign signers signed else signed in
    sendRawTransaction (trace st1) conn sent = Ok sig ∧
    st' = set_trace (trace st1 ++ [EvSendRawTransaction conn sent]) st1.
Proof.
  intros st1 H.
  destruct wallet as [wa|]; [|done].
  destruct (publicKey wa) as [pk|] eqn:Hpk;
    [|unfold buildAndSendTransaction in H; by rewrite Hpk in H].
  rewrite (buildAndSendTransaction_run _ _ _ _ _ _ Hpk) in H. simpl in H.
  destruct (getLatestBlockhash _ _) as [blockhash|e] eqn:Hb; [|done].
  destruct (signTransaction wa) as [sign|] eqn:Hs; [|done].
  destruct (sign _) as [signed|e] eqn:Hsig; [|done].
  injection H as Hsend <-.
  by exists wa, pk, sign, blockhash, signed.
Qed.

(** X14. [buildAndSendTransaction].  Without a wallet, or with a wallet
    that has no public key, it throws [RPCError] before any call.  It
    returns only after the wallet has signed: the transaction it sends is
    what [signTransaction] gave back for the given instructions, with the
    wallet as fee payer and the block hash just fetched, and the signature
    returned is the answer to that send.  For a wallet without
    [signTransaction] it always throws, [RPCError] once the block hash is
    there, and no transaction is sent. *)
Theorem buildAndSendTransaction_spec (conn : Connection)
    (wallet : option WalletAdapter) (ixs : list TransactionInstruction)
    (signers : list string) (st : State) :
  let run := buildAndSendTransaction conn wallet ixs signers st in
  let st1 := set_trace (trace st ++ [EvGetLatestBlockhash conn]) st in
  (wallet = None ∨ (∃ wa, wallet = Some wa ∧ publicKey wa = None) →
     run = (Err RPCError, st)) ∧
  (∀ sig st', run = (Ok sig, st') →
     ∃ wa pk sign blockhash signed,
       wallet = Some wa ∧ publicKey wa = Some pk ∧
       signTransaction wa = Some sign ∧
       getLatestBlockhash (trace st) conn = Ok blockhash ∧
       sign (unsigned_tx ixs pk blockhash) = Ok signed ∧
       let sent := if (0 <? length signers)%nat
                   then partialSign signers signed else signed in
       sendRawTransaction (trace st1) conn sent = Ok sig ∧
       st' = set_trace (trace st1 ++ [EvSendRawTransaction conn sent]) st1) ∧
  (∀ wa, wallet = Some wa → signTransaction wa = None →
     (∃ e, run = (Err e, st) ∨ run = (Err e, st1)) ∧
     (∀ pk blockhash, publicKey wa = Some pk → signers = [] →
        getLatestBlockhash (trace st) conn = Ok blockhash →
        run = (Err RPCError, st1))).
Proof.
  intros run st1. subst run. split; [|split].
  - intros [-> | (wa & -> & Hpk)]; [done|].
    unfold buildAndSendTransaction. by rewrite Hpk.
  - intros sig st'. apply buildAndSendTransaction_ok.
  - intros wa -> Hs.
    destruct (publicKey wa) as [pk|] eqn:Hpk.
    + rewrite (buildAndSendTransaction_run _ _ _ _ _ _ Hpk). simpl.
      rewrite Hs. fold st1.
      destruct (getLatestBlockhash _ _) as [blockhash|e] eqn:Hb.
      * split; [exists RPCError; by right|]. by intros ? ? [= <-] _ [= <-].
      * split; [exists e; by right|]. by intros.
    + unfold buildAndSendTransaction. rewrite Hpk.
      split; [exists RPCError; by left|]. by intros.
Qed.

Lemma getConnection_run (endpoint : string) (st : State) :
  getConnection endpoint st =
    match cache st !! endpoint with
    | Some existing => (Ok existing, st)
    | None =>
        if Connection_valid endpoint
        then (Ok (connection_to endpoint),
              set_cache (<[endpoint := connection_to endpoint]> (cache st)) st)
        else (Err JSError, st)
    end.
Proof.
  unfold getConnection, Connection_new, connection_to.
  destruct (cache st !! endpoint); [done|]. by destruct (Connection_valid endpoint).
Qed.

(** [getConnection] touches the cache alone, and nothing when it throws. *)
Lemma getConnection_ok (endpoint : string) (st s : State) (conn : Connection) :
  getConnection endpoint st = (Ok conn, s) → ∃ c, s = set_cache c st.
Proof.
  rewrite getConnection_run. destruct (cache st !! endpoint) as [existing|].
  - intros [= _ <-]. exists (cache st). by destruct st.
  - destruct (Connection_valid endpoint); [|done]. intros [= _ <-]. by eexists.
Qed.

Lemma getConnection_err (endpoint : string) (st s : State) (e : error) :
  getConnection endpoint st = (Err e, s) →
  e = JSError ∧ s = st ∧ cache st !! endpoint = None ∧
  Connection_valid endpoint = false.
Proof.
  rewrite getConnection_run. destruct (cache st !! endpoint) as [existing|]; [done|].
  destruct (Connection_valid endpoint); [done|]. by intros [= <- <-].
Qed.

Lemma submitProof_run (id : string) (p : ProofObject) (wa : WalletAdapter)
    (st : State) (prog : string) :
  configured (programId (psc_config (privateState st))) = Some prog →
  submitProof id p (Some wa) st =
    match getConnection (rpcEndpoint (psc_config (privateState st))) st with
    | (Err e, s) => (Err e, s)
    | (Ok conn, s) =>
        if PublicKey_valid prog
        then buildAndSendTransaction conn (Some wa)
               [{| ix_programId := prog; ix_keys := signer_key wa;
                   ix_data := submit_proof_data id p |}] [] s
        else (Err JSError, s)
    end.
Proof.
  intros Hcfg. unfold submitProof. run_M. rewrite Hcfg.
  destruct (getConnection _ st) as [[conn|e] s]; [|done].
  unfold createInstruction, submit_proof_data.
  by destruct (PublicKey_valid prog).
Qed.

(** X15. [submitProof].  It throws [ConfigError], with no effect at all,
    when no program id is configured or no wallet is passed.  When it
    returns, the signature is the answer to a transaction the wallet
    signed, whose single instruction names the configured program, lists
    the wallet as its only account (a signer, not writable) and carries the
    state id and the proof as JSON; the proof itself is not looked at. *)
Theorem submitProof_spec (id : string) (p : ProofObject)
    (wallet : option WalletAdapter) (st : State) :
  let program := configured (programId (psc_config (privateState st))) in
  (program = None ∨ wallet = None →
     submitProof id p wallet st = (Err ConfigError, st)) ∧
  (∀ sig st', submitProof id p wallet st = (Ok sig, st') →
     ∃ prog wa pk sign blockhash signed conn,
       program = Some prog ∧ wallet = Some wa ∧ publicKey wa = Some pk ∧
       signTransaction wa = Some sign ∧
       (getConnection (rpcEndpoint (psc_config (privateState st))) st).1 = Ok conn ∧
       getLatestBlockhash (trace st) conn = Ok blockhash ∧
       sign (unsigned_tx
               [{| ix_programId := prog;
                   ix_keys := [{| pubkey := Some pk; isSigner := true;
                                  isWritable := false |}];
                   ix_data := submit_proof_data id p |}] pk blockhash)
         = Ok signed ∧
       sendRawTransaction (trace st ++ [EvGetLatestBlockhash conn]) conn signed
         = Ok sig ∧
       trace st' = trace st ++ [EvGetLatestBlockhash conn;
                                EvSendRawTransaction conn signed]).
Proof.
  intros program. subst program. split.
  - intros H. unfold submitProof. run_M.
    destruct (configured _) as [prog|]; [|done].
    destruct H as [H | ->]; done.
  - intros sig st' H.
    destruct (configured _) as [prog|] eqn:Hcfg;
      [|unfold submitProof in H; run_M; by rewrite Hcfg in H].
    destruct wallet as [wa|];
      [|unfold submitProof in H; run_M; by rewrite Hcfg in H].
    rewrite (submitProof_run id p wa st prog Hcfg) in H.
    destruct (getConnection _ st) as [[conn|e] s] eqn:Hconn; [|done].
    destruct (getConnection_ok _ _ _ _ Hconn) as [c ->].
    destruct (PublicKey_valid prog); [|done].
    destruct (buildAndSendTransaction_ok _ _ _ _ _ _ _ H)
      as (wa' & pk & sign & bh & signed & [= <-] & Hpk
          & Hsign & Hbh & Hsig & Hsend & ->).
    simpl in *. unfold signer_key in Hsig. rewrite Hpk in Hsig.
    exists prog, wa, pk, sign, bh, signed, conn.
    simpl. repeat split; try done.
    by rewrite <- app_assoc.
Qed.

End Chain.

(* ===================================================================== *)
(** * What a call can change *)
(* ===================================================================== *)

(** Unfolds every method down to the monad. *)
Ltac open_calls :=
  unfold after, defineSchema, createState, updateState, generateProof,
    submitProof, getStateCommitment, registerJobType, submitJob,
    getJobStatus, fetchResult, _setMockResult, submitJob_onchain,
    mock_status, getSchema, encryptPayload, buildAndSendTransaction,
    getConnection, Connection_new, do_fetch, resp_json;
  run_M.

Section Frames.

Context {node : NodeLib} {world : World}.

Lemma configs_fixed (c : Call) (st : State) :
  psc_config (privateState (after c st)) = psc_config (privateState st) ∧
  ccc_config (confidentialCompute (after c st))
    = ccc_config (confidentialCompute st).
Proof.
  destruct c; open_calls;
    repeat (case_match; simpl in *; simplify_eq; try done).
Qed.

Lemma schema_step (c : Call) (st : State) :
  schemaRegistry (privateState (after c st)) = schemaRegistry (privateState st) ∨
  ∃ schema, c = Call_defineSchema schema ∧
    ps_id schema ≠ "" ∧ ps_name schema ≠ "" ∧ ps_fields schema ≠ [] ∧
    schemaRegistry (privateState (after c st))
      = <[ps_id schema := schema]> (schemaRegistry (privateState st)).
Proof.
  destruct c as [schema| | | | | | | | | | |];
    try (left; open_calls;
         by repeat (case_match; simpl in *; simplify_eq; try done)).
  unfold after. rewrite defineSchema_run.
  destruct (_ || _) eqn:E; [by left|]. right. exists schema.
  apply defineSchema_guard in E as (? & ? & ?). done.
Qed.

Lemma registry_step (c : Call) (st : State) :
  registry (confidentialCompute (after c st)) = registry (confidentialCompute st) ∨
  ∃ def, c = Call_registerJobType def ∧ jd_name def ≠ "" ∧
    registry (confidentialCompute (after c st))
      = <[jd_name def := def]> (registry (confidentialCompute st)).
Proof.
  destruct c as [| | | | | | |def| | | |];
    try (left; open_calls;
         by repeat (case_match; simpl in *; simplify_eq; try done)).
  unfold after, registerJobType. run_M.
  destruct (String.eqb_spec (jd_name def) ""); [by left|]. right. by exists def.
Qed.

Lemma cache_step (c : Call) (st : State) :
  cache (after c st) = cache st ∨
  ∃ e, (e = rpcEndpoint (psc_config (privateState st)) ∨
        e = rpcEndpoint (ccc_config (confidentialCompute st))) ∧
       cache st !! e = None ∧
       cache (after c st) = <[e := connection_to e]> (cache st).
Proof.
  destruct c; open_calls;
    repeat (case_match; simpl in *; simplify_eq; try (left; done));
    right; eexists; (split; [|split; [eassumption|reflexivity]]); auto.
Qed.

Lemma trace_step (c : Call) (st : State) :
  ∃ evs, trace (after c st) = trace st ++ evs.
Proof.
  destruct c; open_calls;
    repeat (case_match; simpl in *; simplify_eq);
    simpl; rewrite <- ?app_assoc;
    first [by exists []; rewrite app_nil_r | by eexists].
Qed.


Lemma after_all_invariant (P : State → Prop) :
  (∀ c s, P s → P (after c s)) →
  ∀ calls st, P st → P (after_all calls st).
Proof.
  intros Hstep calls. induction calls as [|c calls IH]; intros st H; [done|].
  simpl. apply IH. by apply Hstep.
Qed.

Lemma store_dom_step (c : Call) (st : State) (k : string) :
  is_Some (store st !! k) → is_Some (store (after c st) !! k).
Proof.
  intros H.
  destruct (store_step_holds c st)
    as [-> | [(params & wallet & id & r & _ & _ & ->)
             | (id & env & old & r & _ & _ & _ & ->)]]; [done|..];
    rewrite lookup_insert; by case_decide.
Qed.

(** X16. Nothing is ever removed or reconfigured.  Whatever calls are
    made, the two configurations stay what they were, every schema id,
    job type and job id that was known stays known, every cached
    connection stays the same object, and the record of outside calls is
    only added to. *)
Theorem state_only_grows (calls : list Call) (st : State) :
  let st' := after_all calls st in
  psc_config (privateState st') = psc_config (privateState st) ∧
  ccc_config (confidentialCompute st') = ccc_config (confidentialCompute st) ∧
  (∀ id, is_Some (schemaRegistry (privateState st) !! id) →
         is_Some (schemaRegistry (privateState st') !! id)) ∧
  (∀ name, is_Some (registry (confidentialCompute st) !! name) →
           is_Some (registry (confidentialCompute st') !! name)) ∧
  (∀ jobId, is_Some (store st !! jobId) → is_Some (store st' !! jobId)) ∧
  (∀ e conn, cache st !! e = Some conn → cache st' !! e = Some conn) ∧
  trace st `prefix_of` trace st'.
Proof.
  intros st'. subst st'.
  apply (after_all_invariant (λ s,
    psc_config (privateState s) = psc_config (privateState st) ∧
    ccc_config (confidentialCompute s) = ccc_config (confidentialCompute st) ∧
    (∀ id, is_Some (schemaRegistry (privateState st) !! id) →
           is_Some (schemaRegistry (privateState s) !! id)) ∧
    (∀ name, is_Some (registry (confidentialCompute st) !! name) →
             is_Some (registry (confidentialCompute s) !! name)) ∧
    (∀ jobId, is_Some (store st !! jobId) → is_Some (store s !! jobId)) ∧
    (∀ e conn, cache st !! e = Some conn → cache s !! e = Some conn) ∧
    trace st `prefix_of` trace s)); [|by repeat split].
  intros c s (Hp & Hc & Hs & Hr & Hj & Hk & Ht).
  destruct (configs_fixed c s) as [Hp' Hc'].
  split; [congruence|]. split; [congruence|].
  split; [|split; [|split; [|split]]].
  - intros id H. apply Hs in H.
    destruct (schema_step c s) as [-> | (schema & _ & _ & _ & _ & ->)]; [done|].
    rewrite lookup_insert. by case_decide.
  - intros name H. apply Hr in H.
    destruct (registry_step c s) as [-> | (def & _ & _ & ->)]; [done|].
    rewrite lookup_insert. by case_decide.
  - intros jobId H. by apply store_dom_step, Hj.
  - intros e conn H. apply Hk in H.
    destruct (cache_step c s) as [-> | (e' & _ & Hnone & ->)]; [done|].
    rewrite lookup_insert_ne; [done|]. intros <-. congruence.
  - destruct (trace_step c s) as [evs ->].
    etrans; [exact Ht|]. by apply prefix_app_r.
Qed.

(** X17. The connection cache.  Once [getConnection] has returned a
    connection for an endpoint, it returns that same connection for the
    endpoint again and changes nothing; the other endpoints, the clients
    and the record of calls are not touched by it.  Starting from an empty
    cache, whatever calls are made, each cached connection is the one
    constructed for its key with commitment ['confirmed'], and the only
    endpoints that get cached are those of the two configurations. *)
Theorem connection_cache (endpoint : string) (st st' : State) (conn : Connection) :
  getConnection endpoint st = (Ok conn, st') →
  getConnection endpoint st' = (Ok conn, st') ∧
  cache st' !! endpoint = Some conn ∧
  (∀ e, e ≠ endpoint → cache st' !! e = cache st !! e) ∧
  trace st' = trace st ∧ privateState st' = privateState st ∧
  confidentialCompute st' = confidentialCompute st ∧
  (cache st = ∅ →
   ∀ calls e c, cache (after_all calls st) !! e = Some c →
     c = connection_to e ∧
     (e = rpcEndpoint (psc_config (privateState st)) ∨
      e = rpcEndpoint (ccc_config (confidentialCompute st)))).
Proof.
  rewrite getConnection_run. intros Hrun.
  assert (Hmemo : getConnection endpoint st' = (Ok conn, st') ∧
                  cache st' !! endpoint = Some conn ∧
                  (∀ e, e ≠ endpoint → cache st' !! e = cache st !! e) ∧
                  trace st' = trace st ∧ privateState st' = privateState st ∧
                  confidentialCompute st' = confidentialCompute st).
  { destruct (cache st !! endpoint) as [existing|] eqn:E;
      [|destruct (Connection_valid endpoint); [|done]];
      injection Hrun as <- <-.
    - rewrite getConnection_run, E. done.
    - rewrite getConnection_run. simpl. rewrite lookup_insert_eq.
      split; [done|]. split; [done|]. split; [|done].
      intros e He. by rewrite lookup_insert_ne. }
  destruct Hmemo as (? & ? & ? & ? & ? & ?). repeat (split; [done|]).
  intros Hempty calls.
  apply (after_all_invariant (λ s,
    psc_config (privateState s) = psc_config (privateState st) ∧
    ccc_config (confidentialCompute s) = ccc_config (confidentialCompute st) ∧
    ∀ e c, cache s !! e = Some c →
      c = connection_to e ∧
      (e = rpcEndpoint (psc_config (privateState st)) ∨
       e = rpcEndpoint (ccc_config (confidentialCompute st))))).
  - intros c s (Hp & Hc & Hk).
    destruct (configs_fixed c s) as [Hp' Hc'].
    split; [congruence|]. split; [congruence|].
    intros e c'.
    destruct (cache_step c s) as [-> | (e' & He' & _ & ->)]; [apply Hk|].
    rewrite lookup_insert. case_decide as E; [|apply Hk].
    intros [= <-]. subst e'. split; [done|]. by rewrite <- Hp, <- Hc.
  - split; [done|]. split; [done|]. intros e c'.
    by rewrite Hempty, lookup_empty.
Qed.

End Frames.

(* ===================================================================== *)
(** * The compute client *)
(* ===================================================================== *)

Section Compute.

Context {node : NodeLib} {world : World}.

Lemma fire_and_forget (req : Request) (st : State) :
  try_catch (do_fetch req;; mret tt) (λ _, mret tt) st
  = (Ok tt, set_trace (trace st ++ [EvFetch req]) st).
Proof.
  unfold try_catch. run_M. rewrite do_fetch_run. simpl.
  by destruct (fetch _ _).
Qed.

(** A run of [submitJob] for a registered type, step by step. *)
Lemma submitJob_run (params : SubmitJobParams) (wallet : option WalletAdapter)
    (st : State) (def : JobDefinition) :
  registry (confidentialCompute st) !! sj_jobType params = Some def →
  submitJob params wallet st =
    let config := ccc_config (confidentialCompute st) in
    match encryptPayload (sj_input params)
            (normalizeKey (sj_symmetricKeySeed params)) st with
    | (Err e, s0) => (Err e, s0)
    | (Ok enc, s0) =>
        let commitment := hashCommitment (inl (ciphertext enc)) in
        let jobId := slice0 32 (hashCommitment (inr (commitment +:+ sj_owner params))) in
        match submitJob_onchain config wallet jobId commitment (sj_jobType params) s0 with
        | (Err e, s1) => (Err e, s1)
        | (Ok sig, s1) =>
            match configured (provingServiceUrl config) with
            | Some base =>
                (Ok (jobId, sig),
                 set_trace (trace s1 ++ [EvFetch (submit_job_request base jobId
                              (sj_jobType params) (sj_owner params) enc)]) s1)
            | None =>
                (Ok (jobId, sig),
                 set_mockJobs
                   (<[jobId := {| jr_id := jobId; jr_owner := sj_owner params;
                                  jr_jobType := sj_jobType params;
                                  jr_commitment := commitment;
                                  jr_status := PENDING;
                                  jr_createdAt := Date_now (trace s1);
                                  jr_resultRef := None |}]>
                      (mockJobs (confidentialCompute s1)))
                   (set_trace (trace s1 ++ [EvDateNow]) s1))
            end
        end
    end.
Proof.
  intros Hreg. unfold submitJob. run_M. rewrite Hreg.
  destruct (encryptPayload _ _ st) as [[enc|e] s0]; [|done].
  destruct (submitJob_onchain _ _ _ _ _ s0) as [[sig|e] s1]; [|done].
  destruct (configured _) as [base|]; [|done].
  unfold submit_job_request. rewrite do_fetch_run. simpl.
  by destruct (fetch _ _).
Qed.


Lemma submitJob_onchain_local (config : ZkPrimeConfig) (wallet : option WalletAdapter)
    (jobId commitment jobType : string) (s : State) :
  configured (computeProgramId config) = None ∨ wallet = None →
  submitJob_onchain config wallet jobId commitment jobType s = (Ok None, s).
Proof.
  intros [H | ->]; unfold submitJob_onchain; [by rewrite H|].
  by destruct (configured _).
Qed.

Lemma submitJob_onchain_sent (config : ZkPrimeConfig) (wallet : option WalletAdapter)
    (jobId commitment jobType : string) (s s' : State) (sig : option string) :
  submitJob_onchain config wallet jobId commitment jobType s = (Ok sig, s') →
  (sig = None ↔ configured (computeProgramId config) = None ∨ wallet = None).
Proof.
  unfold submitJob_onchain.
  destruct (configured _) as [program|]; [|intros [= <- <-]; by split; auto].
  destruct wallet as [wa|]; [|intros [= <- <-]; by split; auto].
  unfold buildAndSendTransaction, getConnection. run_M. intros H.
  repeat (case_match; simpl in *; simplify_eq);
    (split; [done | by intros [|]]).
Qed.

Lemma submitJob_onchain_trace (config : ZkPrimeConfig) (wallet : option WalletAdapter)
    (jobId commitment jobType : string) (s : State) :
  ∃ evs, trace (submitJob_onchain config wallet jobId commitment jobType s).2
         = trace s ++ evs ∧
         Forall (λ ev, ∀ req, ev ≠ EvFetch req) evs.
Proof.
  unfold submitJob_onchain, buildAndSendTransaction, getConnection. run_M.
  repeat (case_match; simpl in *; simplify_eq);
    simpl; rewrite <- ?app_assoc;
    first [ exists []; rewrite app_nil_r; by split
          | eexists; split; [reflexivity|]; by repeat constructor ].
Qed.

Lemma trace_grew (st st' : State) (ev : Event) (evs : list Event) :
  trace st' = trace st ++ ev :: evs → st' ≠ st.
Proof.
  intros H ->. apply (f_equal length) in H.
  rewrite length_app in H. simpl in H. lia.
Qed.

Lemma registry_grows (calls : list Call) (st : State) (name : string) :
  is_Some (registry (confidentialCompute st) !! name) →
  is_Some (registry (confidentialCompute (after_all calls st)) !! name).
Proof.
  revert st. induction calls as [|c calls IH]; intros st H; [done|].
  simpl. apply IH.
  destruct (registry_step c st) as [-> | (def & _ & _ & ->)]; [done|].
  rewrite lookup_insert. by case_decide.
Qed.

Lemma submitJob_rejects_iff (params : SubmitJobParams) (wallet : option WalletAdapter)
    (st : State) :
  submitJob params wallet st = (Err NotFoundError, st) ↔
  registry (confidentialCompute st) !! sj_jobType params = None.
Proof.
  split; [|intros H; unfold submitJob; run_M; by rewrite H].
  destruct (registry _ !! _) as [def|] eqn:Hreg; [|done].
  rewrite (submitJob_run _ _ _ _ Hreg). simpl.
  rewrite encryptPayload_run.
  destruct (negb _); [done|]. simpl.
  destruct (aes_256_gcm_encrypt _ _ _) as [[ct t]|]; [|done].
  set (s0 := set_trace _ st).
  match goal with |- context [submitJob_onchain ?c ?w ?j ?cm ?t s0] =>
    destruct (submitJob_onchain_trace c w j cm t s0) as (evs & Htr & _);
    destruct (submitJob_onchain c w j cm t s0) as [[sig|e] s1]
  end; simpl in Htr.
  - by destruct (configured _).
  - intros [= _ H]. exfalso. revert H. eapply trace_grew.
    rewrite Htr. subst s0. simpl. by rewrite <- app_assoc.
Qed.


End Compute.

Section Ids.

Context {node : NodeLib} {world : World}.

(** C8. State ids and job ids are derived alike.  For a defined schema,
    [createState] returns a handle whose id is the first 32 hex characters
    of [hashCommitment (commitment + owner)], and for a registered job
    type [submitJob] returns, as the job id, the same function of the
    job's commitment and owner; this is shown for the calls that send
    nothing on chain, which always return, and holds as well for every
    call with a transaction that returns.  The id is a function of the
    pair alone: [submitJob] computes and returns it whatever the mock
    store holds, a record under that very id included.  It has exactly 32
    characters. *)
Theorem id_derivation :
  let derive (c o : string) := slice0 32 (hashCommitment (inr (c +:+ o))) in
  sha256_length → gcm_encrypts → randomBytes_length →
  (∀ params wallet st schema,
     schemaRegistry (privateState st) !! schemaId params = Some schema →
     configured (programId (psc_config (privateState st))) = None ∨ wallet = None →
     ∃ enc,
       let commitment := hashCommitment (inl (ciphertext enc)) in
       (encryptPayload (data params) (normalizeKey (symmetricKeySeed params)) st).1
         = Ok enc ∧
       createState params wallet st
         = (Ok ({| sh_id := derive commitment (owner params);
                   sh_commitment := commitment;
                   sh_owner := owner params |}, enc),
            set_trace (trace st ++ [EvRandomBytes 12]) st)) ∧
  (∀ params wallet st def,
     registry (confidentialCompute st) !! sj_jobType params = Some def →
     configured (computeProgramId (ccc_config (confidentialCompute st))) = None
       ∨ wallet = None →
     ∃ enc,
       let jobId := derive (hashCommitment (inl (ciphertext enc))) (sj_owner params) in
       (encryptPayload (sj_input params)
          (normalizeKey (sj_symmetricKeySeed params)) st).1 = Ok enc ∧
       (∃ st', submitJob params wallet st = (Ok (jobId, None), st')) ∧
       (∀ mj, (submitJob params wallet (set_mockJobs mj st)).1 = Ok (jobId, None))) ∧
  (∀ params wallet st st' h enc,
     createState params wallet st = (Ok (h, enc), st') →
     sh_commitment h = hashCommitment (inl (ciphertext enc)) ∧
     sh_owner h = owner params ∧
     sh_id h = derive (sh_commitment h) (sh_owner h)) ∧
  (∀ params wallet st st' jobId sig,
     submitJob params wallet st = (Ok (jobId, sig), st') →
     ∃ enc,
       (encryptPayload (sj_input params)
          (normalizeKey (sj_symmetricKeySeed params)) st).1 = Ok enc ∧
       jobId = derive (hashCommitment (inl (ciphertext enc))) (sj_owner params) ∧
       (configured (provingServiceUrl (ccc_config (confidentialCompute st))) = None →
        ∃ r, mockJobs (confidentialCompute st') !! jobId = Some r ∧
             jr_id r = derive (jr_commitment r) (jr_owner r))) ∧
  (∀ c o, String.length (derive c o) = 32).
Proof.
  intros derive Hsha Henc Hrand. subst derive.
  split; [|split; [|split; [|split]]].
  - intros params wallet st schema Hs Hloc.
    destruct (encryptPayload_succeeds (data params)
                (normalizeKey (symmetricKeySeed params)) st Henc Hrand
                (normalizeKey_length _ Hsha)) as [enc Hrun].
    exists enc. rewrite (createState_local _ _ _ _ Hs Hloc), Hrun. done.
  - intros params wallet st def Hreg Hloc.
    destruct (encryptPayload_succeeds (sj_input params)
                (normalizeKey (sj_symmetricKeySeed params)) st Henc Hrand
                (normalizeKey_length _ Hsha)) as [enc Hrun].
    exists enc.
    assert (Hsub : ∃ st', submitJob params wallet st
              = (Ok (slice0 32 (hashCommitment
                       (inr (hashCommitment (inl (ciphertext enc))
                             +:+ sj_owner params))), None), st')).
    { rewrite (submitJob_run _ _ _ _ Hreg). simpl. rewrite Hrun.
      rewrite (submitJob_onchain_local _ _ _ _ _ _ Hloc).
      destruct (configured (provingServiceUrl _)); by eexists. }
    simpl. split; [by rewrite Hrun|]. split; [exact Hsub|].
    intros mj. destruct Hsub as [st' Hsub].
    destruct (blind_submitJob params wallet st mj) as [-> _]. by rewrite Hsub.
  - intros * H. by rewrite (createState_inv _ _ _ _ _ _ H).
  - intros * H. destruct (submitJob_inv _ _ _ _ _ _ H) as (enc & Hrun & Hid & Hrec).
    exists enc. rewrite Hrun. split; [done|]. split; [done|].
    intros Hcfg. destruct (Hrec Hcfg) as [now Hr]. eexists. split; [exact Hr|].
    simpl. exact Hid.
  - intros c o. apply slice0_length.
    rewrite (hashCommitment_length _ Hsha). lia.
Qed.

End Ids.

Section Jobs2.

Context {node : NodeLib} {world : World}.

(** X18. [submitJob] refuses a job as unregistered, with [NotFoundError]
    and nothing touched, exactly when its type is not in the registry; and
    since no call removes a job type, a type that was registered is never
    refused that way again, whatever calls come in between. *)
Theorem submitJob_checks_registry (params : SubmitJobParams)
    (wallet : option WalletAdapter) (st : State) :
  (submitJob params wallet st = (Err NotFoundError, st) ↔
     registry (confidentialCompute st) !! sj_jobType params = None) ∧
  (∀ calls,
     is_Some (registry (confidentialCompute st) !! sj_jobType params) →
     submitJob params wallet (after_all calls st)
       ≠ (Err NotFoundError, after_all calls st)).
Proof.
  split; [apply submitJob_rejects_iff|].
  intros calls H Hrun. apply submitJob_rejects_iff in Hrun.
  apply (registry_grows calls) in H. rewrite Hrun in H. by destruct H.
Qed.

(** X19. The coordinator is told on a best-effort basis.  What
    [submitJob] returns or throws, and the state it leaves, are the same
    whatever the coordinator answers, a network failure included.  With a
    coordinator configured nothing is filed in the mock store, and when
    [submitJob] returns, the last thing it did was to post the job id, the
    type, the owner and the three parts of the envelope. *)
Theorem submitJob_fire_and_forget (params : SubmitJobParams)
    (wallet : option WalletAdapter) (st : State) :
  (∀ answers,
     submitJob (world := with_fetch answers) params wallet st
     = submitJob params wallet st) ∧
  (∀ base,
     configured (provingServiceUrl (ccc_config (confidentialCompute st))) = Some base →
     store (submitJob params wallet st).2 = store st ∧
     ∀ jobId sig st',
       submitJob params wallet st = (Ok (jobId, sig), st') →
       ∃ enc evs,
         (encryptPayload (sj_input params)
            (normalizeKey (sj_symmetricKeySeed params)) st).1 = Ok enc ∧
         trace st' = evs ++ [EvFetch (submit_job_request base jobId
                                        (sj_jobType params) (sj_owner params) enc)]).
Proof.
  split.
  - intros answers.
    destruct (registry (confidentialCompute st) !! sj_jobType params)
      as [def|] eqn:Hreg.
    + rewrite (submitJob_run (world := with_fetch answers) _ _ _ _ Hreg),
              (submitJob_run _ _ _ _ Hreg). reflexivity.
    + transitivity (@Err (string * option string) NotFoundError, st);
        [|symmetry]; unfold submitJob; run_M; by rewrite Hreg.
  - intros base Hcfg.
    destruct (registry (confidentialCompute st) !! sj_jobType params)
      as [def|] eqn:Hreg.
    2:{ unfold submitJob. run_M. by rewrite Hreg. }
    rewrite (submitJob_run _ _ _ _ Hreg). simpl. rewrite Hcfg.
    pose proof (encryptPayload_clients (sj_input params)
                  (normalizeKey (sj_symmetricKeySeed params)) st) as [Hcc _].
    destruct (encryptPayload _ _ st) as [[enc|e] s0]; simpl in *;
      [|unfold store; by rewrite Hcc].
    match goal with |- context [submitJob_onchain ?c ?w ?j ?cm ?t s0] =>
      pose proof (submitJob_onchain_clients c w j cm t s0) as [Hcc' _];
      destruct (submitJob_onchain c w j cm t s0) as [[sig|e] s1]
    end; simpl in *.
    + split; [unfold store; simpl; congruence|].
      intros jobId sig' st' [= <- <- <-]. by eexists _, _.
    + split; [unfold store; congruence|]. done.
Qed.

(** X20. The chain comes first.  [submitJob] returns a transaction
    signature exactly when a compute program is configured and a wallet is
    passed.  When it throws, whether at the registry, in the encryption or
    on chain, the mock store is as before and no request has gone to the
    coordinator. *)
Theorem submitJob_chain_first (params : SubmitJobParams)
    (wallet : option WalletAdapter) (st : State) :
  (∀ jobId sig st',
     submitJob params wallet st = (Ok (jobId, sig), st') →
     (sig = None ↔
        configured (computeProgramId (ccc_config (confidentialCompute st))) = None
        ∨ wallet = None)) ∧
  (∀ e st',
     submitJob params wallet st = (Err e, st') →
     store st' = store st ∧
     ∃ evs, trace st' = trace st ++ evs ∧
            Forall (λ ev, ∀ req, ev ≠ EvFetch req) evs).
Proof.
  destruct (registry (confidentialCompute st) !! sj_jobType params)
    as [def|] eqn:Hreg.
  2:{ assert (H : submitJob params wallet st = (Err NotFoundError, st))
        by (unfold submitJob; run_M; by rewrite Hreg).
      rewrite H. split; [done|]. intros e st' [= <- <-]. split; [done|].
      exists []. by rewrite app_nil_r. }
  rewrite (submitJob_run _ _ _ _ Hreg). simpl.
  pose proof (encryptPayload_clients (sj_input params)
                (normalizeKey (sj_symmetricKeySeed params)) st) as [Hcc _].
  rewrite encryptPayload_run in *.
  destruct (negb _).
  { split; [done|]. intros e st' [= <- <-]. split; [done|].
    exists []. by rewrite app_nil_r. }
  simpl in *.
  destruct (aes_256_gcm_encrypt _ _ _) as [[ct t]|].
  2:{ split; [done|]. intros e st' [= <- <-]. split; [done|].
      exists [EvRandomBytes 12]. split; [done|]. by repeat constructor. }
  set (s0 := set_trace _ st) in *.
  match goal with |- context [submitJob_onchain ?c ?w ?j ?cm ?t s0] =>
    pose proof (submitJob_onchain_clients c w j cm t s0) as [Hcc' _];
    pose proof (submitJob_onchain_sent c w j cm t s0) as Hsent;
    destruct (submitJob_onchain_trace c w j cm t s0) as (evs & Htr & Hevs);
    destruct (submitJob_onchain c w j cm t s0) as [[sig|e] s1]
  end; simpl in *.
  - split; [|by destruct (configured (provingServiceUrl _))].
    intros jobId sig' st' H. apply (Hsent s1 sig').
    destruct (configured (provingServiceUrl _)); by injection H as <- <- <-.
  - split; [done|]. intros e' st' [= <- <-].
    split; [unfold store; by rewrite Hcc'|].
    exists (EvRandomBytes 12 :: evs). rewrite Htr. subst s0. simpl.
    rewrite <- app_assoc. split; [done|]. by constructor.
Qed.

End Jobs2.

Section Status.

Context {node : NodeLib} {world : World}.

(** A run of [getJobStatus] with a coordinator, by what it answers. *)
Lemma getJobStatus_run (jobId : string) (st : State) (base : string) :
  configured (provingServiceUrl (ccc_config (confidentialCompute st))) = Some base →
  getJobStatus jobId st =
    let st' := set_trace (trace st ++ [EvFetch (job_status_request base jobId)]) st in
    match fetch (trace st) (job_status_request base jobId) with
    | Response true _ (Some body) =>
        match get_prop body "status" with
        | Ok (Some v) => if truthy v then (Ok v, st') else (Ok (JStr "PENDING"), st')
        | Ok None => (Ok (JStr "PENDING"), st')
        | Err _ => mock_status jobId st'
        end
    | _ => mock_status jobId st'
    end.
Proof.
  intros Hcfg. unfold getJobStatus. run_M. rewrite Hcfg.
  fold (job_status_request base jobId). rewrite do_fetch_run. simpl.
  destruct (fetch _ _) as [|[] status [body|]]; simpl; try done.
  destruct (get_prop body "status") as [[v|]|e]; simpl; try done.
  by destruct (truthy v).
Qed.

(** X21. [getJobStatus] with a coordinator.  A truthy [status] in the
    answer is returned as it stands, whether or not it is one of the four
    job statuses.  When the coordinator cannot be reached, answers with a
    failure status or sends a body that is not JSON, the request is
    forgotten and the mock store answers instead, so that an unknown job id
    gives [NotFoundError]. *)
Theorem getJobStatus_coordinator (jobId : string) (st : State) (base : string) :
  let req := job_status_request base jobId in
  let st' := set_trace (trace st ++ [EvFetch req]) st in
  configured (provingServiceUrl (ccc_config (confidentialCompute st))) = Some base →
  (∀ status body v,
     fetch (trace st) req = Response true status (Some body) →
     get_prop body "status" = Ok (Some v) → truthy v = true →
     getJobStatus jobId st = (Ok v, st')) ∧
  (fetch (trace st) req = NetworkError ∨
   (∃ status body, fetch (trace st) req = Response false status body) ∨
   (∃ status, fetch (trace st) req = Response true status None) →
   getJobStatus jobId st = mock_status jobId st' ∧
   (store st !! jobId = None →
    getJobStatus jobId st = (Err NotFoundError, st')) ∧
   (∀ r, store st !! jobId = Some r →
    getJobStatus jobId st = (Ok (JStr (JobStatus_string (jr_status r))), st'))).
Proof.
  intros req st' Hcfg. rewrite (getJobStatus_run _ _ _ Hcfg). fold req st'.
  split.
  - intros status body v -> -> ->. done.
  - intros H.
    assert (Hm : match fetch (trace st) req with
                 | Response true _ (Some body) =>
                     match get_prop body "status" with
                     | Ok (Some v) =>
                         if truthy v then (Ok v, st') else (Ok (JStr "PENDING"), st')
                     | Ok None => (Ok (JStr "PENDING"), st')
                     | Err _ => mock_status jobId st'
                     end
                 | _ => mock_status jobId st'
                 end = mock_status jobId st').
    { destruct H as [-> | [(status & body & ->) | (status & ->)]]; done. }
    simpl. rewrite Hm. split; [done|]. split.
    + intros Hr. by apply mock_status_missing.
    + intros r Hr. by apply mock_status_found.
Qed.

(** A run of [fetchResult] with a coordinator. *)
Lemma fetchResult_service_run (jobId : string) (seed : bytes) (st : State)
    (base : string) :
  configured (provingServiceUrl (ccc_config (confidentialCompute st))) = Some base →
  fetchResult jobId seed st =
    (match fetch (trace st) (job_result_request base jobId) with
     | NetworkError => Err JSError
     | Response false _ _ => Err NotFoundError
     | Response true _ None => Err JSError
     | Response true _ (Some json) =>
         jiv ← get_prop json "iv";
         biv ← Buffer_from_base64 jiv;
         jct ← get_prop json "ciphertext";
         bct ← Buffer_from_base64 jct;
         jtag ← get_prop json "tag";
         btag ← Buffer_from_base64 jtag;
         decryptPayload {| alg := "AES-GCM"; iv := biv;
                           ciphertext := bct; tag := btag |} (normalizeKey seed)
     end,
     set_trace (trace st ++ [EvFetch (job_result_request base jobId)]) st).
Proof.
  intros Hcfg. unfold fetchResult. run_M. rewrite Hcfg.
  fold (job_result_request base jobId). rewrite do_fetch_run. simpl.
  destruct (fetch _ _) as [|[] status [body|]]; simpl; try done.
  repeat (case_match; simpl in *; simplify_eq; try done).
Qed.

(** X22. Failures of [fetchResult].  On the mock path a job id that is
    unknown, or whose record has no result yet, gives [NotFoundError], and
    the call has no effect at all.  With a coordinator the mock store is
    never consulted: a failure status gives [NotFoundError], while a
    network failure or a body that is not JSON is thrown on as it is, with
    no fall-back, even when the mock store holds a result for the job. *)
Theorem fetchResult_errors (jobId : string) (seed : bytes) (st : State) :
  let service := configured (provingServiceUrl (ccc_config (confidentialCompute st))) in
  (service = None →
     (fetchResult jobId seed st).2 = st ∧
     (store st !! jobId = None ∨
      (∃ r, store st !! jobId = Some r ∧ configured (jr_resultRef r) = None) →
      fetchResult jobId seed st = (Err NotFoundError, st))) ∧
  (∀ base, service = Some base →
     let req := job_result_request base jobId in
     let st' := set_trace (trace st ++ [EvFetch req]) st in
     (fetchResult jobId seed st).2 = st' ∧
     (∀ mj, (fetchResult jobId seed (set_mockJobs mj st)).1
            = (fetchResult jobId seed st).1) ∧
     (fetch (trace st) req = NetworkError →
        fetchResult jobId seed st = (Err JSError, st')) ∧
     (∀ status body, fetch (trace st) req = Response false status body →
        fetchResult jobId seed st = (Err NotFoundError, st')) ∧
     (∀ status, fetch (trace st) req = Response true status None →
        fetchResult jobId seed st = (Err JSError, st'))).
Proof.
  intros service. subst service. split.
  - intros Hcfg. split.
    + unfold fetchResult. run_M. rewrite Hcfg.
      repeat (case_match; simpl in *; simplify_eq; try done).
    + unfold store. intros [H | (r & H & Hr)];
        unfold fetchResult; run_M; rewrite Hcfg, H; [done|]. by rewrite Hr.
  - intros base Hcfg req st'.
    rewrite (fetchResult_service_run _ _ _ _ Hcfg). fold req st'.
    split; [done|]. split.
    { intros mj.
      rewrite (fetchResult_service_run jobId seed (set_mockJobs mj st) base)
        by exact Hcfg.
      done. }
    split; [by intros ->|]. split; [by intros status body ->|].
    by intros status ->.
Qed.

(** X23. [_setMockResult].  For a job id that is not in the mock store it
    throws [NotFoundError] and changes nothing.  For a stored job it marks
    the record completed and attaches the envelope, keeping the id, owner,
    type, commitment and creation time of the record; a second call for
    the same job replaces the result of the first. *)
Theorem setMockResult_spec (jobId : string) (env : EncryptedPayload) (st : State) :
  (store st !! jobId = None →
     _setMockResult jobId env st = (Err NotFoundError, st)) ∧
  (∀ r, store st !! jobId = Some r →
     ∃ r' st',
       _setMockResult jobId env st = (Ok tt, st') ∧
       st' = set_mockJobs (<[jobId := r']> (store st)) st ∧
       jr_status r' = COMPLETED ∧ jr_resultRef r' = Some (mock_ref env) ∧
       jr_id r' = jr_id r ∧ jr_owner r' = jr_owner r ∧
       jr_jobType r' = jr_jobType r ∧ jr_commitment r' = jr_commitment r ∧
       jr_createdAt r' = jr_createdAt r ∧
       ∀ first,
         _setMockResult jobId env (_setMockResult jobId first st).2
         = (Ok tt, st')).
Proof.
  unfold store. split.
  - intros H. unfold _setMockResult. run_M. by rewrite H.
  - intros r Hr. eexists _, _.
    split; [by apply setMockResult_run|]. split; [done|].
    repeat (split; [done|]).
    intros first. rewrite (setMockResult_run _ first _ _ Hr). simpl.
    erewrite setMockResult_run; [|simpl; apply lookup_insert_eq].
    simpl. f_equal. unfold set_mockJobs. simpl. f_equal. f_equal.
    by rewrite insert_insert_eq.
Qed.


(** X30. The registry of job types.  [registerJobType] refuses a
    definition without a name, with a plain [Error] and no effect.  Any
    other definition is filed under its name, replacing an earlier one of
    that name, while the other names, the mock store and the rest of the
    state stay as they were; from then on [submitJob] does not refuse jobs
    of that type as unregistered. *)
Theorem job_registry (def : JobDefinition) (st : State) :
  let st' := (registerJobType def st).2 in
  (jd_name def = "" → registerJobType def st = (Err JSError, st)) ∧
  (jd_name def ≠ "" →
     (registerJobType def st).1 = Ok def ∧
     registry (confidentialCompute st') !! jd_name def = Some def ∧
     (∀ name, name ≠ jd_name def →
        registry (confidentialCompute st') !! name
        = registry (confidentialCompute st) !! name) ∧
     store st' = store st ∧ trace st' = trace st ∧ cache st' = cache st ∧
     privateState st' = privateState st ∧
     ∀ params wallet, sj_jobType params = jd_name def →
       submitJob params wallet st' ≠ (Err NotFoundError, st')).
Proof.
  intros st'. subst st'. unfold registerJobType. run_M. split.
  - by intros ->.
  - intros Hn. destruct (String.eqb_spec (jd_name def) ""); [done|]. simpl.
    split; [done|]. split; [apply lookup_insert_eq|].
    split; [intros name Hname; by rewrite lookup_insert_ne|].
    repeat (split; [done|]).
    intros params wallet Hty Hrun. apply submitJob_rejects_iff in Hrun.
    simpl in Hrun. by rewrite Hty, lookup_insert_eq in Hrun.
Qed.

End Status.

Section Invariants.

Context {node : NodeLib} {world : World}.

(** What one call does to the mock store, record by record. *)
Lemma store_step_records (c : Call) (st : State) :
  store (after c st) = store st ∨
  (∃ params wallet def commitment now,
     c = Call_submitJob params wallet ∧
     registry (confidentialCompute st) !! sj_jobType params = Some def ∧
     configured (provingServiceUrl (ccc_config (confidentialCompute st))) = None ∧
     let jobId := slice0 32 (hashCommitment (inr (commitment +:+ sj_owner params))) in
     store (after c st) =
       <[jobId := {| jr_id := jobId; jr_owner := sj_owner params;
                     jr_jobType := sj_jobType params;
                     jr_commitment := commitment; jr_status := PENDING;
                     jr_createdAt := now; jr_resultRef := None |}]> (store st)) ∨
  (∃ id env old,
     c = Call_setMockResult id env ∧ store st !! id = Some old ∧
     store (after c st) =
       <[id := {| jr_id := jr_id old; jr_owner := jr_owner old;
                  jr_jobType := jr_jobType old;
                  jr_commitment := jr_commitment old; jr_status := COMPLETED;
                  jr_createdAt := jr_createdAt old;
                  jr_resultRef := Some (mock_ref env) |}]> (store st)).
Proof.
  destruct (store_step_holds c st)
    as [H | [(params & wallet & id & r & -> & _ & _)
            | (id & env & old & r & -> & Hold & _ & _)]]; [by left|..].
  - unfold after, store.
    destruct (registry (confidentialCompute st) !! sj_jobType params)
      as [def|] eqn:Hreg.
    2:{ left. unfold submitJob. run_M. by rewrite Hreg. }
    rewrite (submitJob_run _ _ _ _ Hreg). simpl.
    pose proof (encryptPayload_clients (sj_input params)
                  (normalizeKey (sj_symmetricKeySeed params)) st) as [Hcc _].
    destruct (encryptPayload _ _ st) as [[enc|e] s0]; simpl in *;
      [|left; by rewrite Hcc].
    match goal with |- context [submitJob_onchain ?c ?w ?j ?cm ?t s0] =>
      pose proof (submitJob_onchain_clients c w j cm t s0) as [Hcc' _];
      destruct (submitJob_onchain c w j cm t s0) as [[sig|e] s1]
    end; simpl in *; [|left; congruence].
    destruct (configured (provingServiceUrl _)) as [base|] eqn:Hcfg; simpl.
    + left. congruence.
    + right; left. exists params, wallet, def. eexists _, _.
      split; [done|]. split; [done|]. split; [done|].
      simpl. by rewrite Hcc', Hcc.
  - right; right. exists id, env, old. split; [done|]. split; [done|].
    unfold after. by rewrite (setMockResult_run _ _ _ _ Hold).
Qed.

Lemma fresh_config (config : ZkPrimeConfig) (ps : PrivateStateClient)
    (t : list Event) (c : gmap string Connection) (calls : list Call) :
  ccc_config (confidentialCompute (after_all calls (fresh config ps t c))) = config.
Proof.
  apply (after_all_invariant (λ s, ccc_config (confidentialCompute s) = config));
    [|done].
  intros call s H. destruct (configs_fixed call s) as [_ Hc]. congruence.
Qed.

Lemma store_records_ok (config : ZkPrimeConfig) (ps : PrivateStateClient)
    (t : list Event) (c : gmap string Connection) (calls : list Call) :
  let st := after_all calls (fresh config ps t c) in
  ∀ k r, store st !! k = Some r →
    record_ok k r ∧
    is_Some (registry (confidentialCompute st) !! jr_jobType r) ∧
    configured (provingServiceUrl config) = None.
Proof.
  apply (after_all_invariant (λ s,
    ccc_config (confidentialCompute s) = config ∧
    ∀ k r, store s !! k = Some r →
      record_ok k r ∧
      is_Some (registry (confidentialCompute s) !! jr_jobType r) ∧
      configured (provingServiceUrl config) = None)).
  - intros call s [Hcfg Hinv].
    destruct (configs_fixed call s) as [_ Hc].
    split; [congruence|].
    assert (Hreg : ∀ name, is_Some (registry (confidentialCompute s) !! name) →
                           is_Some (registry (confidentialCompute (after call s)) !! name)).
    { intros name H.
      destruct (registry_step call s) as [-> | (def & _ & _ & ->)]; [done|].
      rewrite lookup_insert. by case_decide. }
    intros k r.
    destruct (store_step_records call s)
      as [-> | [(params & wallet & def & cm & now & -> & Hdef & Hnone & Hst)
               | (id & env & old & -> & Hold & ->)]].
    + intros Hr. destruct (Hinv k r Hr) as (? & ? & ?). auto.
    + cbv zeta in Hst. rewrite Hst, lookup_insert. case_decide as E.
      * intros [= <-]. subst k. split; [done|]. split; [|congruence].
        apply Hreg. simpl. by rewrite Hdef.
      * intros Hr. destruct (Hinv k r Hr) as (? & ? & ?). auto.
    + rewrite lookup_insert. case_decide as E.
      * intros [= <-]. subst k.
        destruct (Hinv id old Hold) as (Hok & Hty & Hno).
        split; [exact Hok|]. split; [|done]. by apply Hreg.
      * intros Hr. destruct (Hinv k r Hr) as (? & ? & ?). auto.
  - split; [done|]. intros k r. unfold store, fresh. simpl.
    by rewrite lookup_empty.
Qed.

(** X24. The records of the mock store.  On a client that started fresh,
    whatever calls were made, a record is filed under its own id, the id
    is the one derived from the record's commitment and owner, and its job
    type is registered.  Records exist only when no coordinator is
    configured: with one the mock store stays empty, and [_setMockResult]
    fails for every job id. *)
Theorem mock_store_records (config : ZkPrimeConfig) (ps : PrivateStateClient)
    (t : list Event) (c : gmap string Connection) (calls : list Call) :
  let st := after_all calls (fresh config ps t c) in
  (∀ k r, store st !! k = Some r →
     jr_id r = k ∧
     k = slice0 32 (hashCommitment (inr (jr_commitment r +:+ jr_owner r))) ∧
     is_Some (registry (confidentialCompute st) !! jr_jobType r)) ∧
  (∀ base, configured (provingServiceUrl config) = Some base →
     store st = ∅ ∧
     ∀ jobId env, _setMockResult jobId env st = (Err NotFoundError, st)).
Proof.
  intros st. pose proof (store_records_ok config ps t c calls) as H.
  fold st in H. simpl in H. split.
  - intros k r Hr. destruct (H k r Hr) as ([? ?] & ? & _). done.
  - intros base Hcfg.
    assert (He : store st = ∅).
    { apply map_eq. intros k. rewrite lookup_empty.
      destruct (store st !! k) as [r|] eqn:Hr; [|done].
      destruct (H k r Hr) as (_ & _ & Hn). congruence. }
    split; [done|]. intros jobId env.
    unfold _setMockResult. run_M. unfold store in He. by rewrite He, lookup_empty.
Qed.

(** X25. A job can get lost.  On a client with a coordinator configured
    [submitJob] keeps no record of the job; so if the coordinator cannot be
    reached when the status of the job just submitted is asked for,
    [getJobStatus] throws [NotFoundError]. *)
Theorem coordinator_outage (config : ZkPrimeConfig) (ps : PrivateStateClient)
    (t : list Event) (c : gmap string Connection) (calls : list Call)
    (params : SubmitJobParams) (wallet : option WalletAdapter) (base : string)
    (jobId : string) (sig : option string) (st1 : State) :
  let st := after_all calls (fresh config ps t c) in
  let req := job_status_request base jobId in
  configured (provingServiceUrl config) = Some base →
  submitJob params wallet st = (Ok (jobId, sig), st1) →
  fetch (trace st1) req = NetworkError →
  getJobStatus jobId st1
    = (Err NotFoundError, set_trace (trace st1 ++ [EvFetch req]) st1).
Proof.
  intros st req Hcfg Hsubmit Hfetch.
  assert (Hc : ccc_config (confidentialCompute st) = config)
    by apply fresh_config.
  assert (He : store st = ∅).
  { apply map_eq. intros k. rewrite lookup_empty.
    destruct (store st !! k) as [r|] eqn:Hr; [|done].
    destruct (store_records_ok config ps t c calls k r Hr) as (_ & _ & Hn).
    congruence. }
  assert (Hs1 : store st1 = ∅ ∧ ccc_config (confidentialCompute st1) = config).
  { destruct (store_step_records (Call_submitJob params wallet) st)
      as [H | [(p & w & def & cm & now & _ & _ & Hnone & _)
              | (id & env & old & [=] & _)]].
    - destruct (configs_fixed (Call_submitJob params wallet) st) as [_ H'].
      unfold after in H, H'. rewrite Hsubmit in H, H'. simpl in *.
      split; congruence.
    - congruence. }
  destruct Hs1 as [He1 Hc1].
  rewrite (getJobStatus_run jobId st1 base) by (by rewrite Hc1).
  fold req. rewrite Hfetch. simpl.
  apply mock_status_missing. simpl. unfold store in He1.
  by rewrite He1, lookup_empty.
Qed.

Lemma local_step (c : Call) (st : State) :
  unconfigured (psc_config (privateState st)) →
  unconfigured (ccc_config (confidentialCompute st)) →
  cache (after c st) = cache st ∧
  ∃ evs, trace (after c st) = trace st ++ evs ∧ forallb local_event evs = true.
Proof.
  intros (Hp1 & Hp2 & Hp3) (Hc1 & Hc2 & Hc3).
  destruct c; open_calls;
    repeat (case_match; simpl in *; simplify_eq; try congruence);
    (split; [done|]); simpl; rewrite <- ?app_assoc;
    first [by exists []; rewrite app_nil_r | by eexists].
Qed.

(** X26. A client that names no program and no service stays local.
    Whatever calls are made, the only calls that leave the SDK are draws
    of random bytes and looks at the clock: there is no request, no chain
    call, and no connection is ever created. *)
Theorem unconfigured_is_local (calls : list Call) (st : State) :
  unconfigured (psc_config (privateState st)) →
  unconfigured (ccc_config (confidentialCompute st)) →
  cache (after_all calls st) = cache st ∧
  ∃ evs, trace (after_all calls st) = trace st ++ evs ∧
         forallb local_event evs = true.
Proof.
  intros Hp Hc.
  apply (after_all_invariant (λ s,
    psc_config (privateState s) = psc_config (privateState st) ∧
    ccc_config (confidentialCompute s) = ccc_config (confidentialCompute st) ∧
    cache s = cache st ∧
    ∃ evs, trace s = trace st ++ evs ∧ forallb local_event evs = true)).
  - intros c s (Hps & Hcs & Hk & evs & Ht & Hl).
    destruct (configs_fixed c s) as [Hp' Hc'].
    destruct (local_step c s) as (Hk' & evs' & Ht' & Hl');
      [by rewrite Hps | by rewrite Hcs |].
    split; [congruence|]. split; [congruence|]. split; [congruence|].
    exists (evs ++ evs'). rewrite Ht', Ht, <- app_assoc. split; [done|].
    by rewrite forallb_app, Hl, Hl'.
  - split; [done|]. split; [done|]. split; [done|].
    exists []. by rewrite app_nil_r.
Qed.

End Invariants.

(** X27. Constructing the client.  [mergeConfig] hands on every option
    it is given, the program ids, the coordinator URL and the wallet
    included, and fills in the main-net endpoint only when the options
    have no [rpcEndpoint] property at all.  [new ZkPrimeClient(opts)] then
    returns a client whose two parts hold that one configuration, with the
    endpoint of the options or else the default and the four other options
    as they were given, and which starts with empty registries and an
    empty mock store.  An [rpcEndpoint] that is there but [undefined] or
    the empty string is not replaced by the default: the constructor
    throws [ConfigError]. *)
Theorem ZkPrimeClient_new_spec (opts : PartialConfig) (t : list Event)
    (c : gmap string Connection) :
  let started (endpoint : string) :=
    let config := {| rpcEndpoint := endpoint;
                     programId := opt_programId opts;
                     computeProgramId := opt_computeProgramId opts;
                     provingServiceUrl := opt_provingServiceUrl opts;
                     walletAdapter := opt_walletAdapter opts |} in
    {| trace := t; cache := c;
       privateState := {| psc_config := config; schemaRegistry := ∅ |};
       confidentialCompute :=
         {| ccc_config := config; registry := ∅; mockJobs := ∅ |} |} in
  (get_rpcEndpoint (mergeConfig opts)
     = match opt_rpcEndpoint opts with
       | Some v => v
       | None => Some DEFAULTS_rpcEndpoint
       end ∧
   opt_programId (mergeConfig opts) = opt_programId opts ∧
   opt_computeProgramId (mergeConfig opts) = opt_computeProgramId opts ∧
   opt_provingServiceUrl (mergeConfig opts) = opt_provingServiceUrl opts ∧
   opt_walletAdapter (mergeConfig opts) = opt_walletAdapter opts ∧
   mergeConfig (mergeConfig opts) = mergeConfig opts) ∧
  (opt_rpcEndpoint opts = None →
     ZkPrimeClient_new opts t c = Ok (started DEFAULTS_rpcEndpoint)) ∧
  (∀ e, opt_rpcEndpoint opts = Some (Some e) → e ≠ "" →
     ZkPrimeClient_new opts t c = Ok (started e)) ∧
  (opt_rpcEndpoint opts = Some None ∨ opt_rpcEndpoint opts = Some (Some "") →
     ZkPrimeClient_new opts t c = Err ConfigError).
Proof.
  intros started. subst started.
  unfold ZkPrimeClient_new, PrivateStateClient_new, mergeConfig, get_rpcEndpoint.
  simpl. split; [|split; [|split]].
  - repeat split; by destruct (opt_rpcEndpoint opts).
  - by intros ->.
  - intros e -> He. simpl. by destruct (String.eqb_spec e "").
  - by intros [-> | ->].
Qed.

(* ===================================================================== *)
(** * What leaves the process *)
(* ===================================================================== *)

Section Payloads.

Context {node : NodeLib} {world : World}.

Lemma send_instruction_ok (endpoint program : string) (data : bytes)
    (wa : WalletAdapter) (s s' : State) (sig : string) :
  send_instruction endpoint program data wa s = (Ok sig, s') →
  ∃ pk sign blockhash signed conn,
    publicKey wa = Some pk ∧ signTransaction wa = Some sign ∧
    getLatestBlockhash (trace s) conn = Ok blockhash ∧
    sign (unsigned_tx [wallet_instruction program pk data] pk blockhash)
      = Ok signed ∧
    sendRawTransaction (trace s ++ [EvGetLatestBlockhash conn]) conn signed
      = Ok sig ∧
    trace s' = trace s ++ [EvGetLatestBlockhash conn;
                           EvSendRawTransaction conn signed].
Proof.
  unfold send_instruction. run_M.
  destruct (getConnection endpoint s) as [[conn|e] s0] eqn:Hconn; [|done].
  destruct (getConnection_ok _ _ _ _ Hconn) as [c ->].
  unfold createInstruction. destruct (PublicKey_valid program); [|done].
  intros H.
  destruct (buildAndSendTransaction_ok conn (Some wa)
              [{| ix_programId := program; ix_keys := signer_key wa;
                  ix_data := data |}] [] (set_cache c s) s' sig H)
    as (wa' & pk & sign & bh & signed & [= <-] & Hpk
        & Hsign & Hbh & Hsig & Hsend & ->).
  simpl in *. unfold signer_key in Hsig. rewrite Hpk in Hsig.
  exists pk, sign, bh, signed, conn. repeat split; try done.
  by rewrite <- app_assoc.
Qed.

Lemma createState_chain_run (params : CreateStateParams) (wa : WalletAdapter)
    (st : State) (schema : PrivateSchema) (program : string) :
  schemaRegistry (privateState st) !! schemaId params = Some schema →
  configured (programId (psc_config (privateState st))) = Some program →
  createState params (Some wa) st =
    match encryptPayload (data params) (normalizeKey (symmetricKeySeed params)) st with
    | (Err e, s0) => (Err e, s0)
    | (Ok enc, s0) =>
        let commitment := hashCommitment (inl (ciphertext enc)) in
        match send_instruction (rpcEndpoint (psc_config (privateState st)))
                program (create_data commitment) wa s0 with
        | (Err e, s1) => (Err e, s1)
        | (Ok _, s1) =>
            (Ok ({| sh_id := slice0 32 (hashCommitment
                               (inr (commitment +:+ owner params)));
                    sh_commitment := commitment; sh_owner := owner params |},
                 enc), s1)
        end
    end.
Proof.
  intros Hs Hp. unfold createState, getSchema, send_instruction. run_M.
  rewrite Hs.
  pose proof (encryptPayload_clients (data params)
                (normalizeKey (symmetricKeySeed params)) st) as [_ Hps].
  destruct (encryptPayload _ _ st) as [[enc|e] s0]; [|done].
  simpl in Hps. rewrite Hps, Hp. unfold create_data.
  by repeat (case_match; simpl in *; simplify_eq).
Qed.

Lemma updateState_chain_run (params : UpdateStateParams) (wa : WalletAdapter)
    (st : State) (schema : PrivateSchema) (program : string) :
  schemaRegistry (privateState st) !! schemaId (up_base params) = Some schema →
  configured (programId (psc_config (privateState st))) = Some program →
  updateState params (Some wa) st =
    match encryptPayload (data (up_base params))
            (normalizeKey (symmetricKeySeed (up_base params))) st with
    | (Err e, s0) => (Err e, s0)
    | (Ok enc, s0) =>
        let commitment := hashCommitment (inl (ciphertext enc)) in
        match send_instruction (rpcEndpoint (psc_config (privateState st)))
                program (update_data (previousCommitment params) commitment)
                wa s0 with
        | (Err e, s1) => (Err e, s1)
        | (Ok _, s1) =>
            (Ok ({| sh_id := match stateId params with
                             | Some id => id
                             | None => slice0 32 (hashCommitment
                                 (inr (commitment +:+ owner (up_base params))))
                             end;
                    sh_commitment := commitment;
                    sh_owner := owner (up_base params) |}, enc), s1)
        end
    end.
Proof.
  intros Hs Hp. unfold updateState, getSchema, send_instruction. run_M.
  rewrite Hs.
  pose proof (encryptPayload_clients (data (up_base params))
                (normalizeKey (symmetricKeySeed (up_base params))) st) as [_ Hps].
  destruct (encryptPayload _ _ st) as [[enc|e] s0]; [|done].
  simpl in Hps. rewrite Hps, Hp. unfold update_data.
  by repeat (case_match; simpl in *; simplify_eq).
Qed.

Lemma submitJob_onchain_run (config : ZkPrimeConfig) (wa : WalletAdapter)
    (jobId commitment jobType : string) (s : State) (program : string) :
  configured (computeProgramId config) = Some program →
  submitJob_onchain config (Some wa) jobId commitment jobType s =
    match send_instruction (rpcEndpoint config) program
            (submit_job_data jobId commitment jobType) wa s with
    | (Err e, s1) => (Err e, s1)
    | (Ok sig, s1) => (Ok (Some sig), s1)
    end.
Proof.
  intros Hp. unfold submitJob_onchain, send_instruction. run_M. rewrite Hp.
  unfold submit_job_data.
  by repeat (case_match; simpl in *; simplify_eq).
Qed.

(** X28. What goes on chain.  When [createState], [updateState] or
    [submitJob] returns on a client with a program id and a wallet, one
    transaction went out, signed by the wallet, with one instruction for
    the configured program.  Its data names the operation and carries the
    commitment (with the previous commitment for an update; with the job
    id and type for a job): the ciphertext, the nonce, the tag and the
    data itself are not in it. *)
Theorem chain_sees_commitments (wa : WalletAdapter) (st st' : State)
    (program : string) :
  (∀ params h enc,
     configured (programId (psc_config (privateState st))) = Some program →
     createState params (Some wa) st = (Ok (h, enc), st') →
     ∃ sig, sent_signed wa
       (λ pk, wallet_instruction program pk (create_data (sh_commitment h)))
       [EvRandomBytes 12] st st' sig) ∧
  (∀ params h enc,
     configured (programId (psc_config (privateState st))) = Some program →
     updateState params (Some wa) st = (Ok (h, enc), st') →
     ∃ sig, sent_signed wa
       (λ pk, wallet_instruction program pk
                (update_data (previousCommitment params) (sh_commitment h)))
       [EvRandomBytes 12] st st' sig) ∧
  (∀ params jobId sig,
     configured (computeProgramId (ccc_config (confidentialCompute st)))
       = Some program →
     submitJob params (Some wa) st = (Ok (jobId, sig), st') →
     ∃ enc txSig s1 last,
       (encryptPayload (sj_input params)
          (normalizeKey (sj_symmetricKeySeed params)) st).1 = Ok enc ∧
       sig = Some txSig ∧
       sent_signed wa
         (λ pk, wallet_instruction program pk
                  (submit_job_data jobId (hashCommitment (inl (ciphertext enc)))
                     (sj_jobType params)))
         [EvRandomBytes 12] st s1 txSig ∧
       trace st' = trace s1 ++ [last]).
Proof.
  assert (Hsend : ∀ e data s0 s1 sig,
    trace s0 = trace st ++ [EvRandomBytes 12] →
    send_instruction e program data wa s0 = (Ok sig, s1) →
    sent_signed wa (λ pk, wallet_instruction program pk data)
      [EvRandomBytes 12] st s1 sig).
  { intros e data s0 s1 sig Ht H.
    destruct (send_instruction_ok _ _ _ _ _ _ _ H)
      as (pk & sign & bh & signed & conn & ? & ? & Hb & ? & Hs & Ht').
    rewrite Ht in Hb, Hs, Ht'. rewrite <- app_assoc in Hs, Ht'.
    by exists pk, sign, bh, signed, conn. }
  split; [|split].
  - intros params h enc Hp H.
    destruct (schemaRegistry (privateState st) !! schemaId params)
      as [schema|] eqn:Hs;
      [|unfold createState, getSchema in H; run_M; by rewrite Hs in H].
    rewrite (createState_chain_run _ _ _ _ _ Hs Hp) in H.
    destruct (encryptPayload _ _ st) as [[enc0|e] s0] eqn:E; [|done].
    destruct (encryptPayload_inv _ _ _ _ _ E) as (_ & _ & _ & _ & ->).
    simpl in H.
    destruct (send_instruction _ _ _ _ _) as [[sig|e] s1] eqn:Hrun; [|done].
    injection H as <- <- <-. exists sig. simpl.
    eapply Hsend; [|exact Hrun]. done.
  - intros params h enc Hp H.
    destruct (schemaRegistry (privateState st) !! schemaId (up_base params))
      as [schema|] eqn:Hs;
      [|unfold updateState, getSchema in H; run_M; by rewrite Hs in H].
    rewrite (updateState_chain_run _ _ _ _ _ Hs Hp) in H.
    destruct (encryptPayload _ _ st) as [[enc0|e] s0] eqn:E; [|done].
    destruct (encryptPayload_inv _ _ _ _ _ E) as (_ & _ & _ & _ & ->).
    simpl in H.
    destruct (send_instruction _ _ _ _ _) as [[sig|e] s1] eqn:Hrun; [|done].
    injection H as <- <- <-. exists sig. simpl.
    eapply Hsend; [|exact Hrun]. done.
  - intros params jobId sig Hp H.
    destruct (registry (confidentialCompute st) !! sj_jobType params)
      as [def|] eqn:Hreg;
      [|unfold submitJob in H; run_M; by rewrite Hreg in H].
    rewrite (submitJob_run _ _ _ _ Hreg) in H. simpl in H.
    destruct (encryptPayload _ _ st) as [[enc|e] s0] eqn:E; [|done].
    destruct (encryptPayload_inv _ _ _ _ _ E) as (_ & _ & _ & _ & ->).
    rewrite (submitJob_onchain_run _ _ _ _ _ _ _ Hp) in H.
    destruct (send_instruction _ _ _ _ _) as [[txSig|e] s1] eqn:Hrun; [|done].
    exists enc, txSig, s1.
    destruct (configured (provingServiceUrl _)) as [base|];
      injection H as <- <- <-; eexists; (split; [done|]); (split; [done|]);
      (split; [eapply Hsend; [|exact Hrun]; done | done]).
Qed.

(** X29. The coordinator path, end to end.  When [submitJob] has returned
    on a client with a coordinator, and the coordinator serves for the job
    the envelope that was made for it, [fetchResult] with the seed of the
    submission returns the input of the job, whatever the length of the
    seed. *)
Theorem coordinator_round_trip (params : SubmitJobParams)
    (wallet : option WalletAdapter) (st st1 : State) (base jobId : string)
    (sig : option string) :
  gcm_decrypts → JSON_round_trip → base64_round_trip →
  configured (provingServiceUrl (ccc_config (confidentialCompute st))) = Some base →
  JSON_serializable (sj_input params) = true →
  submitJob params wallet st = (Ok (jobId, sig), st1) →
  ∃ enc,
    (encryptPayload (sj_input params)
       (normalizeKey (sj_symmetricKeySeed params)) st).1 = Ok enc ∧
    ∀ status,
      fetch (trace st1) (job_result_request base jobId)
        = Response true status (Some (job_result_body enc)) →
      fetchResult jobId (sj_symmetricKeySeed params) st1
        = (Ok (sj_input params),
           set_trace (trace st1 ++ [EvFetch (job_result_request base jobId)]) st1).
Proof.
  intros Hdec Hjson Hb64 Hcfg HV Hsubmit.
  destruct (submitJob_inv _ _ _ _ _ _ Hsubmit) as (enc & Henc & _ & _).
  exists enc. rewrite Henc. split; [done|]. intros status Hfetch.
  destruct (configs_fixed (Call_submitJob params wallet) st) as [_ Hc].
  unfold after in Hc. rewrite Hsubmit in Hc. simpl in Hc.
  rewrite (fetchResult_coordinator_run jobId _ st1 base status enc Hb64);
    [|by rewrite Hc|done].
  f_equal.
  destruct (encryptPayload_inv _ _ _ _ _ Henc) as (HK & Halg & _ & Hseal & _).
  by apply (decryptPayload_sealed (sj_input params)).
Qed.

End Payloads.

(* ===================================================================== *)
(** * The model meets the laws *)
(* ===================================================================== *)

Module ModelLaws.

Import Model.

Lemma b64_index_char (n : nat) : (n < 64)%nat → b64_index (b64_char n) = n.
Proof. intros H. do 64 (destruct n as [|n]; [by vm_compute|]). lia. Qed.

Lemma b64_char_not_pad (n : nat) : (n < 64)%nat → is_pad (b64_char n) = false.
Proof. intros H. do 64 (destruct n as [|n]; [by vm_compute|]). lia. Qed.

Lemma byte_of_nat_of_byte (b : byte) : byte_of_nat (nat_of_byte b) = b.
Proof.
  unfold byte_of_nat, nat_of_byte. by rewrite N2Nat.id, Byte.of_to_N.
Qed.

Lemma nat_of_byte_bound (b : byte) : (nat_of_byte b < 256)%nat.
Proof. unfold nat_of_byte. pose proof (Byte.to_N_bounded b). lia. Qed.

Lemma decode64_encode64 (b : bytes) : decode64 (encode64 b) = b.
Proof.
  assert (H : ∀ (n : nat) (b : bytes), (length b ≤ n)%nat →
                decode64 (encode64 b) = b).
  { clear b. induction n as [|n IH]; intros b Hn.
    { destruct b; [done|simpl in Hn; lia]. }
    destruct b as [|x [|y [|z rest]]]; [done|..];
      pose proof (nat_of_byte_bound x) as Hx;
      try pose proof (nat_of_byte_bound y) as Hy;
      try pose proof (nat_of_byte_bound z) as Hz;
      cbn [encode64 decode64];
      rewrite ?b64_index_char, ?b64_char_not_pad by lia.
    - replace (is_pad "=") with true by done.
      replace (_ + _) with (nat_of_byte x) by lia.
      by rewrite byte_of_nat_of_byte.
    - replace (is_pad "=") with true by done.
      replace (nat_of_byte x / 4 * 4 + _) with (nat_of_byte x) by lia.
      replace (_ mod 16 * 16 + _) with (nat_of_byte y) by lia.
      by rewrite !byte_of_nat_of_byte.
    - replace (nat_of_byte x / 4 * 4 + _) with (nat_of_byte x) by lia.
      replace (_ mod 16 * 16 + _) with (nat_of_byte y) by lia.
      replace (_ mod 4 * 64 + _) with (nat_of_byte z) by lia.
      rewrite !byte_of_nat_of_byte, IH; [done|]. simpl in Hn. lia. }
  by apply (H (length b)).
Qed.

Lemma json_nested_ind (P : json → Prop) :
  P JNull → (∀ b, P (JBool b)) → (∀ n, P (JNum n)) → (∀ s, P (JStr s)) →
  (∀ l, Forall P l → P (JArr l)) →
  (∀ ps, Forall (λ p, P p.2) ps → P (JObj ps)) →
  ∀ v, P v.
Proof.
  intros Hnull Hbool Hnum Hstr Harr Hobj.
  exact (fix go (v : json) : P v :=
    match v with
    | JNull => Hnull
    | JBool b => Hbool b
    | JNum n => Hnum n
    | JStr s => Hstr s
    | JArr l =>
        Harr l ((fix all (l : list json) : Forall P l :=
                   match l with
                   | [] => @List.Forall_nil _ P
                   | x :: r => @List.Forall_cons _ P x r (go x) (all r)
                   end) l)
    | JObj ps =>
        Hobj ps ((fix all (l : list (string * json)) : Forall (λ p, P p.2) l :=
                    match l with
                    | [] => @List.Forall_nil _ _
                    | (key, x) :: r =>
                        @List.Forall_cons _ (λ p, P p.2) (key, x) r (go x) (all r)
                    end) ps)
    end).
Qed.

Lemma parse_print_chars (s : string) (k : list ascii) :
  parse_chars (print_chars s (quote :: k)) = Some (s, k).
Proof.
  induction s as [|c r IH]; [done|]. simpl.
  destruct (Ascii.eqb c quote) eqn:Eq.
  - apply Ascii.eqb_eq in Eq as ->. simpl. by rewrite IH.
  - destruct (Ascii.eqb c backslash) eqn:Eb; simpl.
    + apply Ascii.eqb_eq in Eb as ->. simpl. by rewrite IH.
    + by rewrite Eq, Eb, IH.
Qed.

Lemma read_print_uint (u : Decimal.uint) (k : list ascii) :
  closes k → read_uint (print_uint u k) = (u, k).
Proof.
  intros Hk. induction u; simpl; rewrite ?IHu; try done.
  destruct k as [|c k]; [done|]. simpl in *. by rewrite Hk.
Qed.

Lemma to_int_digits (n : Z) :
  ∃ u, u ≠ Decimal.Nil ∧
       (Z.to_int n = Decimal.Pos u ∨ Z.to_int n = Decimal.Neg u).
Proof.
  destruct n as [|p|p]; simpl.
  - exists (Decimal.D0 Decimal.Nil). by split; [|left].
  - exists (Pos.to_uint p). split; [apply DecimalPos.Unsigned.to_uint_nonnil|by left].
  - exists (Pos.to_uint p). split; [apply DecimalPos.Unsigned.to_uint_nonnil|by right].
Qed.

Lemma parse_print_int (fuel : nat) (n : Z) (k : list ascii) :
  closes k → parse_value (S fuel) (print_int n k) = Some (JNum n, k).
Proof.
  intros Hk. destruct (to_int_digits n) as (u & Hu & [E|E]).
  - unfold print_int. rewrite E.
    destruct u; [done|..]; cbn [print_uint];
      unfold parse_value, parse_int; simpl Ascii.eqb; cbv iota;
      cbn [read_uint digit]; rewrite (read_print_uint _ _ Hk);
      rewrite <- E, DecimalZ.of_to; done.
  - unfold print_int. rewrite E.
    unfold parse_value, parse_int; simpl Ascii.eqb; cbv iota.
    rewrite (read_print_uint _ _ Hk). rewrite <- E, DecimalZ.of_to.
    by destruct u.
Qed.


(** A value does not start with a closing bracket. *)
Lemma print_head (v : json) (k : list ascii) :
  ∃ c r, print v k = c :: r ∧ Ascii.eqb c "]" = false.
Proof.
  destruct v as [|[]|n|s|[|x l]|[|[key x] ps]]; try (by eexists _, _).
  destruct (to_int_digits n) as (u & Hu & [E|E]); simpl; unfold print_int;
    rewrite E; [|by eexists _, _].
  destruct u; try done; by eexists _, _.
Qed.

Lemma parse_print_elements (k : list ascii) (l : list json) :
  Forall (λ v, ∀ k (fuel : nat), closes k → (need v ≤ fuel)%nat →
                 parse_value fuel (print v k) = Some (v, k)) l →
  ∀ fuel : nat, (need_elements l ≤ fuel)%nat →
    parse_elements fuel (print_elements l k) = Some (l, k).
Proof.
  induction 1 as [|y r Hy _ IH]; intros fuel Hfuel.
  - destruct fuel; [simpl in Hfuel; lia|]. done.
  - destruct fuel; [simpl in Hfuel; lia|].
    change (need_elements (y :: r)) with (S (Nat.max (need y) (need_elements r)))
      in Hfuel.
    change (print_elements (y :: r) k)
      with (","%char :: print y (print_elements r k)).
    cbn [parse_elements]. simpl Ascii.eqb. cbv iota.
    rewrite Hy; [|by destruct r|lia]. rewrite IH; [done|lia].
Qed.

Lemma parse_print_members (k : list ascii) (l : list (string * json)) :
  Forall (λ p, ∀ k (fuel : nat), closes k → (need p.2 ≤ fuel)%nat →
                 parse_value fuel (print p.2 k) = Some (p.2, k)) l →
  ∀ fuel : nat, (need_members l ≤ fuel)%nat →
    parse_members fuel (print_members l k) = Some (l, k).
Proof.
  induction 1 as [|[key y] r Hy _ IH]; intros fuel Hfuel.
  - destruct fuel; [simpl in Hfuel; lia|]. done.
  - destruct fuel; [simpl in Hfuel; lia|].
    change (need_members ((key, y) :: r))
      with (S (Nat.max (S (need y)) (need_members r))) in Hfuel.
    change (print_members ((key, y) :: r) k)
      with (","%char :: print_string key
              (":"%char :: print y (print_members r k))).
    cbn [parse_members]. simpl Ascii.eqb. cbv iota.
    destruct fuel; [lia|].
    unfold print_string. cbn [parse_member]. simpl Ascii.eqb. cbv iota.
    rewrite parse_print_chars. simpl Ascii.eqb. cbv iota.
    simpl in Hy. rewrite Hy; [|by destruct r as [|[??]?]|lia].
    rewrite IH; [done|lia].
Qed.

Lemma parse_print (v : json) :
  ∀ k (fuel : nat), closes k → (need v ≤ fuel)%nat →
    parse_value fuel (print v k) = Some (v, k).
Proof.
  induction v as [|b|n|s|l IH|ps IH] using json_nested_ind; intros k fuel Hk Hfuel.
  - destruct fuel; [simpl in Hfuel; lia|]. done.
  - destruct fuel; [simpl in Hfuel; lia|]. by destruct b.
  - destruct fuel; [simpl in Hfuel; lia|]. by apply parse_print_int.
  - destruct fuel; [simpl in Hfuel; lia|].
    unfold print, print_string, parse_value. simpl Ascii.eqb. cbv iota.
    by rewrite parse_print_chars.
  - destruct fuel; [simpl in Hfuel; lia|].
    destruct l as [|x r]; [done|].
    apply Forall_cons in IH as [Hx Hr].
    change (need (JArr (x :: r)))
      with (S (S (Nat.max (need x) (need_elements r)))) in Hfuel.
    change (print (JArr (x :: r)) k)
      with ("["%char :: print x (print_elements r k)).
    cbn [parse_value]. simpl Ascii.eqb. cbv iota.
    destruct (print_head x (print_elements r k)) as (c & t & E & Hc).
    rewrite E, Hc, <- E.
    rewrite Hx; [|by destruct r|lia].
    rewrite (parse_print_elements k r Hr); [done|lia].
  - destruct fuel; [simpl in Hfuel; lia|].
    destruct ps as [|[key x] r]; [done|].
    apply Forall_cons in IH as [Hx Hr]. simpl in Hx.
    change (need (JObj ((key, x) :: r)))
      with (S (S (Nat.max (S (need x)) (need_members r)))) in Hfuel.
    change (print (JObj ((key, x) :: r)) k)
      with ("{"%char :: print_string key
              (":"%char :: print x (print_members r k))).
    cbn [parse_value]. simpl Ascii.eqb. cbv iota.
    unfold print_string at 1. simpl Ascii.eqb. cbv iota.
    fold (print_string key (":"%char :: print x (print_members r k))).
    destruct fuel; [lia|].
    unfold print_string. cbn [parse_member]. simpl Ascii.eqb. cbv iota.
    rewrite parse_print_chars. simpl Ascii.eqb. cbv iota.
    rewrite Hx; [|by destruct r as [|[??]?]|lia].
    rewrite (parse_print_members k r Hr); [done|lia].
Qed.


Lemma print_chars_length (s : string) (k : list ascii) :
  (length k ≤ length (print_chars s k))%nat.
Proof.
  induction s as [|c r IH]; simpl; [lia|].
  destruct (_ || _); simpl; lia.
Qed.

Lemma print_uint_length (u : Decimal.uint) (k : list ascii) :
  u ≠ Decimal.Nil → (S (length k) ≤ length (print_uint u k))%nat.
Proof.
  assert (H : ∀ u, (length k ≤ length (print_uint u k))%nat).
  { clear u. induction u; simpl; lia. }
  intros Hu. destruct u; [done|..]; simpl; specialize (H u); lia.
Qed.

Lemma need_le_length (v : json) :
  ∀ k, (need v + length k ≤ length (print v k))%nat.
Proof.
  induction v as [|b|n|s|l IH|ps IH] using json_nested_ind; intros k.
  - simpl. lia.
  - destruct b; simpl; lia.
  - destruct (to_int_digits n) as (u & Hu & [E|E]);
      pose proof (print_uint_length u k Hu); simpl; unfold print_int;
      rewrite E; simpl; lia.
  - simpl. pose proof (print_chars_length s (quote :: k)). simpl in *. lia.
  - assert (Htail : ∀ r, Forall (λ v, ∀ k, (need v + length k ≤ length (print v k))%nat) r →
              (need_elements r + length k ≤ length (print_elements r k))%nat).
    { induction 1 as [|y r Hy _ IHr]; [simpl; lia|].
      change (need_elements (y :: r)) with (S (Nat.max (need y) (need_elements r))).
      change (print_elements (y :: r) k)
        with (","%char :: print y (print_elements r k)).
      specialize (Hy (print_elements r k)). simpl. lia. }
    destruct l as [|x r]; [simpl; lia|].
    apply Forall_cons in IH as [Hx Hr].
    change (need (JArr (x :: r)))
      with (S (S (Nat.max (need x) (need_elements r)))).
    change (print (JArr (x :: r)) k)
      with ("["%char :: print x (print_elements r k)).
    specialize (Hx (print_elements r k)). specialize (Htail r Hr).
    assert (1 ≤ need x)%nat by (destruct x; simpl; lia).
    assert (1 ≤ need_elements r)%nat by (destruct r; simpl; lia).
    simpl. lia.
  - assert (Htail : ∀ r, Forall (λ p : string * json,
                ∀ k, (need p.2 + length k ≤ length (print p.2 k))%nat) r →
              (need_members r + length k ≤ length (print_members r k))%nat).
    { induction 1 as [|[key y] r Hy _ IHr]; [simpl; lia|].
      change (need_members ((key, y) :: r))
        with (S (Nat.max (S (need y)) (need_members r))).
      change (print_members ((key, y) :: r) k)
        with (","%char :: print_string key
                (":"%char :: print y (print_members r k))).
      specialize (Hy (print_members r k)). simpl in Hy.
      pose proof (print_chars_length key
                    (quote :: ":"%char :: print y (print_members r k))).
      unfold print_string. simpl in *. lia. }
    destruct ps as [|[key x] r]; [simpl; lia|].
    apply Forall_cons in IH as [Hx Hr]. simpl in Hx.
    change (need (JObj ((key, x) :: r)))
      with (S (S (Nat.max (S (need x)) (need_members r)))).
    change (print (JObj ((key, x) :: r)) k)
      with ("{"%char :: print_string key
              (":"%char :: print x (print_members r k))).
    specialize (Hx (print_members r k)). specialize (Htail r Hr).
    pose proof (print_chars_length key
                  (quote :: ":"%char :: print x (print_members r k))).
    unfold print_string. simpl in *. lia.
Qed.

Lemma parse_text_stringify (v : json) : parse_text (stringify v) = Some v.
Proof.
  unfold parse_text, stringify.
  rewrite list_ascii_of_string_of_list_ascii.
  rewrite parse_print; [done|done|].
  pose proof (need_le_length v []). lia.
Qed.

Lemma sha256_digest_length (b : bytes) : length (sha256_digest b) = 32.
Proof. unfold sha256_digest. by rewrite !length_app. Qed.

Lemma xor_byte_involutive (a b : byte) : xor_byte a (xor_byte a b) = b.
Proof.
  unfold xor_byte.
  destruct (Byte.to_bits a) as (a0 & a1 & a2 & a3 & a4 & a5 & a6 & a7).
  destruct (Byte.to_bits b) as (b0 & b1 & b2 & b3 & b4 & b5 & b6 & b7) eqn:Eb.
  rewrite Byte.to_bits_of_bits, <- (Byte.of_bits_to_bits b), Eb.
  assert (Hx : ∀ x y, xorb x (xorb x y) = y) by (by intros [] []).
  by rewrite !Hx.
Qed.

Lemma xor_stream_involutive (mask data : bytes) :
  ∀ i, xor_stream mask i (xor_stream mask i data) = data.
Proof.
  induction data as [|b rest IH]; intros i; simpl; [done|].
  by rewrite xor_byte_involutive, IH.
Qed.

Lemma xor_stream_inj (mask a b : bytes) (i : nat) :
  xor_stream mask i a = xor_stream mask i b → a = b.
Proof.
  intros H. rewrite <- (xor_stream_involutive mask a i), H.
  apply xor_stream_involutive.
Qed.

Lemma seal_inv (key nonce pt ct t : bytes) :
  seal key nonce pt = Some (ct, t) →
  usable key nonce = true ∧
  ct = xor_stream (sha256_digest (key ++ nonce)) 0 pt ∧
  t = tag_of key nonce ct.
Proof.
  unfold seal. destruct (usable key nonce); [|done]. by intros [= <- <-].
Qed.

Lemma open_rejects (key nonce ct t : bytes) :
  t ≠ tag_of key nonce ct → open key nonce ct t = None.
Proof.
  intros H. unfold open. rewrite bool_decide_eq_false_2 by done.
  by rewrite andb_false_r.
Qed.

Lemma model_sha256_length : sha256_length (node := node).
Proof. intros b. apply sha256_digest_length. Qed.

Lemma model_gcm_encrypts : gcm_encrypts (node := node).
Proof.
  intros k n pt Hk Hn. change (is_Some (seal k n pt)).
  unfold seal, usable. rewrite Hk, Hn. by eexists.
Qed.

Lemma model_gcm_decrypts : gcm_decrypts (node := node).
Proof.
  intros k n pt ct t H. change (seal k n pt = Some (ct, t)) in H.
  change (open k n ct t = Some pt).
  destruct (seal_inv _ _ _ _ _ H) as (Hu & -> & ->).
  unfold open. rewrite Hu, bool_decide_eq_true_2 by done.
  by rewrite xor_stream_involutive.
Qed.

Lemma model_gcm_authenticates : gcm_authenticates (node := node).
Proof.
  intros k n pt ct t H i. change (seal k n pt = Some (ct, t)) in H.
  change ((i < 8 * length n → open k (flip_bit i n) ct t = None) ∧
          (i < 8 * length ct → open k n (flip_bit i ct) t = None) ∧
          (i < 8 * length t → open k n ct (flip_bit i t) = None)).
  destruct (seal_inv _ _ _ _ _ H) as (_ & _ & Ht).
  repeat split; intros Hi; apply open_rejects; rewrite Ht.
  - intros E. apply xor_stream_inj, app_inv_tail in E.
    symmetry in E. by apply flip_bit_neq in E.
  - intros E. apply xor_stream_inj, app_inv_head in E.
    symmetry in E. by apply flip_bit_neq in E.
  - intros E. rewrite <- Ht in E. by apply flip_bit_neq in E.
Qed.

Lemma model_JSON_round_trip : JSON_round_trip (node := node).
Proof. intros v _. apply parse_text_stringify. Qed.

Lemma model_JSON_rejects_empty : JSON_rejects_empty (node := node).
Proof. by vm_compute. Qed.

Lemma model_base64_round_trip : base64_round_trip (node := node).
Proof. intros b. apply decode64_encode64. Qed.

Lemma model_base64_decodes_empty : base64_decodes_empty (node := node).
Proof. by vm_compute. Qed.

Lemma model_randomBytes_length (coordinator : Request → FetchOutcome) :
  randomBytes_length (world := world coordinator).
Proof.
  intros t n.
  change (length (map (λ i, nth (i mod 32)
                         (sha256_digest [byte_of_nat (length t)]) x00)
                      (seq 0 n)) = n).
  by rewrite length_map, length_seq.
Qed.

End ModelLaws.

(* ===================================================================== *)
(** * The statements at concrete inputs *)
(* ===================================================================== *)

Module Witness.

Import Model ModelLaws Sample.

(** SHA-256 of ["abc"], as FIPS 180-4 lists it. *)
Example sha256_abc :
  hashCommitment (node := node) (inr "abc")
  = "ba7816bf8f01cfea414140de5dae2223b00361a396177a9cb410ff61f20015ad".
Proof. by vm_compute. Qed.

Example base64_sample :
  base64_encode (NodeLib := node) (list_byte_of_string "Many hands")
  = "TWFueSBoYW5kcw==".
Proof. by vm_compute. Qed.

Example stringify_sample :
  list_byte_of_string (JSON_stringify (NodeLib := node)
    (JObj [("n", JNum (-7)); ("l", JArr [JNull; JBool true])]))
  = [x7b; x22; x6e; x22; x3a; x2d; x37; x2c; x22; x6c; x22; x3a; x5b;
     x6e; x75; x6c; x6c; x2c; x74; x72; x75; x65; x5d; x7d].
Proof. by vm_compute. Qed.

(** Scenario 6 of the spec: with no program id, [createState] returns a
    handle with a 32-character id and makes no chain call. *)
Example createState_offline :
  let st := (defineSchema balance_schema (client None)).2 in
  ∃ h enc st',
    createState (node := node) (world := offline) balance_state None st
      = (Ok (h, enc), st') ∧
    String.length (sh_id h) = 32 ∧
    trace st' = [EvRandomBytes 12].
Proof. eexists _, _, _. split; [by vm_compute|]. by vm_compute. Qed.

(** [normalizeKey] hashes a seed of six bytes and keeps one of 32. *)
Example normalizeKey_samples :
  toHex (normalizeKey (node := node) (list_byte_of_string "seed-1"))
    = "0eb026731d9ea3f870511f8c18daeb814eaa2c9e276082b204f2a962212fb5bd" ∧
  normalizeKey (node := node) zero_key = zero_key.
Proof. by vm_compute. Qed.

(** The mock flow of tests/confidentialCompute.test.ts, run. *)
Example submitJob_offline :
  let '(r, st1) := submitJob (node := node) (world := offline) job None registered in
  r = Ok ("f00ca28240232453b572e92f6dd18436", None) ∧
  (getJobStatus (world := offline) "f00ca28240232453b572e92f6dd18436" st1).1
    = Ok (JStr "PENDING").
Proof. by vm_compute. Qed.

(** One inverted bit of the tag, or of the ciphertext, is noticed. *)
Example tamper_samples :
  match (encryptPayload (node := node) (world := offline)
           balance zero_key (client None)).1 with
  | Ok env =>
      decryptPayload (node := node) env zero_key = Ok balance ∧
      decryptPayload (node := node) (tamper Field_tag 0 env) zero_key
        = Err CryptoError ∧
      decryptPayload (node := node) (tamper Field_ciphertext 9 env) zero_key
        = Err CryptoError
  | Err _ => False
  end.
Proof. vm_compute. by repeat split. Qed.

Lemma encrypt_decrypt_round_trip_witness :
  ∃ env st',
    encryptPayload (node := node) (world := offline) balance zero_key (client None)
      = (Ok env, st') ∧
    decryptPayload (node := node) env zero_key = Ok balance.
Proof.
  apply (encrypt_decrypt_round_trip (node := node) (world := offline)
           zero_key balance (client None)
           model_gcm_encrypts model_gcm_decrypts model_JSON_round_trip
           (model_randomBytes_length _));
    reflexivity.
Defined.

Lemma envelope_errors_witness :
  ∃ env st',
    encryptPayload (node := node) (world := offline) balance zero_key (client None)
      = (Ok env, st') ∧
    decryptPayload (node := node) env zero_key = Ok balance ∧
    ∀ f i, i < 8 * length (field_bytes f env) →
      decryptPayload (node := node) (tamper f i env) zero_key = Err CryptoError.
Proof.
  apply (envelope_errors (node := node) (world := offline)
           model_gcm_encrypts model_gcm_decrypts model_gcm_authenticates
           model_JSON_round_trip (model_randomBytes_length _));
    reflexivity.
Defined.

Lemma submitJob_unregistered_witness :
  submitJob (node := node) (world := offline) job None (client None)
  = (Err NotFoundError, client None).
Proof. apply submitJob_unregistered. reflexivity. Defined.

Lemma mock_job_lifecycle_witness :
  ∃ jobId txSig st1 env st2 st3,
    submitJob (node := node) (world := offline) job None registered
      = (Ok (jobId, txSig), st1) ∧
    getJobStatus (world := offline) jobId st1 = (Ok (JStr "PENDING"), st1) ∧
    encryptPayload (node := node) (world := offline) balance
        (deriveKeyFromSeed (node := node) zero_key) st1 = (Ok env, st2) ∧
    _setMockResult (node := node) jobId env st2 = (Ok tt, st3) ∧
    getJobStatus (world := offline) jobId st3 = (Ok (JStr "COMPLETED"), st3) ∧
    fetchResult (node := node) (world := offline) jobId zero_key st3
      = (Ok balance, st3).
Proof.
  apply (mock_job_lifecycle (node := node) (world := offline)
           job None registered score balance zero_key
           model_sha256_length model_gcm_encrypts model_gcm_decrypts
           (model_randomBytes_length _) model_JSON_round_trip
           model_JSON_rejects_empty model_base64_round_trip
           model_base64_decodes_empty).
  - reflexivity.
  - reflexivity.
  - intros id c s. by eexists _, _.
  - reflexivity.
Defined.

Lemma fetchResult_key_divergence_witness :
  length zero_key = 32 ∧
  deriveKeyFromSeed (node := node) zero_key ≠ zero_key ∧
  normalizeKey (node := node) zero_key = zero_key ∧
  normalizeKey (node := node) zero_key ≠ deriveKeyFromSeed (node := node) zero_key.
Proof.
  assert (H : deriveKeyFromSeed (node := node) zero_key ≠ zero_key)
    by (by vm_compute).
  split; [reflexivity|]. split; [exact H|].
  apply (fetchResult_key_divergence (node := node) (world := offline)
           model_JSON_round_trip model_JSON_rejects_empty
           model_base64_round_trip model_base64_decodes_empty);
    [reflexivity | exact H].
Defined.

Lemma getJobStatus_default_pending_witness :
  let body := JObj [("state", JStr "RUNNING")] in
  getJobStatus (world := answering body) "job-1" (client (Some coordinator_url))
  = (Ok (JStr "PENDING"),
     set_trace [EvFetch (job_status_request coordinator_url "job-1")]
       (client (Some coordinator_url))).
Proof.
  intros body.
  apply (getJobStatus_default_pending (world := answering body) "job-1"
           (client (Some coordinator_url)) coordinator_url 200 body);
    [reflexivity | reflexivity | reflexivity | discriminate].
Defined.

(** C10 as stated fails: the coordinator answers 200 with the body
    [null], which has no truthy [status]; [getJobStatus] then throws
    [NotFoundError] for a job that was never submitted, where the claim has
    it return ["PENDING"]. *)
Lemma getJobStatus_null_body :
  let st := client (Some coordinator_url) in
  configured (provingServiceUrl (ccc_config (confidentialCompute st)))
    = Some coordinator_url ∧
  fetch (World := answering JNull) (trace st)
      (job_status_request coordinator_url "never-submitted")
    = Response true 200 (Some JNull) ∧
  has_truthy_status JNull = false ∧
  (getJobStatus (world := answering JNull) "never-submitted" st).1
    = Err NotFoundError.
Proof. by vm_compute. Qed.

(** ** Further statements at concrete inputs *)

Import Sample2.

(** A seed of six bytes and its hash stand for the same key. *)
Lemma normalizeKey_idempotent_witness :
  let s := list_byte_of_string "seed-1" in
  length (normalizeKey (node := node) s) = 32 ∧
  normalizeKey (node := node) (normalizeKey (node := node) s)
    = normalizeKey (node := node) s ∧
  (length s ≠ 32 →
   normalizeKey (node := node) (deriveKeyFromSeed (node := node) s)
     = normalizeKey (node := node) s) ∧
  (∀ enc, decryptWithSeed (node := node) enc (normalizeKey (node := node) s)
          = decryptWithSeed (node := node) enc s).
Proof.
  exact (normalizeKey_idempotent (node := node) (list_byte_of_string "seed-1")
           model_sha256_length).
Defined.

(** The memo of the record is not in the serialized text. *)
Lemma serializeRecord_filters_witness :
  ∃ kept,
    JSON_parse (NodeLib := node)
      (toString_utf8 (serializeRecord (node := node) balance_schema balance_record))
      = Some (JObj kept) ∧
    kept `sublist_of` balance_record ∧
    (∀ k v, (k, v) ∈ kept ↔
       (k, v) ∈ balance_record ∧ k ∈ map sf_name (ps_fields balance_schema)
       ∧ k ≠ "__proto__") ∧
    serializeRecord (node := node) balance_schema kept
      = serializeRecord (node := node) balance_schema balance_record ∧
    (Forall (λ e, e.1 ∈ map sf_name (ps_fields balance_schema) ∧ e.1 ≠ "__proto__")
       balance_record → kept = balance_record).
Proof.
  apply (serializeRecord_filters (node := node) balance_schema balance_record
           model_JSON_round_trip).
  reflexivity.
Defined.

Example serializeRecord_sample :
  serializeRecord (node := node) balance_schema balance_record
  = Buffer_from_utf8 (JSON_stringify (NodeLib := node) balance).
Proof. by vm_compute. Qed.

Example validateSchema_samples :
  validateSchema balance_schema = Ok true ∧
  validateSchema {| ps_id := ""; ps_name := "Balance";
                    ps_fields := ps_fields balance_schema |} = Ok true ∧
  validateSchema {| ps_id := "s2"; ps_name := "Nameless";
                    ps_fields := [{| sf_name := ""; sf_type := T_u64 |}] |}
    = Err JSError ∧
  (defineSchema {| ps_id := "s2"; ps_name := "Nameless";
                   ps_fields := [{| sf_name := ""; sf_type := T_u64 |}] |}
     (client None)).1
    = Ok {| ps_id := "s2"; ps_name := "Nameless";
            ps_fields := [{| sf_name := ""; sf_type := T_u64 |}] |}.
Proof. by vm_compute. Qed.

Lemma unknown_schema_witness :
  createState (node := node) (world := offline) balance_state None (client None)
    = (Err NotFoundError, client None) ∧
  ∀ id prev,
    updateState (node := node) (world := offline)
      {| up_base := balance_state; stateId := id; previousCommitment := prev |}
      None (client None)
    = (Err NotFoundError, client None).
Proof.
  apply (unknown_schema (node := node) (world := offline) balance_state None
           (client None)).
  reflexivity.
Defined.

Lemma state_round_trip_witness :
  (∀ h enc st',
     createState (node := node) (world := offline) balance_state None defined
       = (Ok (h, enc), st') ∨
     updateState (node := node) (world := offline) balance_update None defined
       = (Ok (h, enc), st') →
     decryptWithSeed (node := node) enc zero_key = Ok balance) ∧
  (configured (programId (psc_config (privateState defined))) = None
   ∨ (None : option WalletAdapter) = None →
   let st' := set_trace (trace defined ++ [EvRandomBytes 12]) defined in
   ∃ h enc,
     createState (node := node) (world := offline) balance_state None defined
       = (Ok (h, enc), st') ∧
     updateState (node := node) (world := offline) balance_update None defined
       = (Ok ({| sh_id := default (sh_id h) (stateId balance_update);
                 sh_commitment := sh_commitment h;
                 sh_owner := sh_owner h |}, enc), st')).
Proof.
  apply (state_round_trip (node := node) (world := offline) balance_update None
           defined balance_schema
           model_sha256_length model_gcm_encrypts model_gcm_decrypts
           model_JSON_round_trip (model_randomBytes_length _));
    reflexivity.
Defined.

Lemma handle_commitment_verifies_witness :
  match createState (node := node) (world := offline) balance_state None defined with
  | (Ok (h, enc), _) =>
      verifyCommitment (node := node) (ciphertext enc) (sh_commitment h) = true
  | _ => False
  end.
Proof.
  destruct (createState (node := node) (world := offline) balance_state None defined)
    as [[[h enc]|e] st'] eqn:E; [|by vm_compute in E].
  apply (handle_commitment_verifies (node := node) (world := offline)
           None defined st' h enc).
  left. by exists balance_state.
Defined.

Lemma connection_cache_witness :
  let st' := set_cache {[ endpoint := connection_to endpoint ]} (client None) in
  getConnection (node := node) endpoint st' = (Ok (connection_to endpoint), st') ∧
  cache st' !! endpoint = Some (connection_to endpoint).
Proof.
  intros st'.
  destruct (connection_cache (node := node) (world := offline) endpoint
              (client None) st' (connection_to endpoint) eq_refl)
    as (H1 & H2 & _).
  by split.
Defined.

(** A status that is none of the four is passed on. *)
Lemma getJobStatus_coordinator_witness :
  let body := JObj [("status", JStr "QUEUED")] in
  getJobStatus (world := answering body) "job-1" (client (Some coordinator_url))
  = (Ok (JStr "QUEUED"),
     set_trace [EvFetch (job_status_request coordinator_url "job-1")]
       (client (Some coordinator_url))).
Proof.
  intros body.
  destruct (getJobStatus_coordinator (world := answering body) "job-1"
              (client (Some coordinator_url)) coordinator_url eq_refl)
    as [H _].
  apply (H 200%Z body (JStr "QUEUED")); reflexivity.
Defined.

(** The job submitted while the coordinator is down is not found. *)
Lemma coordinator_outage_witness :
  match submitJob (node := node) (world := offline) job None
          registered_with_coordinator with
  | (Ok (jobId, _), st1) =>
      (getJobStatus (world := offline) jobId st1).1 = Err NotFoundError
  | _ => False
  end.
Proof.
  destruct (submitJob (node := node) (world := offline) job None
              registered_with_coordinator) as [[[jobId sig]|e] st1] eqn:E;
    [|by vm_compute in E].
  rewrite (coordinator_outage (node := node) (world := offline)
             (config (Some coordinator_url))
             {| psc_config := config (Some coordinator_url); schemaRegistry := ∅ |}
             [] ∅ [Call_registerJobType score] job None coordinator_url
             jobId sig st1 eq_refl E eq_refl).
  reflexivity.
Defined.

Lemma unconfigured_is_local_witness :
  let calls := [Call_registerJobType score; Call_submitJob job None;
                Call_defineSchema balance_schema;
                Call_createState balance_state None;
                Call_getStateCommitment "state-7"] in
  cache (after_all (node := node) (world := offline) calls (client None)) = ∅ ∧
  ∃ evs,
    trace (after_all (node := node) (world := offline) calls (client None))
      = [] ++ evs ∧
    forallb local_event evs = true.
Proof.
  intros calls.
  apply (unconfigured_is_local (node := node) (world := offline) calls (client None));
    by repeat split.
Defined.

Example unconfigured_trace :
  trace (after_all (node := node) (world := offline)
           [Call_registerJobType score; Call_submitJob job None;
            Call_defineSchema balance_schema;
            Call_createState balance_state None] (client None))
  = [EvRandomBytes 12; EvDateNow; EvRandomBytes 12].
Proof. by vm_compute. Qed.

(** With a program id and a wallet, [createState] sends one transaction. *)
Example createState_onchain :
  match createState (node := node) (world := offline) balance_state (Some wallet)
          chain_client with
  | (Ok (h, _), st') =>
      ∃ tx, trace st' = [EvRandomBytes 12;
                         EvGetLatestBlockhash (connection_to endpoint);
                         EvSendRawTransaction (connection_to endpoint) tx] ∧
            map ix_data (tx_instructions tx)
              = [create_data (node := node) (sh_commitment h)] ∧
            tx_signers tx = [wallet_key]
  | _ => False
  end.
Proof. vm_compute. eexists. by repeat split. Qed.

Lemma chain_sees_commitments_witness :
  match createState (node := node) (world := offline) balance_state (Some wallet)
          chain_client with
  | (Ok (h, _), st') =>
      ∃ sig, sent_signed (world := offline) wallet
               (λ pk, wallet_instruction program pk
                        (create_data (node := node) (sh_commitment h)))
               [EvRandomBytes 12] chain_client st' sig
  | _ => False
  end.
Proof.
  destruct (createState (node := node) (world := offline) balance_state
              (Some wallet) chain_client) as [[[h enc]|e] st'] eqn:E;
    [|by vm_compute in E].
  destruct (chain_sees_commitments (node := node) (world := offline)
              wallet chain_client st' program) as (H & _).
  by apply (H balance_state h enc eq_refl E).
Defined.

(** The coordinator hands back the envelope of the job: the input comes
    out again. *)
Lemma coordinator_round_trip_witness :
  match submitJob (node := node) (world := echoing) job None
          registered_with_coordinator with
  | (Ok (jobId, _), st1) =>
      (fetchResult (node := node) (world := echoing) jobId
         (sj_symmetricKeySeed job) st1).1 = Ok (sj_input job)
  | _ => False
  end.
Proof.
  destruct (submitJob (node := node) (world := echoing) job None
              registered_with_coordinator) as [[[jobId sig]|e] st1] eqn:E;
    [|by vm_compute in E].
  destruct (coordinator_round_trip (node := node) (world := echoing)
              job None registered_with_coordinator st1 coordinator_url jobId sig
              model_gcm_decrypts model_JSON_round_trip model_base64_round_trip
              eq_refl eq_refl E) as (enc & Henc & Hfetch).
  assert (Heq : enc = job_envelope).
  { vm_compute in Henc. by injection Henc as <-. }
  subst enc. by rewrite (Hfetch 200%Z eq_refl).
Defined.

(** Without a proving service the proof is the mock one; with a service
    that leaves the proof out, nothing is noticed. *)
Example generateProof_samples :
  (generateProof (node := node) (world := offline) "state-7" job_envelope "transfer"
     (client None)).1 = Ok (mock_proof "state-7") ∧
  (generateProof (node := node) (world := answering (JObj [])) "state-7"
     job_envelope "transfer" (client (Some coordinator_url))).1
    = Ok {| proof := None; publicInputs := JObj [] |} ∧
  (generateProof (node := node) (world := offline) "state-7" job_envelope "transfer"
     (client (Some coordinator_url))).1 = Err JSError.
Proof. by vm_compute. Qed.

(** No options: the main-net endpoint.  An endpoint set to [undefined] or
    to the empty string: no client. *)
Example ZkPrimeClient_new_samples :
  let opts (endpoint : option (option string)) :=
    {| opt_rpcEndpoint := endpoint; opt_programId := Some program;
       opt_computeProgramId := None;
       opt_provingServiceUrl := Some coordinator_url;
       opt_walletAdapter := Some wallet |} in
  (∃ st, ZkPrimeClient_new (opts None) [] ∅ = Ok st ∧
     psc_config (privateState st)
       = {| rpcEndpoint := "https://api.mainnet-beta.solana.com";
            programId := Some program; computeProgramId := None;
            provingServiceUrl := Some coordinator_url;
            walletAdapter := Some wallet |} ∧
     ccc_config (confidentialCompute st) = psc_config (privateState st)) ∧
  ZkPrimeClient_new (opts (Some None)) [] ∅ = Err ConfigError ∧
  ZkPrimeClient_new (opts (Some (Some ""))) [] ∅ = Err ConfigError.
Proof. split; [by eexists|done]. Qed.

(** [submitProof] on the client with a program id: the wallet signs and
    the answer of the chain comes back. *)
Lemma submitProof_spec_witness :
  match submitProof (node := node) (world := offline) "state-7"
          (mock_proof "state-7") (Some wallet) chain_client with
  | (Ok sig, st') =>
      ∃ signed conn,
        tx_signers signed = [wallet_key] ∧
        map ix_data (tx_instructions signed)
          = [submit_proof_data (node := node) "state-7" (mock_proof "state-7")] ∧
        trace st' = [EvGetLatestBlockhash conn; EvSendRawTransaction conn signed]
  | _ => False
  end.
Proof.
  destruct (submitProof (node := node) (world := offline) "state-7"
              (mock_proof "state-7") (Some wallet) chain_client)
    as [[sig|e] st'] eqn:E; [|by vm_compute in E].
  destruct (submitProof_spec (node := node) (world := offline) "state-7"
              (mock_proof "state-7") (Some wallet) chain_client) as [_ H].
  destruct (H sig st' E)
    as (prog & wa & pk & sign & bh & signed & conn & _ & [= <-] & [= <-]
        & [= <-] & _ & _ & Hsig & _ & Ht).
  exists signed, conn. injection Hsig as <-. by repeat split.
Defined.

(** A job type, once registered, is accepted. *)
Example job_registry_sample :
  (registerJobType score (client None)).1 = Ok score ∧
  (registerJobType
     {| jd_name := ""; jd_version := None; jd_description := None;
        jd_inputSchema := None; jd_outputSchema := None |} (client None)).1
    = Err JSError ∧
  registry (confidentialCompute registered) !! "score" = Some score.
Proof. by vm_compute. Qed.

(** The ids of the state and of the job made on the offline clients. *)
Lemma id_derivation_witness :
  (∃ enc,
     createState (node := node) (world := offline) balance_state None defined
     = (Ok ({| sh_id := slice0 32 (hashCommitment (node := node)
                 (inr (hashCommitment (node := node) (inl (ciphertext enc))
                       +:+ "ownerA")));
               sh_commitment := hashCommitment (node := node)
                                  (inl (ciphertext enc));
               sh_owner := "ownerA" |}, enc),
        set_trace [EvRandomBytes 12] defined)) ∧
  (∃ enc st',
     submitJob (node := node) (world := offline) job None registered
     = (Ok (slice0 32 (hashCommitment (node := node)
              (inr (hashCommitment (node := node) (inl (ciphertext enc))
                    +:+ "owner1"))), None), st')).
Proof.
  destruct (id_derivation (node := node) (world := offline)
              model_sha256_length model_gcm_encrypts (model_randomBytes_length _))
    as (Hstate & Hjob & _).
  split.
  - destruct (Hstate balance_state None defined balance_schema eq_refl
                (or_intror eq_refl)) as (enc & _ & Hrun).
    by exists enc.
  - destruct (Hjob job None registered score eq_refl (or_intror eq_refl))
      as (enc & _ & [st' Hrun] & _).
    by exists enc, st'.
Defined.

(** Endpoints the model of [new Connection] takes and refuses. *)
Example endpoint_samples :
  map (Connection_valid (NodeLib := node))
    ["https://api.mainnet-beta.solana.com"; "http://localhost:8899";
     "http://[::1]:8899"; "localhost:8899"; "ws://localhost:8900";
     "http:localhost"; "https://"; "http://:8899"]
  = [true; true; true; false; false; false; false; false].
Proof. by vm_compute. Qed.

(** With the endpoint [http://localhost:8899], [getStateCommitment]
    returns [null] with and without a program id. *)
Example getStateCommitment_samples :
  getStateCommitment (node := node) "state-7" (client None)
    = (Ok None, client None) ∧
  getStateCommitment (node := node) "state-7" chain_client
    = (Ok None, set_cache {[ endpoint := connection_to endpoint ]} chain_client).
Proof. by vm_compute. Qed.

(** C9 as stated fails.  The client has a program id and the endpoint
    [localhost:8899], which the constructor of the client takes, for it is
    not empty, and which [new Connection] refuses, for it is no [http:] or
    [https:] URL; [getStateCommitment] then throws, where the claim has it
    return [null] for every state id. *)
Lemma getStateCommitment_throws :
  PrivateStateClient_new
    (ConfigArg {| opt_rpcEndpoint := Some (Some bare_endpoint);
                  opt_programId := Some program;
                  opt_computeProgramId := Some program;
                  opt_provingServiceUrl := None;
                  opt_walletAdapter := None |})
    = Ok (privateState bare_client) ∧
  configured (programId (psc_config (privateState bare_client))) = Some program ∧
  Connection_valid (NodeLib := node) bare_endpoint = false ∧
  getStateCommitment (node := node) "state-7" bare_client
    = (Err JSError, bare_client) ∧
  (getStateCommitment (node := node) "state-7" bare_client).1 ≠ Ok None.
Proof. by vm_compute. Qed.

End Witness.
